(** * Snake-game agents (AI_Lab / snake_game_agents): a shallow embedding

    The development follows the Python sources

    - [Learning.py] and [Learning/Learning2.py]: the tabular Q-learning agent,
      its snake and its terminal self-collision test;
    - [Utilitybased.py] (and the identical [Apple]/[Snake] classes of
      [Modelbased.py]): the planning agent with its breadth-first path search,
      move scoring, flood fill and emergency move.

    Conventions.

    - Python [int]s are [Z]; the loop counter [length] of a snake is a [nat].
    - Python [float]s are idealised as canonical rationals [Qc]: the values the
      code computes from integers with [+], [-], [*], [/] are rational, and
      [math.sqrt] is a parameter of the scoring section. An [int] that enters
      float arithmetic is converted exactly, by [Qc_of_Z]; the
      [OverflowError] that Python raises for an [int] beyond the float range
      ([in_float_range] below) is not modelled.
    - A raised exception is the [None] of the option monad.
    - Random draws ([np.random.rand], [np.random.choice], [random.choice],
      [random.randint]) are explicit arguments: the raw number the generator
      hands out. *)

From Stdlib Require Import ZArith QArith Qcanon Lia List Bool.
From stdpp Require Import gmap list numbers option.
Import ListNotations.

Open Scope Z_scope.

(** Block size in pixels: [SIZE = 40] in every variant. *)
Definition SIZE : Z := 40.

(** An [int] used where a [float] is expected. *)
Definition Qc_of_Z (z : Z) : Qc := Q2Qc (inject_Z z).

(** The four headings, the strings ["left"], ["right"], ["up"], ["down"]. *)
Inductive Direction : Type := Left | Right | Up | Down.

#[global] Instance Direction_eq_dec : EqDecision Direction.
Proof. solve_decision. Defined.

(** Python [/] on floats: [ZeroDivisionError] on a zero divisor. *)
Definition truediv (a b : Qc) : option Qc :=
  if decide (b = Q2Qc 0) then None else Some (a / b)%Qc.

(* ===================================================================== *)
(** * Learning.py / Learning2.py *)
(* ===================================================================== *)

Module Learning.

(** [class Snake]: [direction], [length] and the coordinate lists [x], [y].
    The class keeps [length = len(x) = len(y)], so [x[i]] with [i < length]
    never raises; [seg_x]/[seg_y] read the lists at such an index. *)
Record Snake : Type := mkSnake {
  direction : Direction;
  length : nat;
  x : list Z;
  y : list Z
}.

Definition seg_x (s : Snake) (i : nat) : Z := nth i (x s) 0.
Definition seg_y (s : Snake) (i : nat) : Z := nth i (y s) 0.

Definition snake_wf (s : Snake) : Prop :=
  (1 <= length s)%nat /\ List.length (x s) = length s /\ List.length (y s) = length s.

(** [Snake.__init__]. *)
Definition init_snake : Snake :=
  {| direction := Down; length := 1; x := [40]; y := [40] |}.

(** [Snake.increase_length]:
<<
    self.length += 1
    self.x.append(-1)
    self.y.append(-1)
>> *)
Definition increase_length (s : Snake) : Snake :=
  {| direction := direction s;
     length := S (length s);
     x := x s ++ [-1];
     y := y s ++ [-1] |}.

(** [Game.is_collision(x1, y1, x2, y2)] of Learning.py: the point [(x1,y1)]
    lies in the [SIZE]-square whose top-left corner is [(x2,y2)]. *)
Definition is_collision (x1 y1 x2 y2 : Z) : bool :=
  if (x2 <=? x1) && (x1 <? x2 + SIZE) then
    if (y2 <=? y1) && (y1 <? y2 + SIZE) then true else false
  else false.

(** [Game.self_collision] of Learning.py:
<<
    for i in range(3, self.snake.length):
        if self.is_collision(x[0], y[0], x[i], y[i]): return True
    return False
>> *)
Definition self_collision (s : Snake) : bool :=
  existsb (fun i => is_collision (seg_x s 0) (seg_y s 0) (seg_x s i) (seg_y s i))
          (seq 3 (length s - 3)).

(** ** The Q-learning agent *)

(** A state key [(dx, dy, dir_code)]. *)
Definition State : Type := (Z * Z * Z)%type.

(** [class QLearningAgent]: [q_table] maps a state to its vector of action
    values (a numpy array, here a list). *)
Record QLearningAgent : Type := mkAgent {
  q_table : gmap State (list Qc);
  actions : list Direction;
  lr : Qc;
  gamma : Qc;
  epsilon : Qc
}.

(** The agent as [Game.__init__] builds it:
    [QLearningAgent(actions=["left", "right", "up", "down"])] with the default
    rates, on a given table (empty, or loaded from disk in Learning2.py). *)
Definition default_actions : list Direction := [Left; Right; Up; Down].

Definition new_agent (q : gmap State (list Qc)) : QLearningAgent :=
  {| q_table := q;
     actions := default_actions;
     lr := Q2Qc (1 # 10);
     gamma := Q2Qc (9 # 10);
     epsilon := Q2Qc (2 # 10) |}.

Definition with_table (ag : QLearningAgent) (q : gmap State (list Qc)) : QLearningAgent :=
  {| q_table := q; actions := actions ag; lr := lr ag; gamma := gamma ag;
     epsilon := epsilon ag |}.

(** [np.zeros(n)]. *)
Definition np_zeros (n : nat) : list Qc := replicate n (Q2Qc 0).

(** [np.max(v)]: [ValueError] on an empty array. *)
Definition Qc_max (a b : Qc) : Qc := if decide (a < b)%Qc then b else a.

Definition np_max (v : list Qc) : option Qc :=
  match v with
  | [] => None
  | a :: r => Some (fold_left Qc_max r a)
  end.

(** [np.argmax(v)]: the index of the first maximal entry; [ValueError] on an
    empty array. [argmax_from bi b i r] scans [r], whose first entry has index
    [i], with [b] at index [bi] the best entry so far. *)
Fixpoint argmax_from (bi : nat) (b : Qc) (i : nat) (r : list Qc) : nat :=
  match r with
  | [] => bi
  | a :: r' =>
      if decide (b < a)%Qc then argmax_from i a (S i) r'
      else argmax_from bi b (S i) r'
  end.

Definition np_argmax (v : list Qc) : option nat :=
  match v with
  | [] => None
  | a :: r => Some (argmax_from 0 a 1 r)
  end.

(** [list.index(a)]: [ValueError] when [a] is absent. *)
Fixpoint index_of (a : Direction) (l : list Direction) : option nat :=
  match l with
  | [] => None
  | b :: r => if decide (a = b) then Some 0%nat else S <$> index_of a r
  end.

(** [np.random.choice(actions)] on the raw draw [pick]. *)
Definition random_choice (pick : nat) (l : list Direction) : option Direction :=
  l !! (pick mod List.length l)%nat.

(** [QLearningAgent.choose_action(state)]:
<<
    if np.random.rand() < self.epsilon or state not in self.q_table:
        return np.random.choice(self.actions)
    else:
        action_values = self.q_table[state]
        return self.actions[np.argmax(action_values)]
>>
    [rand] is the value of [np.random.rand()], in [0,1); [pick] is the draw
    that [np.random.choice] consumes. *)
Definition choose_action (ag : QLearningAgent) (rand : Qc) (pick : nat)
    (state : State) : option Direction :=
  if decide (rand < epsilon ag)%Qc then random_choice pick (actions ag)
  else
    match q_table ag !! state with
    | None => random_choice pick (actions ag)
    | Some action_values =>
        i ← np_argmax action_values;
        actions ag !! i
    end.

(** The lazy initialisation at the head of [learn]:
<<
    if state not in self.q_table:
        self.q_table[state] = np.zeros(len(self.actions))
>> *)
Definition ensure (n : nat) (s : State) (q : gmap State (list Qc)) : gmap State (list Qc) :=
  match q !! s with
  | None => <[s := np_zeros n]> q
  | Some _ => q
  end.

Definition ensure_next (n : nat) (next_state : option State)
    (q : gmap State (list Qc)) : gmap State (list Qc) :=
  match next_state with
  | None => q
  | Some s' => ensure n s' q
  end.

(** The update target of [learn]:
<<
    if next_state is None: target = reward
    else: target = reward + self.gamma * np.max(self.q_table[next_state])
>>
    The [int] reward becomes a float here or, on a terminal transition, in
    [target - predict]; [Qc_of_Z] stands for that conversion on the float
    range. *)
Definition target_of (g : Qc) (q : gmap State (list Qc)) (reward : Z)
    (next_state : option State) : option Qc :=
  match next_state with
  | None => Some (Qc_of_Z reward)
  | Some s' =>
      row' ← q !! s';
      m ← np_max row';
      Some (Qc_of_Z reward + g * m)%Qc
  end.

(** [QLearningAgent.learn(state, action, reward, next_state)]; a terminal
    transition passes [next_state = None].
<<
    action_index = self.actions.index(action)
    predict = self.q_table[state][action_index]
    ...
    self.q_table[state][action_index] += self.lr * (target - predict)
>>
    The array is updated in place; indexing it out of range raises. *)
Definition learn (ag : QLearningAgent) (state : State) (action : Direction)
    (reward : Z) (next_state : option State) : option QLearningAgent :=
  let n := List.length (actions ag) in
  let q1 := ensure n state (q_table ag) in
  let q2 := ensure_next n next_state q1 in
  action_index ← index_of action (actions ag);
  row ← q2 !! state;
  predict ← row !! action_index;
  target ← target_of (gamma ag) q2 reward next_state;
  Some (with_table ag
          (<[state := <[action_index := (predict + lr ag * (target - predict))%Qc]> row]> q2)).

(** Reading the table with its default-on-miss policy: an absent state
    stands for the all-zero vector. *)
Definition q_value (q : gmap State (list Qc)) (s : State) (i : nat) : Qc :=
  match q !! s with
  | None => Q2Qc 0
  | Some row => default (Q2Qc 0) (row !! i)
  end.

(** Every stored vector has one entry per action. *)
Definition table_wf (ag : QLearningAgent) : Prop :=
  forall s row, q_table ag !! s = Some row -> List.length row = List.length (actions ag).

End Learning.

(* ===================================================================== *)
(** * Utilitybased.py (Apple and Snake are the same in Modelbased.py) *)
(* ===================================================================== *)

Module Utilitybased.

(** A pixel position [(x, y)]. *)
Definition Cell : Type := (Z * Z)%type.

(** ** Apple *)

(** [class Apple]: position and the screen and grid sizes read in
    [__init__]. *)
Record Apple : Type := mkApple {
  apple_x : Z;
  apple_y : Z;
  screen_width : Z;
  screen_height : Z;
  grid_width : Z;
  grid_height : Z
}.

(** [Apple.__init__] on a surface of [w] by [h] pixels. *)
Definition init_apple (w h : Z) : Apple :=
  {| apple_x := 120; apple_y := 120;
     screen_width := w; screen_height := h;
     grid_width := w / SIZE; grid_height := h / SIZE |}.

Definition place (a : Apple) (px py : Z) : Apple :=
  {| apple_x := px; apple_y := py;
     screen_width := screen_width a; screen_height := screen_height a;
     grid_width := grid_width a; grid_height := grid_height a |}.

(** [range(0, stop, SIZE)]. *)
Definition range_SIZE (stop : Z) : list Z :=
  map (fun i => Z.of_nat i * SIZE) (seq 0 (Z.to_nat ((stop + SIZE - 1) / SIZE))).

(** The list [valid_positions] built by [Apple.move]:
<<
    for x in range(0, self.screen_width - SIZE, SIZE):
        for y in range(0, self.screen_height - SIZE, SIZE):
            if (x, y) not in snake_positions:
                valid_positions.append((x, y))
>> *)
Definition valid_positions (a : Apple) (snake_positions : list Cell) : list Cell :=
  px ← range_SIZE (screen_width a - SIZE);
  py ← range_SIZE (screen_height a - SIZE);
  if bool_decide ((px, py) ∈ snake_positions) then [] else [(px, py)].

(** [random.choice(seq)] on the raw draw [d]; [IndexError] on an empty
    sequence. *)
Definition random_choice (d : nat) (l : list Cell) : option Cell :=
  l !! (d mod List.length l)%nat.

(** [random.randint(lo, hi)] on the raw draw [d]; [ValueError] on an empty
    range. *)
Definition random_randint (d : nat) (lo hi : Z) : option Z :=
  if lo <=? hi then Some (lo + Z.of_nat d mod (hi - lo + 1)) else None.

(** [Apple.move(snake_positions)]:
<<
    if valid_positions:
        self.x, self.y = random.choice(valid_positions)
    else:
        # Fallback if no valid positions (shouldn't happen in normal gameplay)
        self.x = random.randint(0, self.grid_width - 1) * SIZE
        self.y = random.randint(0, self.grid_height - 1) * SIZE
>>
    The method returns nothing: its whole outcome is the apple afterwards,
    or an exception. [d1] and [d2] are the draws the generator hands out. *)
Definition move (a : Apple) (snake_positions : list Cell) (d1 d2 : nat) : option Apple :=
  match valid_positions a snake_positions with
  | (_ :: _) as valid =>
      p ← random_choice d1 valid;
      Some (place a p.1 p.2)
  | [] =>
      rx ← random_randint d1 0 (grid_width a - 1);
      ry ← random_randint d2 0 (grid_height a - 1);
      Some (place a (rx * SIZE) (ry * SIZE))
  end.

(** ** Snake *)

Record Snake : Type := mkSnake {
  direction : Direction;
  length : nat;
  x : list Z;
  y : list Z
}.

(** [x[i]], [y[i]] for [i < length]; the class keeps
    [length = len(x) = len(y)]. *)
Definition seg_x (s : Snake) (i : nat) : Z := nth i (x s) 0.
Definition seg_y (s : Snake) (i : nat) : Z := nth i (y s) 0.

Definition snake_wf (s : Snake) : Prop :=
  (1 <= length s)%nat /\ List.length (x s) = length s /\ List.length (y s) = length s.

Definition init_snake : Snake :=
  {| direction := Down; length := 1; x := [40]; y := [40] |}.

Definition set_direction (s : Snake) (d : Direction) : Snake :=
  {| direction := d; length := length s; x := x s; y := y s |}.

(** [move_left], [move_right], [move_up], [move_down]: the heading changes
    unless that would be an immediate U-turn. *)
Definition move_left (s : Snake) : Snake :=
  if decide (direction s <> Right) then set_direction s Left else s.
Definition move_right (s : Snake) : Snake :=
  if decide (direction s <> Left) then set_direction s Right else s.
Definition move_up (s : Snake) : Snake :=
  if decide (direction s <> Down) then set_direction s Up else s.
Definition move_down (s : Snake) : Snake :=
  if decide (direction s <> Up) then set_direction s Down else s.

(** [Snake.increase_length]:
<<
    self.length += 1
    # Add new segment at the tail position
    self.x.append(self.x[-1])
    self.y.append(self.y[-1])
>>
    [self.x[-1]] raises [IndexError] on an empty list. *)
Definition increase_length (s : Snake) : option Snake :=
  tx ← list.last (x s);
  ty ← list.last (y s);
  Some {| direction := direction s;
          length := S (length s);
          x := x s ++ [tx];
          y := y s ++ [ty] |}.

(** [Snake.get_positions]. *)
Definition get_positions (s : Snake) : list Cell :=
  map (fun i => (seg_x s i, seg_y s i)) (seq 0 (length s)).

(** ** Game *)

(** The part of [class Game] the agent reads: the surface size, the snake
    and the apple. *)
Record Game : Type := mkGame {
  surface_width : Z;
  surface_height : Z;
  snake : Snake;
  apple : Apple
}.

Definition set_snake (g : Game) (s : Snake) : Game :=
  {| surface_width := surface_width g; surface_height := surface_height g;
     snake := s; apple := apple g |}.

(** [Game.is_collision]: [x1 == x2 and y1 == y2]. *)
Definition is_collision (x1 y1 x2 y2 : Z) : bool := (x1 =? x2) && (y1 =? y2).

(** [Game.self_collision]:
<<
    if self.snake.length < 4: return False
    for i in range(4, self.snake.length):
        if self.is_collision(x[0], y[0], x[i], y[i]): return True
    return False
>> *)
Definition self_collision (g : Game) : bool :=
  let s := snake g in
  if (length s <? 4)%nat then false
  else existsb (fun i => is_collision (seg_x s 0) (seg_y s 0) (seg_x s i) (seg_y s i))
               (seq 4 (length s - 4)).

(** [Game._would_collide(x, y)]: outside the surface, or on a body segment
    other than the head.
<<
    if (x < 0 or x >= width or y < 0 or y >= height): return True
    for i in range(1, self.snake.length):
        if x == self.snake.x[i] and y == self.snake.y[i]: return True
    return False
>> *)
Definition would_collide (g : Game) (cx cy : Z) : bool :=
  if (cx <? 0) || (surface_width g <=? cx) || (cy <? 0) || (surface_height g <=? cy)
  then true
  else existsb (fun i => (cx =? seg_x (snake g) i) && (cy =? seg_y (snake g) i))
               (seq 1 (length (snake g) - 1)).

(** The four steps [(0,-SIZE), (0,SIZE), (-SIZE,0), (SIZE,0)]: up, down,
    left, right. *)
Definition deltas : list Cell := [(0, - SIZE); (0, SIZE); (- SIZE, 0); (SIZE, 0)].

(** ** Path search *)

(** [get_neighbors(x, y)] inside [_find_path_astar]. *)
Definition get_neighbors (g : Game) (cx cy : Z) : list Cell :=
  List.filter
    (fun n : Cell =>
       (0 <=? n.1) && (n.1 <? surface_width g) &&
       (0 <=? n.2) && (n.2 <? surface_height g) &&
       negb (would_collide g n.1 n.2))
    (map (fun d : Cell => (cx + d.1, cy + d.2)) deltas).

(** A queue entry [(current_x, current_y, path)]. *)
Definition Entry : Type := (Cell * list Cell)%type.

(** One turn of the inner [for]:
<<
    if (neighbor_x, neighbor_y) not in visited:
        visited.add((neighbor_x, neighbor_y))
        new_path = path + [(neighbor_x, neighbor_y)]
        queue.append((neighbor_x, neighbor_y, new_path))
>> *)
Definition visit_neighbor (path : list Cell) (acc : list Entry * list Cell) (n : Cell)
    : list Entry * list Cell :=
  if bool_decide (n ∈ acc.2) then acc
  else (acc.1 ++ [(n, path ++ [n])], n :: acc.2).

(** The [while queue and iterations < max_iterations] loop; the first
    argument is [max_iterations - iterations]. *)
Fixpoint bfs_loop (g : Game) (goal : Cell) (left : nat)
    (queue : list Entry) (visited : list Cell) : option (list Cell) :=
  match queue, left with
  | [], _ => None
  | _, O => None
  | (current, path) :: queue', S left' =>
      if bool_decide (current = goal) then Some path
      else
        let acc := fold_left (visit_neighbor path)
                             (get_neighbors g current.1 current.2) (queue', visited) in
        bfs_loop g goal left' acc.1 acc.2
  end.

(** [_find_path_astar] with its iteration ceiling as a parameter. *)
Definition find_path_bounded (max_iterations : nat) (g : Game)
    (start_x start_y goal_x goal_y : Z) : option (list Cell) :=
  bfs_loop g (goal_x, goal_y) max_iterations
           [((start_x, start_y), [(start_x, start_y)])] [(start_x, start_y)].

(** [Game._find_path_astar]: [max_iterations = 200]. *)
Definition find_path_astar (g : Game) (start_x start_y goal_x goal_y : Z)
    : option (list Cell) :=
  find_path_bounded 200 g start_x start_y goal_x goal_y.

(** ** Flood fill *)

(** One pass of the [while queue and count < max_depth] loop of
    [_flood_fill_count]; a queue entry is [(x, y, depth)]. [fuel] bounds the
    number of passes of the model: [flood_fuel] is always enough. *)
Fixpoint flood_loop (g : Game) (max_depth : Z) (fuel : nat)
    (queue : list (Cell * Z)) (visited : list Cell) (count : Z) : option Z :=
  match queue with
  | [] => Some count
  | (c, depth) :: queue' =>
      if count <? max_depth then
        match fuel with
        | O => None
        | S fuel' =>
            if bool_decide (c ∈ visited) || (max_depth <? depth) then
              flood_loop g max_depth fuel' queue' visited count
            else if would_collide g c.1 c.2 then
              flood_loop g max_depth fuel' queue' visited count
            else
              let visited' := c :: visited in
              let added :=
                List.filter (fun n : Cell => negb (bool_decide (n ∈ visited')))
                            (map (fun d : Cell => (c.1 + d.1, c.2 + d.2)) deltas) in
              flood_loop g max_depth fuel'
                         (queue' ++ map (fun n => (n, depth + 1)) added)
                         visited' (count + 1)
        end
      else Some count
  end.

Definition flood_fuel (max_depth : Z) : nat := S (4 * Z.to_nat max_depth).

(** [Game._flood_fill_count(start_x, start_y, max_depth)]. *)
Definition flood_fill_count (g : Game) (start_x start_y : Z) (max_depth : Z) : Z :=
  default 0 (flood_loop g max_depth (flood_fuel max_depth)
                        [((start_x, start_y), 0)] [] 0).

(** The default [max_depth=50] of [_flood_fill_count]. *)
Definition default_max_depth : Z := 50.

(** ** Sub-scores *)

(** The value [_calculate_trap_avoidance_score] returns for a given count:
<<
    min_required_space = self.snake.length + 5
    if accessible_spaces >= min_required_space: return 100
    else: return (accessible_spaces / min_required_space) * 100
>> *)
Definition trap_score_of_count (len : nat) (accessible_spaces : Z) : option Qc :=
  let min_required_space := Z.of_nat len + 5 in
  if min_required_space <=? accessible_spaces then Some (Qc_of_Z 100)
  else
    r ← truediv (Qc_of_Z accessible_spaces) (Qc_of_Z min_required_space);
    Some (r * Qc_of_Z 100)%Qc.

(** [Game._calculate_trap_avoidance_score(x, y)]: the count comes from
    [self._flood_fill_count(x, y)], that is with the default cap. *)
Definition calculate_trap_avoidance_score (g : Game) (cx cy : Z) : option Qc :=
  let accessible_spaces := flood_fill_count g cx cy default_max_depth in
  trap_score_of_count (length (snake g)) accessible_spaces.

(** [range(-SIZE*2, SIZE*3, SIZE)]. *)
Definition window_offsets : list Z := [-2 * SIZE; - SIZE; 0; SIZE; 2 * SIZE].

(** The cells [_calculate_safety_score] looks at: the window without its
    centre. *)
Definition window_cells : list Cell :=
  dx ← window_offsets;
  dy ← window_offsets;
  if (dx =? 0) && (dy =? 0) then [] else [(dx, dy)].

(** [Game._calculate_safety_score(x, y)]. *)
Definition calculate_safety_score (g : Game) (cx cy : Z) : option Qc :=
  let total_spaces := Z.of_nat (List.length window_cells) in
  let safe_spaces :=
    Z.of_nat (List.length (List.filter
      (fun d : Cell => negb (would_collide g (cx + d.1) (cy + d.2))) window_cells)) in
  if 0 <? total_spaces then
    r ← truediv (Qc_of_Z safe_spaces) (Qc_of_Z total_spaces);
    Some (r * Qc_of_Z 100)%Qc
  else Some (Qc_of_Z 0).

(** [Game._calculate_mobility_score(x, y)]. *)
Definition calculate_mobility_score (g : Game) (cx cy : Z) : option Qc :=
  let future_moves :=
    Z.of_nat (List.length (List.filter
      (fun d : Cell => negb (would_collide g (cx + d.1) (cy + d.2))) deltas)) in
  r ← truediv (Qc_of_Z future_moves) (Qc_of_Z 4);
  Some (r * Qc_of_Z 100)%Qc.

(** The weighted combination of [_calculate_move_score]. *)
Definition weighted_total (distance_score safety_score mobility_score trap_avoidance_score : Qc)
    : Qc :=
  (distance_score * Q2Qc (4 # 10) + safety_score * Q2Qc (3 # 10) +
   mobility_score * Q2Qc (2 # 10) + trap_avoidance_score * Q2Qc (1 # 10))%Qc.

(** ** Heading helpers *)

(** The dictionary [opposites]. *)
Definition opposites (d : Direction) : Direction :=
  match d with
  | Left => Right
  | Right => Left
  | Up => Down
  | Down => Up
  end.

(** [Game._is_opposite_direction(direction)]. *)
Definition is_opposite_direction (g : Game) (d : Direction) : bool :=
  bool_decide (d = opposites (direction (snake g))).

(** [Game._get_direction_to_position]; [None] is Python's [None]. *)
Definition get_direction_to_position (from_x from_y to_x to_y : Z) : option Direction :=
  let dx := to_x - from_x in
  let dy := to_y - from_y in
  if dx <? 0 then Some Left
  else if 0 <? dx then Some Right
  else if dy <? 0 then Some Up
  else if 0 <? dy then Some Down
  else None.

(** [Game._execute_move(direction)]. *)
Definition execute_move (g : Game) (d : Direction) : Game :=
  match d with
  | Left => set_snake g (move_left (snake g))
  | Right => set_snake g (move_right (snake g))
  | Up => set_snake g (move_up (snake g))
  | Down => set_snake g (move_down (snake g))
  end.

(** The cell one step from [(hx, hy)] in direction [d]. *)
Definition step_cell (hx hy : Z) (d : Direction) : Cell :=
  match d with
  | Up => (hx, hy - SIZE)
  | Down => (hx, hy + SIZE)
  | Left => (hx - SIZE, hy)
  | Right => (hx + SIZE, hy)
  end.

(** ** Emergency move *)

(** [zip(directions, deltas)] of [_emergency_move]. *)
Definition emergency_order : list (Direction * Cell) :=
  zip [Up; Down; Left; Right] deltas.

(** [Game._emergency_move(head_x, head_y)]. The result is the heading handed
    to [_execute_move] ([None] if the method ends without a call) and the
    game afterwards. *)
Definition emergency_move (g : Game) (head_x head_y : Z) : option Direction * Game :=
  match List.find (fun e : Direction * Cell =>
                     negb (is_opposite_direction g e.1) &&
                     negb (would_collide g (head_x + e.2.1) (head_y + e.2.2)))
                  emergency_order with
  | Some e => (Some e.1, execute_move g e.1)
  | None =>
      match List.find (fun e : Direction * Cell => negb (is_opposite_direction g e.1))
                      emergency_order with
      | Some e => (Some e.1, execute_move g e.1)
      | None => (None, g)
      end
  end.

(** ** Move evaluation and the decision cascade *)

Section Scoring.

(** [math.sqrt], idealised. *)
Variable math_sqrt : Qc -> Qc.

(** [Game._calculate_move_score(x, y, apple_x, apple_y)]. *)
Definition calculate_move_score (g : Game) (cx cy ax ay : Z) : option Qc :=
  let distance_to_apple :=
    math_sqrt (Qc_of_Z ((ax - cx) ^ 2 + (ay - cy) ^ 2)) in
  let max_distance :=
    math_sqrt (Qc_of_Z (surface_width g ^ 2 + surface_height g ^ 2)) in
  r ← truediv (max_distance - distance_to_apple)%Qc max_distance;
  let distance_score := (r * Qc_of_Z 100)%Qc in
  safety_score ← calculate_safety_score g cx cy;
  mobility_score ← calculate_mobility_score g cx cy;
  trap_avoidance_score ← calculate_trap_avoidance_score g cx cy;
  Some (weighted_total distance_score safety_score mobility_score trap_avoidance_score).

(** The candidate list of [_evaluate_moves], in its order left, right, up,
    down. *)
Definition candidates (head_x head_y : Z) : list (Direction * Cell) :=
  [(Left, (head_x - SIZE, head_y)); (Right, (head_x + SIZE, head_y));
   (Up, (head_x, head_y - SIZE)); (Down, (head_x, head_y + SIZE))].

(** The loop of [_evaluate_moves] over the remaining candidates. *)
Fixpoint evaluate_loop (g : Game) (ax ay : Z) (l : list (Direction * Cell))
    : option (list (Direction * Qc)) :=
  match l with
  | [] => Some []
  | (d, n) :: l' =>
      if is_opposite_direction g d then evaluate_loop g ax ay l'
      else if would_collide g n.1 n.2 then evaluate_loop g ax ay l'
      else
        score ← calculate_move_score g n.1 n.2 ax ay;
        rest ← evaluate_loop g ax ay l';
        Some ((d, score) :: rest)
  end.

(** [Game._evaluate_moves(head_x, head_y, apple_x, apple_y)]. *)
Definition evaluate_moves (g : Game) (head_x head_y ax ay : Z)
    : option (list (Direction * Qc)) :=
  evaluate_loop g ax ay (candidates head_x head_y).

(** [max(possible_moves, key=lambda x: x[1])]: the first entry with the
    greatest score. *)
Fixpoint max_from (best : Direction * Qc) (l : list (Direction * Qc)) : Direction * Qc :=
  match l with
  | [] => best
  | m :: l' => if decide (best.2 < m.2)%Qc then max_from m l' else max_from best l'
  end.

(** The heading the path search proposes in [auto_control]:
<<
    if path and len(path) > 1:
        next_pos = path[1]
        direction = self._get_direction_to_position(head_x, head_y, next_pos[0], next_pos[1])
>> *)
Definition path_direction (head_x head_y : Z) (path : option (list Cell)) : option Direction :=
  match path with
  | Some p =>
      if (1 <? List.length p)%nat then
        match p !! 1%nat with
        | Some next_pos => get_direction_to_position head_x head_y next_pos.1 next_pos.2
        | None => None
        end
      else None
  | None => None
  end.

(** [Game.auto_control]. The outer option is an exception; inside, the
    heading handed to [_execute_move] ([None] if the tick ends without a
    call) and the game afterwards. *)
Definition auto_control (g : Game) : option (option Direction * Game) :=
  let head_x := seg_x (snake g) 0 in
  let head_y := seg_y (snake g) 0 in
  let ax := apple_x (apple g) in
  let ay := apple_y (apple g) in
  let path := find_path_astar g head_x head_y ax ay in
  match path_direction head_x head_y path with
  | Some d => Some (Some d, execute_move g d)
  | None =>
      possible_moves ← evaluate_moves g head_x head_y ax ay;
      match possible_moves with
      | m :: l =>
          let best_move := max_from m l in
          Some (Some best_move.1, execute_move g best_move.1)
      | [] => Some (emergency_move g head_x head_y)
      end
  end.

End Scoring.

End Utilitybased.

(* ===================================================================== *)
(** * Worlds and agents used as concrete inputs *)
(* ===================================================================== *)

(** A greedy agent: the agent of [Game.__init__] with [epsilon = 0]. *)
Definition greedy_agent (q : gmap Learning.State (list Qc)) : Learning.QLearningAgent :=
  {| Learning.q_table := q;
     Learning.actions := Learning.default_actions;
     Learning.lr := Q2Qc (1 # 10);
     Learning.gamma := Q2Qc (9 # 10);
     Learning.epsilon := Q2Qc 0 |}.


(** The state of the first tick: apple to the lower right, heading down. *)
Definition first_state : Learning.State := (1, 1, 3).

(** ** The rewards the agent can take *)

(** [sys.float_info.max], the largest finite float: (2 - 2^-52) * 2^1023. *)
Definition float_max : Z := (2 ^ 53 - 1) * 2 ^ 971.

(** The integer rewards [learn] can mix with floats. [learn] computes
    [reward + self.gamma * np.max(...)] and [target - predict] with an [int]
    reward and float operands, which turns the reward into a float: Python
    converts every [int] of this range and raises [OverflowError] for an
    [int] too large for a float. The model converts with the total
    [Qc_of_Z], so it follows the code on this range; the rewards of the
    game, 10, 0 and -10, lie in it. *)
Definition in_float_range (r : Z) : Prop := - float_max <= r <= float_max.

(** A table in which [first_state] has been seen, with all values zero. *)
Definition seen_table : gmap Learning.State (list Qc) :=
  {[ first_state := Learning.np_zeros 4 ]}.

(** A Learning.py snake whose head meets segment 3 and no other segment. *)
Definition coiled_learning_snake : Learning.Snake :=
  {| Learning.direction := Left; Learning.length := 5;
     Learning.x := [40; 80; 80; 40; 40];
     Learning.y := [40; 40; 80; 40; 120] |}.

(** The apple on the 1000 by 800 surface of [Game.__init__]. *)
Definition std_apple : Utilitybased.Apple := Utilitybased.init_apple 1000 800.

(** [__init__] derives the grid size from the screen size. *)
Definition apple_wf (a : Utilitybased.Apple) : Prop :=
  Utilitybased.grid_width a = Utilitybased.screen_width a / SIZE /\
  Utilitybased.grid_height a = Utilitybased.screen_height a / SIZE.

(** A body that lies on every cell [Apple.move] considers. *)
Definition covering_body : list Utilitybased.Cell :=
  Utilitybased.valid_positions std_apple [].

(** The game right after [Game.__init__]. *)
Definition start_game : Utilitybased.Game :=
  {| Utilitybased.surface_width := 1000; Utilitybased.surface_height := 800;
     Utilitybased.snake := Utilitybased.init_snake;
     Utilitybased.apple := std_apple |}.

(** The same with the apple far from the head, at (920, 720). *)
Definition far_apple_game : Utilitybased.Game :=
  {| Utilitybased.surface_width := 1000; Utilitybased.surface_height := 800;
     Utilitybased.snake := Utilitybased.init_snake;
     Utilitybased.apple := Utilitybased.place std_apple 920 720 |}.

(** A snake with the same body and the same heading as the Utilitybased.py
    snake whose head meets segment 3 only. *)
Definition coiled_game : Utilitybased.Game :=
  {| Utilitybased.surface_width := 1000; Utilitybased.surface_height := 800;
     Utilitybased.snake :=
       {| Utilitybased.direction := Left; Utilitybased.length := 5;
          Utilitybased.x := [40; 80; 80; 40; 40];
          Utilitybased.y := [40; 40; 80; 40; 120] |};
     Utilitybased.apple := std_apple |}.

(** Head in the top-left corner, body below it, heading left (the head came
    up the left wall and a left turn was keyed in): up, down and left are
    blocked, the reverse heading, right, is free. *)
Definition corner_game : Utilitybased.Game :=
  {| Utilitybased.surface_width := 1000; Utilitybased.surface_height := 800;
     Utilitybased.snake :=
       {| Utilitybased.direction := Left; Utilitybased.length := 2;
          Utilitybased.x := [0; 0]; Utilitybased.y := [0; 40] |};
     Utilitybased.apple := std_apple |}.

(** A surface of a single cell, heading left: all four headings blocked. *)
Definition boxed_game : Utilitybased.Game :=
  {| Utilitybased.surface_width := 40; Utilitybased.surface_height := 40;
     Utilitybased.snake :=
       {| Utilitybased.direction := Left; Utilitybased.length := 1;
          Utilitybased.x := [0]; Utilitybased.y := [0] |};
     Utilitybased.apple := Utilitybased.init_apple 40 40 |}.

(** The place of a heading in the order up, down, left, right in which
    [_emergency_move] tries them. *)
Definition order_index (d : Direction) : nat :=
  match d with
  | Up => 0
  | Down => 1
  | Left => 2
  | Right => 3
  end.

(** A snake of length 46: head at (160,40) heading left, body along the row
    y = 40 to the right wall, then back along the row y = 0. *)
Definition long_snake : Utilitybased.Snake :=
  {| Utilitybased.direction := Left;
     Utilitybased.length := 46;
     Utilitybased.x :=
       map (fun i => (4 + Z.of_nat i) * SIZE) (seq 0 21)
       ++ map (fun i => (24 - Z.of_nat i) * SIZE) (seq 0 25);
     Utilitybased.y := repeat 40 21 ++ repeat 0 25 |}.

Definition long_snake_game : Utilitybased.Game :=
  {| Utilitybased.surface_width := 1000; Utilitybased.surface_height := 800;
     Utilitybased.snake := long_snake;
     Utilitybased.apple := std_apple |}.

(** The trap-avoidance sub-score as the specification words it: the flood
    fill is capped at [bodyLength + margin] and divided by the same number,
    with the margin of 5 of the code. *)
Definition claimed_trap_score (g : Utilitybased.Game) (cx cy : Z) : option Qc :=
  let cap := Z.of_nat (Utilitybased.length (Utilitybased.snake g)) + 5 in
  r ← truediv (Qc_of_Z (Utilitybased.flood_fill_count g cx cy cap)) (Qc_of_Z cap);
  Some (r * Qc_of_Z 100)%Qc.

(** A rational stand-in for [math.sqrt], positive on positive arguments:
    the upper bound (q + 1) / 2. *)
Definition coarse_sqrt (q : Qc) : Qc := ((q + 1) / Qc_of_Z 2)%Qc.

(* ===================================================================== *)
(** * The free-cell graph, in the words of the specification *)
(* ===================================================================== *)

(** Two cells are 4-connected when they are one block apart along one
    axis. *)
Definition adjacent (a b : Utilitybased.Cell) : Prop :=
  b = (a.1, a.2 - SIZE) \/ b = (a.1, a.2 + SIZE) \/
  b = (a.1 - SIZE, a.2) \/ b = (a.1 + SIZE, a.2).

(** A cell is free when it is on the surface and no body segment other than
    the head lies on it. *)
Definition free_cell (g : Utilitybased.Game) (c : Utilitybased.Cell) : Prop :=
  (0 <= c.1 < Utilitybased.surface_width g) /\
  (0 <= c.2 < Utilitybased.surface_height g) /\
  forall i, (1 <= i < Utilitybased.length (Utilitybased.snake g))%nat ->
    ~ (c.1 = Utilitybased.seg_x (Utilitybased.snake g) i /\
       c.2 = Utilitybased.seg_y (Utilitybased.snake g) i).

(** An edge of the free-cell graph: a move to an adjacent free cell. *)
Definition step (g : Utilitybased.Game) (a b : Utilitybased.Cell) : Prop :=
  adjacent a b /\ free_cell g b.

(** A cell sequence in which every cell after the first is reached by an
    edge. *)
Fixpoint walk (g : Utilitybased.Game) (p : list Utilitybased.Cell) : Prop :=
  match p with
  | a :: ((b :: _) as p') => step g a b /\ walk g p'
  | _ => True
  end.

(** [p] is a path from [s] to [t], both endpoints included. *)
Definition path_between (g : Utilitybased.Game) (s t : Utilitybased.Cell)
    (p : list Utilitybased.Cell) : Prop :=
  hd_error p = Some s /\ list.last p = Some t /\ walk g p.

Definition reachable (g : Utilitybased.Game) (s t : Utilitybased.Cell) : Prop :=
  exists p, path_between g s t p.

(** [reach g s k c]: [c] is the end of a path of [k] edges from [s]. *)
Inductive reach (g : Utilitybased.Game) (s : Utilitybased.Cell)
    : nat -> Utilitybased.Cell -> Prop :=
| reach_start : reach g s 0 s
| reach_step (k : nat) (u c : Utilitybased.Cell) :
    reach g s k u -> step g u c -> reach g s (S k) c.

(** The invariant of the search loop. The queue is [front ++ back]: the
    paths of [front] have [level] cells, those of [back] one more. Every
    queued path is a path of the graph, no shorter path leads to its end,
    every visited cell that has left the queue has all its neighbours
    visited, and every cell within [level - 1] edges of the start is
    visited. *)
Record bfs_inv (g : Utilitybased.Game) (s : Utilitybased.Cell) (level : nat)
    (front back : list Utilitybased.Entry) (visited : list Utilitybased.Cell)
    : Prop := {
  inv_level : (1 <= level)%nat;
  inv_front : Forall (fun e : Utilitybased.Entry => List.length e.2 = level) front;
  inv_back : Forall (fun e : Utilitybased.Entry => List.length e.2 = S level) back;
  inv_path : forall e : Utilitybased.Entry,
      In e (front ++ back) -> path_between g s e.1 e.2 /\ In e.1 visited;
  inv_min : forall (e : Utilitybased.Entry) k,
      In e (front ++ back) -> reach g s k e.1 -> (List.length e.2 <= S k)%nat;
  inv_closed : forall u,
      In u visited -> ~ In u (map fst (front ++ back)) ->
      forall n, step g u n -> In n visited;
  inv_near : forall k c, reach g s k c -> (S k <= level)%nat -> In c visited
}.

Definition queue_inv (g : Utilitybased.Game) (s : Utilitybased.Cell)
    (queue : list Utilitybased.Entry) (visited : list Utilitybased.Cell) : Prop :=
  exists level front back, queue = front ++ back /\ bfs_inv g s level front back visited.

(** The bookkeeping that bounds the number of passes: the visited cells are
    distinct cells of a finite [universe], the passes left cover the cells
    not yet visited and the queue, and a visited cell that has left the
    queue is not the goal. *)
Record bfs_count (goal : Utilitybased.Cell) (universe : list Utilitybased.Cell)
    (left : nat) (queue : list Utilitybased.Entry)
    (visited : list Utilitybased.Cell) : Prop := {
  cnt_nodup : NoDup visited;
  cnt_incl : incl visited universe;
  cnt_left : (List.length universe + List.length queue
              <= left + List.length visited)%nat;
  cnt_goal : forall u, In u visited -> ~ In u (map fst queue) -> u <> goal
}.

(** The cells of the grid that share the alignment of [s], and [s] itself:
    everything a search from [s] can visit. *)
Definition aligned_axis (r extent : Z) : list Z :=
  map (fun i => r mod SIZE + Z.of_nat i * SIZE)
      (seq 0 (Z.to_nat ((extent + SIZE - 1) / SIZE))).

Definition grid_universe (g : Utilitybased.Game) (s : Utilitybased.Cell)
    : list Utilitybased.Cell :=
  s :: list_prod (aligned_axis s.1 (Utilitybased.surface_width g))
                 (aligned_axis s.2 (Utilitybased.surface_height g)).

(** The number of blocks of the surface, a partial block counted as one. *)
Definition grid_blocks (g : Utilitybased.Game) : nat :=
  (Z.to_nat ((Utilitybased.surface_width g + SIZE - 1) / SIZE)
   * Z.to_nat ((Utilitybased.surface_height g + SIZE - 1) / SIZE))%nat.

(** A 10 by 10 grid with the head in one corner and the apple in the other,
    and a wall of body segments across the middle that leaves one gap. *)
Definition maze_game : Utilitybased.Game :=
  {| Utilitybased.surface_width := 400; Utilitybased.surface_height := 400;
     Utilitybased.snake :=
       {| Utilitybased.direction := Down; Utilitybased.length := 10;
          Utilitybased.x := [0; 0; 40; 80; 120; 160; 200; 240; 280; 320];
          Utilitybased.y := [0; 200; 200; 200; 200; 200; 200; 200; 200; 200] |};
     Utilitybased.apple := Utilitybased.place (Utilitybased.init_apple 400 400) 0 360 |}.

(** The offsets, in blocks, of the cells within [k] steps of a cell: the
    diamond [|i| + |j| <= k]. *)
Definition diamond_offsets (k : nat) : list (Z * Z) :=
  List.filter (fun o : Z * Z => Z.abs o.1 + Z.abs o.2 <=? Z.of_nat k)
    (list_prod (map (fun i => Z.of_nat i - Z.of_nat k) (seq 0 (2 * k + 1)))
               (map (fun i => Z.of_nat i - Z.of_nat k) (seq 0 (2 * k + 1)))).

(** The cells within [k] steps of [s] on an unbounded grid without
    obstacles. *)
Definition diamond (s : Utilitybased.Cell) (k : nat) : list Utilitybased.Cell :=
  map (fun o : Z * Z => (s.1 + o.1 * SIZE, s.2 + o.2 * SIZE)) (diamond_offsets k).

(** The game right after [Game.__init__] with the apple one block to the
    right of the head. *)
Definition near_apple_game : Utilitybased.Game :=
  {| Utilitybased.surface_width := 1000; Utilitybased.surface_height := 800;
     Utilitybased.snake := Utilitybased.init_snake;
     Utilitybased.apple := Utilitybased.place (Utilitybased.init_apple 1000 800) 80 40 |}.

(* ===================================================================== *)
(** * The simulation step and the remaining agents *)
(* ===================================================================== *)

(** ** The body of [Snake.walk], the same in every variant *)

Module Stepping.

(** [l[i] = v]: [IndexError] outside the list. *)
Definition set_item (l : list Z) (i : nat) (v : Z) : option (list Z) :=
  if decide (i < List.length l)%nat then Some (<[i := v]> l) else None.

(** The loop of [walk], from index [i] down to 1:
<<
    for i in range(self.length - 1, 0, -1):
        self.x[i] = self.x[i - 1]
        self.y[i] = self.y[i - 1]
>> *)
Fixpoint follow (i : nat) (xs ys : list Z) : option (list Z * list Z) :=
  match i with
  | O => Some (xs, ys)
  | S j =>
      vx ← xs !! j;
      xs' ← set_item xs (S j) vx;
      vy ← ys !! j;
      ys' ← set_item ys (S j) vy;
      follow j xs' ys'
  end.

(** The head update of [walk]:
<<
    if self.direction == "left": self.x[0] -= SIZE
    elif self.direction == "right": self.x[0] += SIZE
    elif self.direction == "up": self.y[0] -= SIZE
    elif self.direction == "down": self.y[0] += SIZE
>> *)
Definition advance (d : Direction) (xs ys : list Z) : option (list Z * list Z) :=
  match d with
  | Left => x0 ← xs !! 0%nat; xs' ← set_item xs 0 (x0 - SIZE); Some (xs', ys)
  | Right => x0 ← xs !! 0%nat; xs' ← set_item xs 0 (x0 + SIZE); Some (xs', ys)
  | Up => y0 ← ys !! 0%nat; ys' ← set_item ys 0 (y0 - SIZE); Some (xs, ys')
  | Down => y0 ← ys !! 0%nat; ys' ← set_item ys 0 (y0 + SIZE); Some (xs, ys')
  end.

(** [walk] on the two coordinate lists. *)
Definition walk_lists (d : Direction) (len : nat) (xs ys : list Z)
    : option (list Z * list Z) :=
  p ← follow (len - 1) xs ys;
  advance d p.1 p.2.

End Stepping.

(** ** Utilitybased.py: one step of the game *)

Module UtilitybasedGame.
Import Utilitybased.

(** [Snake.walk] (drawing left out). *)
Definition walk (s : Snake) : option Snake :=
  p ← Stepping.walk_lists (direction s) (length s) (x s) (y s);
  Some {| direction := direction s; length := length s; x := p.1; y := p.2 |}.

(** [Game.check_wall_collision]. *)
Definition check_wall_collision (g : Game) : bool :=
  let head_x := seg_x (snake g) 0 in
  let head_y := seg_y (snake g) 0 in
  if (head_x <? 0) || (surface_width g <=? head_x) ||
     (head_y <? 0) || (surface_height g <=? head_y)
  then true else false.

(** The game with the one field of [Game] that [play] changes besides the
    snake and the apple. *)
Record PlayState : Type := mkPlayState {
  game : Game;
  game_speed : Qc
}.

(** [Game.__init__]: [game_speed = 0.15]. *)
Definition initial_speed : Qc := Q2Qc (15 # 100).

(** The speed-up of [play] after an apple:
<<
    if self.snake.length % 3 == 0 and self.game_speed > 0.05:
        self.game_speed = max(0.05, self.game_speed - 0.02)
>> *)
Definition speed_after_apple (len : nat) (speed : Qc) : Qc :=
  if ((len mod 3 =? 0)%nat && bool_decide (Q2Qc (5 # 100) < speed)%Qc)
  then
    if decide (Q2Qc (5 # 100) < speed - Q2Qc (2 # 100))%Qc
    then (speed - Q2Qc (2 # 100))%Qc else Q2Qc (5 # 100)
  else speed.

(** The two exceptions [play] raises on purpose. *)
Inductive Crash : Type := SelfCollision | WallCollision.

(** [Game.play] (rendering, sound and clock left out). The outer option is
    an exception that is not meant ([IndexError], [ValueError]); inside, the
    state when [play] ends and the crash it raised, if any. [d1], [d2] are
    the draws [Apple.move] consumes. *)
Definition play (st : PlayState) (d1 d2 : nat) : option (PlayState * option Crash) :=
  let g := game st in
  s1 ← walk (snake g);
  grown ←
    (if is_collision (seg_x s1 0) (seg_y s1 0) (apple_x (apple g)) (apple_y (apple g))
     then
       s2 ← increase_length s1;
       a' ← move (apple g) (get_positions s2) d1 d2;
       Some (s2, a', speed_after_apple (length s2) (game_speed st))
     else Some (s1, apple g, game_speed st));
  let g' := {| surface_width := surface_width g; surface_height := surface_height g;
               snake := grown.1.1; apple := grown.1.2 |} in
  let st' := {| game := g'; game_speed := grown.2 |} in
  if self_collision g' then Some (st', Some SelfCollision)
  else if check_wall_collision g' then Some (st', Some WallCollision)
  else Some (st', None).

End UtilitybasedGame.

(** ** Modelbased.py: the model-based agent *)

(** [Apple], [Snake] and the collision tests of Modelbased.py are those of
    Utilitybased.py, and are shared here. *)
Module Modelbased.
Import Utilitybased.

(** [Game._get_wall_boundaries]:
<<
    for x in range(0, width, SIZE):
        for y in range(0, height, SIZE):
            if x < 0 or x >= width or y < 0 or y >= height:
                wall_coords.add((x, y))
>> *)
Definition get_wall_boundaries (g : Game) : gset Cell :=
  list_to_set
    (wx ← range_SIZE (surface_width g);
     wy ← range_SIZE (surface_height g);
     if (wx <? 0) || (surface_width g <=? wx) || (wy <? 0) || (surface_height g <=? wy)
     then [(wx, wy)] else []).

(** The dictionary [model] of [auto_control]. *)
Record Model : Type := mkModel {
  walls : gset Cell;
  snake_body : list Cell;
  model_apple : Cell
}.

Definition build_model (g : Game) : Model :=
  {| walls := get_wall_boundaries g;
     snake_body := tail (get_positions (snake g));
     model_apple := (apple_x (apple g), apple_y (apple g)) |}.

(** [Game._is_valid_move(pos, model)]. *)
Definition is_valid_move (g : Game) (pos : Cell) (model : Model) : bool :=
  if (pos.1 <? 0) || (surface_width g <=? pos.1) ||
     (pos.2 <? 0) || (surface_height g <=? pos.2)
  then false
  else if bool_decide (pos ∈ snake_body model) then false
  else true.

(** [Game._would_collide] of Modelbased.py: the body from index 3 on. *)
Definition would_collide (g : Game) (cx cy : Z) : bool :=
  if (cx <? 0) || (surface_width g <=? cx) || (cy <? 0) || (surface_height g <=? cy)
  then true
  else existsb (fun i => (cx =? seg_x (snake g) i) && (cy =? seg_y (snake g) i))
               (seq 3 (length (snake g) - 3)).

(** [possible_directions.items()], in insertion order. *)
Definition possible_directions (head_x head_y : Z) : list (Direction * Cell) :=
  [(Left, (head_x - SIZE, head_y)); (Right, (head_x + SIZE, head_y));
   (Up, (head_x, head_y - SIZE)); (Down, (head_x, head_y + SIZE))].

(** [min(safe_moves, key=lambda x: x[1])]: the first entry with the least
    distance. *)
Fixpoint min_from (best : Direction * Qc) (l : list (Direction * Qc)) : Direction * Qc :=
  match l with
  | [] => best
  | m :: l' => if decide (m.2 < best.2)%Qc then min_from m l' else min_from best l'
  end.

Section Agent.

(** [math.sqrt], idealised. *)
Variable math_sqrt : Qc -> Qc.

(** The list [safe_moves] of [auto_control]. *)
Definition safe_moves (g : Game) : list (Direction * Qc) :=
  let model := build_model g in
  omap (fun e : Direction * Cell =>
          if is_valid_move g e.2 model then
            Some (e.1,
                  math_sqrt (Qc_of_Z (((model_apple model).1 - e.2.1) ^ 2
                                      + ((model_apple model).2 - e.2.2) ^ 2)))
          else None)
       (possible_directions (seg_x (snake g) 0) (seg_y (snake g) 0)).

(** [Game.auto_control] of Modelbased.py: the heading handed to
    [_set_snake_direction], if any, and the game afterwards. *)
Definition auto_control (g : Game) : option Direction * Game :=
  match safe_moves g with
  | m :: l =>
      let best_direction := (min_from m l).1 in
      (Some best_direction, execute_move g best_direction)
  | [] => (None, g)
  end.

End Agent.

End Modelbased.

(** ** Learning.py: the state encoder and the learning tick *)

Module LearningGame.
Import Learning.

(** [class Apple] of Learning.py: the apple walks through a fixed list of
    30 positions. *)
Record Apple : Type := mkApple {
  apple_x : Z;
  apple_y : Z;
  x_list : list Z;
  y_list : list Z;
  count : nat
}.

Definition init_apple : Apple :=
  {| apple_x := 120; apple_y := 120;
     x_list := [320; 160; 680; 280; 400; 240; 960; 80; 40; 760; 720; 880; 400; 680; 480;
                480; 520; 160; 760; 480; 720; 360; 960; 160; 80; 400; 760; 680; 760; 800];
     y_list := [560; 40; 440; 280; 240; 560; 80; 200; 240; 80; 80; 520; 720; 360; 680;
                760; 680; 320; 80; 360; 720; 120; 280; 280; 320; 680; 320; 40; 520; 600];
     count := 0 |}.

(** Python [%] on ints: [ZeroDivisionError] on a zero divisor. *)
Definition py_mod (a b : nat) : option nat :=
  if decide (b = 0%nat) then None else Some (a mod b)%nat.

(** [Apple.move]:
<<
    self.x = self.x_list[self.count]
    self.y = self.y_list[self.count]
    self.count = (self.count + 1) % len(self.x_list)
>> *)
Definition move (a : Apple) : option Apple :=
  px ← x_list a !! count a;
  py ← y_list a !! count a;
  c ← py_mod (count a + 1) (List.length (x_list a));
  Some {| apple_x := px; apple_y := py;
          x_list := x_list a; y_list := y_list a; count := c |}.

(** [Snake.move_left] and the three others. *)
Definition set_direction (s : Snake) (d : Direction) : Snake :=
  {| direction := d; length := length s; x := x s; y := y s |}.

Definition move_left (s : Snake) : Snake :=
  if decide (direction s <> Right) then set_direction s Left else s.
Definition move_right (s : Snake) : Snake :=
  if decide (direction s <> Left) then set_direction s Right else s.
Definition move_up (s : Snake) : Snake :=
  if decide (direction s <> Down) then set_direction s Up else s.
Definition move_down (s : Snake) : Snake :=
  if decide (direction s <> Up) then set_direction s Down else s.

(** The [if action == "left": ... elif ...] of [learning_control]. *)
Definition apply_action (s : Snake) (action : Direction) : Snake :=
  match action with
  | Left => move_left s
  | Right => move_right s
  | Up => move_up s
  | Down => move_down s
  end.

(** [Snake.walk]. *)
Definition walk (s : Snake) : option Snake :=
  p ← Stepping.walk_lists (direction s) (length s) (x s) (y s);
  Some {| direction := direction s; length := length s; x := p.1; y := p.2 |}.

(** The dictionary [direction_map]. *)
Definition direction_map (d : Direction) : Z :=
  match d with
  | Left => 0
  | Right => 1
  | Up => 2
  | Down => 3
  end.

(** [QLearningAgent.get_state(snake, apple)]. *)
Definition get_state (s : Snake) (a : Apple) : State :=
  let head_x := seg_x s 0 in
  let head_y := seg_y s 0 in
  let dx := if head_x <? apple_x a then 1
            else if apple_x a <? head_x then -1 else 0 in
  let dy := if head_y <? apple_y a then 1
            else if apple_y a <? head_y then -1 else 0 in
  (dx, dy, direction_map (direction s)).

(** The fields of [class Game] of Learning.py that the learning tick reads
    and writes. *)
Record Game : Type := mkGame {
  surface_width : Z;
  surface_height : Z;
  snake : Snake;
  apple : Apple;
  agent : QLearningAgent;
  prev_state : option State;
  prev_action : option Direction
}.

(** [Game.check_wall_collision]. *)
Definition check_wall_collision (g : Game) : bool :=
  let head_x := seg_x (snake g) 0 in
  let head_y := seg_y (snake g) 0 in
  if (head_x <? 0) || (surface_width g <=? head_x) then true
  else if (head_y <? 0) || (surface_height g <=? head_y) then true
  else false.

(** [Game.play] (rendering left out): the snake and the apple afterwards,
    and the reward returned.
<<
    if self.is_collision(x[0], y[0], self.apple.x, self.apple.y):
        self.snake.increase_length()
        self.apple.move()
        return 10
    return 0
>> *)
Definition play (s : Snake) (a : Apple) : option (Snake * Apple * Z) :=
  s1 ← walk s;
  if is_collision (seg_x s1 0) (seg_y s1 0) (apple_x a) (apple_y a) then
    a' ← move a;
    Some (increase_length s1, a', 10)
  else Some (s1, a, 0).

(** [Game.learning_control]. The outer option is an exception that is not
    meant; inside, the game when the method ends and whether it raised
    "Collision Occurred". [rand] and [pick] are the draws of
    [choose_action]. A call of [learn] with [prev_state] or [prev_action]
    still [None] raises [ValueError] in [self.actions.index]. *)
Definition learning_control (g : Game) (rand : Qc) (pick : nat) : option (Game * bool) :=
  let state := get_state (snake g) (apple g) in
  action ← choose_action (agent g) rand pick state;
  let turned := apply_action (snake g) action in
  r ← play turned (apple g);
  let s' := r.1.1 in
  let a' := r.1.2 in
  let reward := r.2 in
  if self_collision s' ||
     check_wall_collision
       {| surface_width := surface_width g; surface_height := surface_height g;
          snake := s'; apple := a'; agent := agent g;
          prev_state := prev_state g; prev_action := prev_action g |}
  then
    ps ← prev_state g;
    pa ← prev_action g;
    ag' ← learn (agent g) ps pa (-10) None;
    Some ({| surface_width := surface_width g; surface_height := surface_height g;
             snake := s'; apple := a'; agent := ag';
             prev_state := prev_state g; prev_action := prev_action g |}, true)
  else
    ag' ← match prev_state g, prev_action g with
          | Some ps, Some pa => learn (agent g) ps pa reward (Some state)
          | _, _ => Some (agent g)
          end;
    Some ({| surface_width := surface_width g; surface_height := surface_height g;
             snake := s'; apple := a'; agent := ag';
             prev_state := Some state; prev_action := Some action |}, false).

End LearningGame.

(** A snake of two segments walking up the left wall, one block below the
    corner, the apple at its place of [Apple.__init__]. *)
Definition corner_walker : Utilitybased.Game :=
  {| Utilitybased.surface_width := 1000; Utilitybased.surface_height := 800;
     Utilitybased.snake :=
       {| Utilitybased.direction := Up; Utilitybased.length := 2;
          Utilitybased.x := [0; 0]; Utilitybased.y := [40; 80] |};
     Utilitybased.apple := std_apple |}.

(** The invariant of the flood-fill loop, for a start cell whose free region
    is listed in [region]: the count is the number of visited cells and
    stays within the cap, the visited cells are distinct cells of the
    region, no queue entry is deeper than the count, a free cell in the
    queue belongs to the region, every free neighbour of a visited cell is
    visited or queued, and so is the start. *)
Record flood_inv (g : Utilitybased.Game) (start : Utilitybased.Cell)
    (region : list Utilitybased.Cell) (max_depth : Z)
    (queue : list (Utilitybased.Cell * Z)) (visited : list Utilitybased.Cell)
    (count : Z) : Prop := {
  fl_count : count = Z.of_nat (List.length visited);
  fl_cap : count <= max_depth;
  fl_nodup : NoDup visited;
  fl_region : forall u, In u visited -> In u region;
  fl_depth : forall e : Utilitybased.Cell * Z, In e queue -> e.2 <= count;
  fl_queue : forall e : Utilitybased.Cell * Z,
      In e queue -> free_cell g e.1 -> In e.1 region;
  fl_closed : forall u n,
      In u visited -> step g u n -> In n visited \/ In n (map fst queue);
  fl_start : In start visited \/ In start (map fst queue)
}.

(** A surface of two blocks, one above the other, with a one-segment
    snake. *)
Definition two_cell_game : Utilitybased.Game :=
  {| Utilitybased.surface_width := 40; Utilitybased.surface_height := 80;
     Utilitybased.snake :=
       {| Utilitybased.direction := Down; Utilitybased.length := 1;
          Utilitybased.x := [0]; Utilitybased.y := [0] |};
     Utilitybased.apple := Utilitybased.init_apple 40 80 |}.

(** ** Definitions for the facts on the agents *)

(** The distance that [auto_control] of Modelbased.py attaches to a cell:
    [math.sqrt((apple_x - nx) ** 2 + (apple_y - ny) ** 2)]. *)
Definition model_distance (math_sqrt : Qc -> Qc) (g : Utilitybased.Game)
    (c : Utilitybased.Cell) : Qc :=
  math_sqrt (Qc_of_Z ((Utilitybased.apple_x (Utilitybased.apple g) - c.1) ^ 2
                      + (Utilitybased.apple_y (Utilitybased.apple g) - c.2) ^ 2)).

(** ** Learning.py: a round of the game *)

(** The apple keeps its two lists equally long and its counter inside
    them. *)
Definition learning_apple_wf (a : LearningGame.Apple) : Prop :=
  List.length (LearningGame.x_list a) = List.length (LearningGame.y_list a) /\
  (LearningGame.count a < List.length (LearningGame.x_list a))%nat.

(** [Apple.move], [k] times in a row. *)
Fixpoint move_times (k : nat) (a : LearningGame.Apple) : option LearningGame.Apple :=
  match k with
  | O => Some a
  | S k' => a' ← LearningGame.move a; move_times k' a'
  end.

(** What a round keeps true from tick to tick: the snake and the apple are
    well formed, every stored vector has one entry per action, there is an
    action to choose, and [prev_state] and [prev_action] are set together,
    the latter to one of the agent's actions. *)
Definition learning_game_wf (g : LearningGame.Game) : Prop :=
  Learning.snake_wf (LearningGame.snake g) /\
  learning_apple_wf (LearningGame.apple g) /\
  Learning.table_wf (LearningGame.agent g) /\
  Learning.actions (LearningGame.agent g) <> [] /\
  match LearningGame.prev_state g, LearningGame.prev_action g with
  | Some _, Some pa => In pa (Learning.actions (LearningGame.agent g))
  | None, None => True
  | _, _ => False
  end.

(** [Game.__init__] and [Game.reset] of Learning.py: a new snake and a new
    apple on the 1000 by 800 surface, nothing remembered from the last
    tick; the agent is kept. *)
Definition reset_game (ag : Learning.QLearningAgent) : LearningGame.Game :=
  {| LearningGame.surface_width := 1000; LearningGame.surface_height := 800;
     LearningGame.snake := Learning.init_snake;
     LearningGame.apple := LearningGame.init_apple;
     LearningGame.agent := ag;
     LearningGame.prev_state := None;
     LearningGame.prev_action := None |}.

(** The body of [Game.run] between a reset and the next game over, key
    presses left out: one [learning_control] per turn of the loop until one
    raises, after which the loop pauses.
<<
    if not pause:
        try:
            self.learning_control()
        except Exception as e:
            self.show_game_over(str(e))
            pause = True
>>
    [draws] holds the random draws of the successive ticks. The result is
    the game when the draws are used up or the round is over, and whether
    "Collision Occurred" was raised; [None] is any other exception. *)
Fixpoint run_ticks (g : LearningGame.Game) (draws : list (Qc * nat))
    : option (LearningGame.Game * bool) :=
  match draws with
  | [] => Some (g, false)
  | d :: rest =>
      match LearningGame.learning_control g d.1 d.2 with
      | None => None
      | Some (g', true) => Some (g', true)
      | Some (g', false) => run_ticks g' rest
      end
  end.

(** The states [get_state] can return: a sign for each axis and one of the
    four heading codes. *)
Definition state_space : list Learning.State :=
  dx ← [-1; 0; 1]; dy ← [-1; 0; 1]; code ← [0; 1; 2; 3]; [(dx, dy, code)].

(** An agent that knows two actions only. *)
Definition two_action_agent : Learning.QLearningAgent :=
  {| Learning.q_table := ∅;
     Learning.actions := [Left; Right];
     Learning.lr := Q2Qc (1 # 10);
     Learning.gamma := Q2Qc (9 # 10);
     Learning.epsilon := Q2Qc (2 # 10) |}.

(** ** Utilitybased.py and Modelbased.py: the main loop *)

(** The body of [Game.run], the same in both files, between a reset and the
    next game over, key presses left out:
<<
    if not pause:
        self.auto_control()
    try:
        if not pause:
            self.play()
    except Exception as e:
        self.show_game_over()
        pause = True
    clock.tick(int(1 / self.game_speed))
>>
    [control] is the [auto_control] of the file. [draws] holds, tick by
    tick, the draws that [Apple.move] consumes. The result is the state when
    the draws are used up or the round is over, and the crash that ended it.
    [None] is any exception other than the two crashes of [play]: one that
    [auto_control] or [1 / self.game_speed] raises outside the [try], or one
    that the blanket [except] would take for a crash. *)
Fixpoint run_loop (control : Utilitybased.Game -> option Utilitybased.Game)
    (st : UtilitybasedGame.PlayState) (draws : list (nat * nat))
    : option (UtilitybasedGame.PlayState * option UtilitybasedGame.Crash) :=
  match draws with
  | [] => Some (st, None)
  | d :: rest =>
      g1 ← control (UtilitybasedGame.game st);
      r ← UtilitybasedGame.play
             {| UtilitybasedGame.game := g1;
                UtilitybasedGame.game_speed := UtilitybasedGame.game_speed st |} d.1 d.2;
      _ ← truediv (Q2Qc 1) (UtilitybasedGame.game_speed r.1);
      match r.2 with
      | Some c => Some (r.1, Some c)
      | None => run_loop control r.1 rest
      end
  end.

(** The game that [auto_control] leaves, in Utilitybased.py and in
    Modelbased.py. *)
Definition utility_control (math_sqrt : Qc -> Qc) (g : Utilitybased.Game)
    : option Utilitybased.Game :=
  r ← Utilitybased.auto_control math_sqrt g; Some r.2.

Definition model_control (math_sqrt : Qc -> Qc) (g : Utilitybased.Game)
    : option Utilitybased.Game :=
  Some (Modelbased.auto_control math_sqrt g).2.

(** The state right after [Game.__init__] or [Game.reset]. *)
Definition start_state : UtilitybasedGame.PlayState :=
  {| UtilitybasedGame.game := start_game;
     UtilitybasedGame.game_speed := UtilitybasedGame.initial_speed |}.

(** What the loop keeps true: the snake is well formed, the grid of the
    apple has a cell, and the speed lies between 0.05 and 0.15. *)
Definition play_state_wf (st : UtilitybasedGame.PlayState) : Prop :=
  Utilitybased.snake_wf (Utilitybased.snake (UtilitybasedGame.game st)) /\
  1 <= Utilitybased.grid_width (Utilitybased.apple (UtilitybasedGame.game st)) /\
  1 <= Utilitybased.grid_height (Utilitybased.apple (UtilitybasedGame.game st)) /\
  (Q2Qc (5 # 100) <= UtilitybasedGame.game_speed st)%Qc /\
  (UtilitybasedGame.game_speed st <= UtilitybasedGame.initial_speed)%Qc.

(* ===================================================================== *)
(** * Growth of the snake *)
(* ===================================================================== *)

Lemma init_snake_wf : Utilitybased.snake_wf Utilitybased.init_snake.
Proof. repeat split; simpl; lia. Qed.

Lemma learning_init_snake_wf : Learning.snake_wf Learning.init_snake.
Proof. repeat split; simpl; lia. Qed.

Lemma last_nth (l : list Z) :
  l <> [] -> list.last l = Some (nth (List.length l - 1) l 0).
Proof.
  induction l as [|a l IH]; [done|]. intros _.
  destruct l as [|b l]; [done|].
  change (list.last (a :: b :: l)) with (list.last (b :: l)).
  rewrite IH by done. simpl. by rewrite Nat.sub_0_r.
Qed.

Lemma nonempty_of_length (l : list Z) (n : nat) :
  List.length l = n -> (1 <= n)%nat -> l <> [].
Proof. intros Hl Hn ->. simpl in Hl. lia. Qed.

(** C8, counterexample: in Learning.py the segment added to the initial snake
    is the placeholder (-1,-1), not a copy of the tail (40,40). *)
Lemma increase_length_learning_not_tail :
  let s := Learning.init_snake in
  let s' := Learning.increase_length s in
  (Learning.seg_x s' (Learning.length s), Learning.seg_y s' (Learning.length s))
  <> (Learning.seg_x s (Learning.length s - 1), Learning.seg_y s (Learning.length s - 1)).
Proof. vm_compute. discriminate. Qed.

(** C8, amended: [increase_length] raises the length by exactly one, appends
    exactly one segment and leaves every existing segment unchanged; the new
    segment coincides with the current tail in Utilitybased.py and
    Modelbased.py, and is the placeholder (-1,-1) in Learning.py and
    Learning2.py. *)
Theorem increase_length_appends_segment
    (su : Utilitybased.Snake) (sl : Learning.Snake) :
  Utilitybased.snake_wf su ->
  Learning.snake_wf sl ->
  (exists su',
      Utilitybased.increase_length su = Some su' /\
      Utilitybased.length su' = S (Utilitybased.length su) /\
      Utilitybased.direction su' = Utilitybased.direction su /\
      Utilitybased.snake_wf su' /\
      (forall i, (i < Utilitybased.length su)%nat ->
         Utilitybased.seg_x su' i = Utilitybased.seg_x su i /\
         Utilitybased.seg_y su' i = Utilitybased.seg_y su i) /\
      Utilitybased.seg_x su' (Utilitybased.length su)
        = Utilitybased.seg_x su (Utilitybased.length su - 1) /\
      Utilitybased.seg_y su' (Utilitybased.length su)
        = Utilitybased.seg_y su (Utilitybased.length su - 1))
  /\
  (let sl' := Learning.increase_length sl in
   Learning.length sl' = S (Learning.length sl) /\
   Learning.direction sl' = Learning.direction sl /\
   Learning.snake_wf sl' /\
   (forall i, (i < Learning.length sl)%nat ->
      Learning.seg_x sl' i = Learning.seg_x sl i /\
      Learning.seg_y sl' i = Learning.seg_y sl i) /\
   Learning.seg_x sl' (Learning.length sl) = -1 /\
   Learning.seg_y sl' (Learning.length sl) = -1).
Proof.
  intros (Hu1 & Hux & Huy) (Hl1 & Hlx & Hly). split.
  - unfold Utilitybased.increase_length.
    rewrite (last_nth (Utilitybased.x su)), (last_nth (Utilitybased.y su))
      by (eapply nonempty_of_length; eauto).
    rewrite Hux, Huy. eexists. split; [reflexivity|]. simpl.
    unfold Utilitybased.snake_wf, Utilitybased.seg_x, Utilitybased.seg_y. simpl.
    rewrite !length_app, Hux, Huy. simpl.
    repeat split; try lia.
    + rewrite app_nth1 by lia. done.
    + rewrite app_nth1 by lia. done.
    + rewrite app_nth2 by lia. by rewrite Hux, Nat.sub_diag.
    + rewrite app_nth2 by lia. by rewrite Huy, Nat.sub_diag.
  - unfold Learning.increase_length, Learning.snake_wf, Learning.seg_x, Learning.seg_y.
    simpl. rewrite !length_app, Hlx, Hly. simpl.
    repeat split; try lia.
    + rewrite app_nth1 by lia. done.
    + rewrite app_nth1 by lia. done.
    + rewrite app_nth2 by lia. by rewrite Hlx, Nat.sub_diag.
    + rewrite app_nth2 by lia. by rewrite Hly, Nat.sub_diag.
Qed.

(* ===================================================================== *)
(** * The terminal self-collision test *)
(* ===================================================================== *)

Lemma existsb_seq (f : nat -> bool) (a n : nat) :
  existsb f (seq a n) = true <-> exists i, (a <= i < a + n)%nat /\ f i = true.
Proof.
  rewrite existsb_exists. split.
  - intros (i & Hi & Hf). apply in_seq in Hi. eauto.
  - intros (i & Hi & Hf). exists i. split; [by apply in_seq|done].
Qed.

Lemma utility_is_collision_eq (x1 y1 x2 y2 : Z) :
  Utilitybased.is_collision x1 y1 x2 y2 = true <-> x1 = x2 /\ y1 = y2.
Proof. unfold Utilitybased.is_collision. rewrite andb_true_iff, !Z.eqb_eq. done. Qed.

(** On the grid, where every coordinate is a multiple of [SIZE], the square
    test of Learning.py is equality of positions. *)
Lemma learning_is_collision_aligned (a b c d : Z) :
  Learning.is_collision (a * SIZE) (b * SIZE) (c * SIZE) (d * SIZE) = true
  <-> a = c /\ b = d.
Proof.
  unfold Learning.is_collision, SIZE.
  destruct (Z.leb_spec (c * 40) (a * 40)), (Z.ltb_spec (a * 40) (c * 40 + 40)),
    (Z.leb_spec (d * 40) (b * 40)), (Z.ltb_spec (b * 40) (d * 40 + 40));
    simpl; split; try discriminate; intros; try lia.
Qed.

(** C10: the self-collision test skips the segments right behind the head.
    In Utilitybased.py it is false below length 4 and true exactly when the
    head coincides with a segment of index 4 or more, so a head that meets
    only segments 1 to 3 is not reported. In Learning.py it is false below
    length 4 and true exactly when the head hits (by the variant's own
    [is_collision]) a segment of index 3 or more, so a head that meets only
    segments 1 to 2 is not reported. *)
Theorem self_collision_skips_near_segments
    (g : Utilitybased.Game) (sl : Learning.Snake) :
  let su := Utilitybased.snake g in
  ((Utilitybased.length su < 4)%nat -> Utilitybased.self_collision g = false) /\
  (Utilitybased.self_collision g = true <->
     exists i, (4 <= i < Utilitybased.length su)%nat /\
       Utilitybased.seg_x su 0 = Utilitybased.seg_x su i /\
       Utilitybased.seg_y su 0 = Utilitybased.seg_y su i) /\
  ((forall i, (4 <= i < Utilitybased.length su)%nat ->
       ~ (Utilitybased.seg_x su 0 = Utilitybased.seg_x su i /\
          Utilitybased.seg_y su 0 = Utilitybased.seg_y su i)) ->
     Utilitybased.self_collision g = false) /\
  ((Learning.length sl < 4)%nat -> Learning.self_collision sl = false) /\
  (Learning.self_collision sl = true <->
     exists i, (3 <= i < Learning.length sl)%nat /\
       Learning.is_collision (Learning.seg_x sl 0) (Learning.seg_y sl 0)
                             (Learning.seg_x sl i) (Learning.seg_y sl i) = true) /\
  ((forall i, (3 <= i < Learning.length sl)%nat ->
       Learning.is_collision (Learning.seg_x sl 0) (Learning.seg_y sl 0)
                             (Learning.seg_x sl i) (Learning.seg_y sl i) = false) ->
     Learning.self_collision sl = false).
Proof.
  intros su.
  assert (HU : Utilitybased.self_collision g = true <->
     exists i, (4 <= i < Utilitybased.length su)%nat /\
       Utilitybased.seg_x su 0 = Utilitybased.seg_x su i /\
       Utilitybased.seg_y su 0 = Utilitybased.seg_y su i).
  { unfold Utilitybased.self_collision. fold su.
    destruct (Nat.ltb_spec (Utilitybased.length su) 4) as [Hlt|Hge].
    - split; [discriminate|]. intros (i & Hi & _). lia.
    - rewrite existsb_seq. split.
      + intros (i & Hi & Hc). apply utility_is_collision_eq in Hc.
        exists i. split; [lia|done].
      + intros (i & Hi & Hc). exists i. split; [lia|].
        by apply utility_is_collision_eq. }
  assert (HL : Learning.self_collision sl = true <->
     exists i, (3 <= i < Learning.length sl)%nat /\
       Learning.is_collision (Learning.seg_x sl 0) (Learning.seg_y sl 0)
                             (Learning.seg_x sl i) (Learning.seg_y sl i) = true).
  { unfold Learning.self_collision. rewrite existsb_seq. split.
    - intros (i & Hi & Hc). exists i. split; [lia|done].
    - intros (i & Hi & Hc). exists i. split; [lia|done]. }
  repeat split.
  - intros Hlt. apply not_true_is_false. rewrite HU. intros (i & Hi & _). lia.
  - apply HU.
  - apply HU.
  - intros Hno. apply not_true_is_false. rewrite HU. intros (i & Hi & Hc).
    by apply (Hno i).
  - intros Hlt. apply not_true_is_false. rewrite HL. intros (i & Hi & _). lia.
  - apply HL.
  - apply HL.
  - intros Hno. apply not_true_is_false. rewrite HL. intros (i & Hi & Hc).
    rewrite (Hno i Hi) in Hc. discriminate.
Qed.

Lemma increase_length_appends_segment_witness :
  exists su',
    Utilitybased.increase_length Utilitybased.init_snake = Some su' /\
    Utilitybased.length su' = 2%nat /\
    Utilitybased.seg_x su' 1 = 40 /\ Utilitybased.seg_y su' 1 = 40 /\
    Learning.seg_x (Learning.increase_length Learning.init_snake) 1 = -1.
Proof.
  destruct (increase_length_appends_segment
              Utilitybased.init_snake Learning.init_snake)
    as ((su' & Hs & Hlen & _ & _ & _ & Hx & Hy) & (_ & _ & _ & _ & Hlx & _)).
  - repeat split; simpl; lia.
  - repeat split; simpl; lia.
  - exists su'. repeat split; assumption.
Defined.

Lemma self_collision_skips_near_segments_witness :
  Utilitybased.self_collision coiled_game = false /\
  Learning.self_collision coiled_learning_snake = true.
Proof.
  destruct (self_collision_skips_near_segments coiled_game coiled_learning_snake)
    as (_ & _ & Hu & _ & Hl & _).
  split.
  - apply Hu. intros i Hi. assert (i = 4%nat) as -> by (simpl in Hi; lia).
    vm_compute. intros [_ H]. discriminate H.
  - apply Hl. exists 3%nat. split; [simpl; lia|reflexivity].
Defined.

(* ===================================================================== *)
(** * The Q-learning update *)
(* ===================================================================== *)

Section LearningFacts.
Import Learning.

Implicit Types (q : gmap State (list Qc)) (s : State) (row : list Qc).

Lemma lookup_np_zeros (n j : nat) : default (Q2Qc 0) (np_zeros n !! j) = Q2Qc 0.
Proof.
  unfold np_zeros. destruct (replicate n (Q2Qc 0) !! j) as [v|] eqn:E; [|done].
  apply lookup_replicate in E as [-> _]. done.
Qed.

Lemma q_value_ensure n s q s2 j : q_value (ensure n s q) s2 j = q_value q s2 j.
Proof.
  unfold ensure, q_value. destruct (q !! s) eqn:E; [done|].
  destruct (decide (s = s2)) as [<-|Hne].
  - rewrite lookup_insert_eq, E. apply lookup_np_zeros.
  - by rewrite lookup_insert_ne.
Qed.

Lemma q_value_ensure_next n next q s2 j :
  q_value (ensure_next n next q) s2 j = q_value q s2 j.
Proof. destruct next; [apply q_value_ensure|done]. Qed.

Lemma ensure_lookup n s q : exists row, ensure n s q !! s = Some row.
Proof.
  unfold ensure. destruct (q !! s) eqn:E; [by eauto|].
  rewrite lookup_insert_eq. eauto.
Qed.

Lemma ensure_keeps n s q s2 row : q !! s2 = Some row -> ensure n s q !! s2 = Some row.
Proof.
  unfold ensure. intros H. destruct (q !! s) eqn:E; [done|].
  rewrite lookup_insert_ne; [done|]. intros ->. congruence.
Qed.

Lemma ensure_next_keeps n next q s2 row :
  q !! s2 = Some row -> ensure_next n next q !! s2 = Some row.
Proof. destruct next; [apply ensure_keeps|done]. Qed.

Lemma ensure_rows n s q :
  (forall s2 row, q !! s2 = Some row -> List.length row = n) ->
  forall s2 row, ensure n s q !! s2 = Some row -> List.length row = n.
Proof.
  intros Hwf s2 row. unfold ensure. destruct (q !! s) eqn:E; [apply Hwf|].
  destruct (decide (s = s2)) as [<-|Hne].
  - rewrite lookup_insert_eq. intros [= <-]. apply length_replicate.
  - rewrite lookup_insert_ne by done. apply Hwf.
Qed.

Lemma ensure_next_rows n next q :
  (forall s2 row, q !! s2 = Some row -> List.length row = n) ->
  forall s2 row, ensure_next n next q !! s2 = Some row -> List.length row = n.
Proof. destruct next; [apply ensure_rows|done]. Qed.


Lemma index_of_Some (a : Direction) (l : list Direction) :
  In a l -> exists i, index_of a l = Some i /\ l !! i = Some a /\ (i < List.length l)%nat.
Proof.
  induction l as [|b l IH]; [done|]. intros Hin. simpl.
  destruct (decide (a = b)) as [->|Hne].
  - exists 0%nat. simpl. repeat split; lia.
  - destruct Hin as [->|Hin]; [done|].
    destruct (IH Hin) as (i & Hi & Hl & Hlt). exists (S i).
    rewrite Hi. simpl. repeat split; [done|lia].
Qed.

Lemma Qc_max_l (a b : Qc) : (a <= Qc_max a b)%Qc.
Proof.
  unfold Qc_max. destruct (decide (a < b)%Qc); [by apply Qclt_le_weak|apply Qcle_refl].
Qed.

Lemma Qc_max_r (a b : Qc) : (b <= Qc_max a b)%Qc.
Proof.
  unfold Qc_max. destruct (decide (a < b)%Qc) as [|Hn]; [apply Qcle_refl|].
  by apply Qcnot_lt_le.
Qed.

Lemma Qc_max_cases (a b : Qc) : Qc_max a b = a \/ Qc_max a b = b.
Proof. unfold Qc_max. destruct (decide (a < b)%Qc); auto. Qed.

Lemma fold_max_bound (r : list Qc) (a : Qc) :
  (a <= fold_left Qc_max r a)%Qc /\
  (forall v, In v r -> v <= fold_left Qc_max r a)%Qc /\
  In (fold_left Qc_max r a) (a :: r).
Proof.
  revert a. induction r as [|b r IH]; intros a; simpl.
  - split; [apply Qcle_refl|]. split; [done|auto].
  - destruct (IH (Qc_max a b)) as (H1 & H2 & H3). split; [|split].
    + eapply Qcle_trans; [apply Qc_max_l|exact H1].
    + intros v [<-|Hv]; [|by apply H2].
      eapply Qcle_trans; [apply Qc_max_r|exact H1].
    + destruct H3 as [H3|H3]; [|by auto].
      destruct (Qc_max_cases a b) as [E|E]; rewrite E in *; auto.
Qed.

(** [np.max] returns an entry of the array that bounds every entry. *)
Lemma np_max_spec row :
  row <> [] ->
  exists m, np_max row = Some m /\ In m row /\ forall v, In v row -> (v <= m)%Qc.
Proof.
  destruct row as [|a r]; [done|]. intros _. simpl.
  destruct (fold_max_bound r a) as (H1 & H2 & H3).
  eexists. split; [reflexivity|]. split; [exact H3|].
  intros v [<-|Hv]; auto.
Qed.

Lemma q_value_row q s row j :
  q !! s = Some row -> q_value q s j = default (Q2Qc 0) (row !! j).
Proof. unfold q_value. by intros ->. Qed.

(** C5: for a well-formed table, one of the agent's actions and a reward
    that Python converts to a float, [learn] returns, changes no entry other
    than Q[s][a] (an absent state reading as the zero vector), and moves
    Q[s][a] by exactly lr * (r + gamma * max_a' Q[s'][a'] - Q[s][a]) when
    there is a next state and by lr * (r - Q[s][a]) on a terminal
    transition, where no next-state value enters. All values on the right
    are those before the call. Outside the float range the code raises
    [OverflowError], and nothing is said. *)
Theorem learn_update_rule
    (ag : QLearningAgent) (s : State) (a : Direction) (r : Z) (next : option State) :
  table_wf ag ->
  In a (actions ag) ->
  in_float_range r ->
  exists (i : nat) (ag' : QLearningAgent),
    index_of a (actions ag) = Some i /\
    actions ag !! i = Some a /\
    learn ag s a r next = Some ag' /\
    (forall s2 j, (s2, j) <> (s, i) ->
       q_value (q_table ag') s2 j = q_value (q_table ag) s2 j) /\
    match next with
    | None =>
        q_value (q_table ag') s i
        = (q_value (q_table ag) s i
           + lr ag * (Qc_of_Z r - q_value (q_table ag) s i))%Qc
    | Some s' =>
        exists m : Qc,
          (forall j, (j < List.length (actions ag))%nat ->
             (q_value (q_table ag) s' j <= m)%Qc) /\
          (exists j, (j < List.length (actions ag))%nat /\
             q_value (q_table ag) s' j = m) /\
          q_value (q_table ag') s i
          = (q_value (q_table ag) s i
             + lr ag * (Qc_of_Z r + gamma ag * m - q_value (q_table ag) s i))%Qc
    end.
Proof.
  intros Hwf Hin _.
  destruct (index_of_Some a (actions ag) Hin) as (i & Hi & Hai & Hlt).
  set (n := List.length (actions ag)) in *.
  set (q1 := ensure n s (q_table ag)).
  set (q2 := ensure_next n next q1).
  assert (Hrows : forall s2 row, q2 !! s2 = Some row -> List.length row = n).
  { apply ensure_next_rows, ensure_rows. exact Hwf. }
  assert (HQ : forall s2 j, q_value q2 s2 j = q_value (q_table ag) s2 j).
  { intros. unfold q2, q1. by rewrite q_value_ensure_next, q_value_ensure. }
  destruct (ensure_lookup n s (q_table ag)) as (row0 & Hrow0).
  assert (Hrow : q2 !! s = Some row0) by (by apply ensure_next_keeps).
  assert (Hlen : List.length row0 = n) by (eapply Hrows; eauto).
  destruct (lookup_lt_is_Some_2 row0 i) as (predict & Hp); [lia|].
  assert (HQs : q_value (q_table ag) s i = predict).
  { rewrite <- HQ. rewrite (q_value_row _ _ _ _ Hrow), Hp. done. }
  (* the table after the in-place update *)
  assert (Hfinal : forall t,
    let q' := <[s := <[i := t]> row0]> q2 in
    q_value q' s i = t /\
    forall s2 j, (s2, j) <> (s, i) -> q_value q' s2 j = q_value (q_table ag) s2 j).
  { intros t q'. split.
    - unfold q', q_value. rewrite lookup_insert_eq, list_lookup_insert_eq by lia. done.
    - intros s2 j Hne. rewrite <- HQ. unfold q', q_value.
      destruct (decide (s = s2)) as [<-|Hs].
      + rewrite lookup_insert_eq, Hrow.
        rewrite list_lookup_insert_ne; [done|]. intros ->. by apply Hne.
      + by rewrite lookup_insert_ne. }
  destruct next as [s'|].
  - (* a next state *)
    destruct (ensure_lookup n s' q1) as (row' & Hrow').
    change (ensure n s' q1) with q2 in Hrow'.
    assert (Hlen' : List.length row' = n) by (eapply Hrows; eauto).
    destruct (np_max_spec row') as (m & Hm & Hmin & Hmax).
    { intros ->. simpl in Hlen'. lia. }
    destruct (Hfinal (predict + lr ag * (Qc_of_Z r + gamma ag * m - predict))%Qc)
      as (Hv & Hrest).
    exists i, (with_table ag
      (<[s := <[i := (predict + lr ag * (Qc_of_Z r + gamma ag * m - predict))%Qc]> row0]> q2)).
    split; [done|]. split; [done|]. split.
    { unfold learn. fold n q1. change (ensure n s' q1) with q2.
      cbn [ensure_next]. change (ensure n s' q1) with q2.
      rewrite Hi. simpl. rewrite Hrow. simpl. rewrite Hp. simpl.
      unfold target_of. rewrite Hrow'. simpl. rewrite Hm. simpl. reflexivity. }
    split; [exact Hrest|].
    exists m. split; [|split].
    + intros j Hj. rewrite <- HQ, (q_value_row _ _ _ _ Hrow').
      destruct (lookup_lt_is_Some_2 row' j) as (v & Hvj); [lia|].
      rewrite Hvj. simpl. apply Hmax.
      apply list_elem_of_In, list_elem_of_lookup. eauto.
    + apply list_elem_of_In, list_elem_of_lookup in Hmin as (j & Hj).
      exists j. split.
      * apply lookup_lt_Some in Hj. lia.
      * by rewrite <- HQ, (q_value_row _ _ _ _ Hrow'), Hj.
    + cbn [q_table with_table]. rewrite Hv, HQs. done.
  - (* a terminal transition *)
    destruct (Hfinal (predict + lr ag * (Qc_of_Z r - predict))%Qc) as (Hv & Hrest).
    exists i, (with_table ag
      (<[s := <[i := (predict + lr ag * (Qc_of_Z r - predict))%Qc]> row0]> q2)).
    split; [done|]. split; [done|]. split.
    { unfold learn. fold n q1. cbn [ensure_next].
      rewrite Hi. simpl. change (q1 !! s) with (q2 !! s).
      rewrite Hrow. simpl. rewrite Hp. simpl. reflexivity. }
    split; [exact Hrest|].
    cbn [q_table with_table]. rewrite Hv, HQs. done.
Qed.

(** ** A learning rate of zero *)





(** ** Choosing an action *)

Lemma argmax_from_spec (r pre : list Qc) (b : Qc) (bi : nat) :
  pre !! bi = Some b ->
  (forall j v, pre !! j = Some v -> (v <= b)%Qc) ->
  (forall j v, (j < bi)%nat -> pre !! j = Some v -> (v < b)%Qc) ->
  exists vk,
    (pre ++ r) !! argmax_from bi b (List.length pre) r = Some vk /\
    (forall j v, (pre ++ r) !! j = Some v -> (v <= vk)%Qc) /\
    (forall j v, (j < argmax_from bi b (List.length pre) r)%nat ->
       (pre ++ r) !! j = Some v -> (v < vk)%Qc).
Proof.
  revert pre b bi. induction r as [|a r IH]; intros pre b bi Hb Hle Hlt.
  - simpl. rewrite app_nil_r. eauto.
  - replace (pre ++ a :: r) with ((pre ++ [a]) ++ r) by (by rewrite <- app_assoc).
    simpl. replace (S (List.length pre)) with (List.length (pre ++ [a]))
      by (rewrite length_app; simpl; lia).
    destruct (decide (b < a)%Qc) as [Hba|Hba].
    + apply IH.
      * rewrite lookup_app_r by lia. by rewrite Nat.sub_diag.
      * intros j v Hj. apply lookup_app_Some in Hj as [Hj|[_ Hj]].
        -- apply Qclt_le_weak. eapply Qcle_lt_trans; [by eapply Hle|done].
        -- apply list_lookup_singleton_Some in Hj as [_ <-]. apply Qcle_refl.
      * intros j v Hjl Hj. rewrite lookup_app_l in Hj by lia.
        eapply Qcle_lt_trans; [by eapply Hle|done].
    + apply Qcnot_lt_le in Hba. apply IH.
      * apply lookup_lt_Some in Hb as Hbl. by rewrite lookup_app_l.
      * intros j v Hj. apply lookup_app_Some in Hj as [Hj|[_ Hj]].
        -- by eapply Hle.
        -- by apply list_lookup_singleton_Some in Hj as [_ <-].
      * intros j v Hjl Hj. apply lookup_lt_Some in Hb as Hbl.
        rewrite lookup_app_l in Hj by lia. by eapply Hlt.
Qed.

(** [np.argmax] returns the first index that holds the greatest entry. *)
Lemma np_argmax_spec (row : list Qc) :
  row <> [] ->
  exists k vk,
    np_argmax row = Some k /\ row !! k = Some vk /\
    (forall j v, row !! j = Some v -> (v <= vk)%Qc) /\
    (forall j v, (j < k)%nat -> row !! j = Some v -> (v < vk)%Qc).
Proof.
  destruct row as [|a r]; [done|]. intros _.
  destruct (argmax_from_spec r [a] a 0) as (vk & H1 & H2 & H3).
  - done.
  - intros j v Hj. apply list_lookup_singleton_Some in Hj as [_ <-]. apply Qcle_refl.
  - intros; lia.
  - exists (argmax_from 0 a 1 r), vk. simpl in *. eauto.
Qed.

Lemma argmax_from_zeros (n bi i : nat) :
  argmax_from bi (Q2Qc 0) i (replicate n (Q2Qc 0)) = bi.
Proof.
  revert i. induction n as [|n IH]; intros i; [done|].
  cbn [replicate argmax_from].
  rewrite decide_False; [apply IH|]. apply Qcle_not_lt, Qcle_refl.
Qed.

Lemma greedy_agent_wf_empty : table_wf (greedy_agent ∅).
Proof. intros s row H. simpl in H. by rewrite lookup_empty in H. Qed.

(** C6, counterexample: with [epsilon = 0] and a state that is not in the
    table, the action is whatever [np.random.choice] draws: two calls on the
    same unseen state return different actions. *)
Lemma choose_action_unseen_not_deterministic :
  epsilon (greedy_agent ∅) = Q2Qc 0 /\
  q_table (greedy_agent ∅) !! first_state = None /\
  choose_action (greedy_agent ∅) (Q2Qc 0) 0 first_state = Some Left /\
  choose_action (greedy_agent ∅) (Q2Qc 0) 1 first_state = Some Right /\
  choose_action (greedy_agent ∅) (Q2Qc 0) 0 first_state
    <> choose_action (greedy_agent ∅) (Q2Qc 0) 1 first_state.
Proof.
  assert (H : forall pick, choose_action (greedy_agent ∅) (Q2Qc 0) pick first_state
                           = random_choice pick default_actions).
  { intros pick. unfold choose_action.
    destruct (decide (Q2Qc 0 < epsilon (greedy_agent ∅))%Qc); [done|].
    cbn [q_table greedy_agent actions]. by rewrite lookup_empty. }
  rewrite !H. repeat split; done.
Qed.

(** C6, amended: with [epsilon = 0], a state that is stored in the table
    gets the action of the first greatest entry of its vector, whatever the
    random draws are: two calls return the same action, and on an all-zero
    vector that is the first action. A state that is not stored gets the
    random draw of [np.random.choice], and [choose_action] stores nothing. *)
Theorem choose_action_greedy
    (ag : QLearningAgent) (s : State) (rand : Qc) (pick : nat) :
  epsilon ag = Q2Qc 0 ->
  (Q2Qc 0 <= rand)%Qc ->
  table_wf ag ->
  actions ag <> [] ->
  match q_table ag !! s with
  | None => choose_action ag rand pick s = random_choice pick (actions ag)
  | Some row =>
      (exists k vk a,
          choose_action ag rand pick s = Some a /\
          actions ag !! k = Some a /\ row !! k = Some vk /\
          (forall j v, row !! j = Some v -> (v <= vk)%Qc) /\
          (forall j v, (j < k)%nat -> row !! j = Some v -> (v < vk)%Qc)) /\
      (forall rand' pick', (Q2Qc 0 <= rand')%Qc ->
          choose_action ag rand' pick' s = choose_action ag rand pick s) /\
      (row = np_zeros (List.length (actions ag)) ->
          choose_action ag rand pick s = actions ag !! 0%nat)
  end.
Proof.
  intros Heps Hrand Hwf Hact.
  assert (Hunfold : forall rand' pick', (Q2Qc 0 <= rand')%Qc ->
     choose_action ag rand' pick' s =
       match q_table ag !! s with
       | None => random_choice pick' (actions ag)
       | Some row => i ← np_argmax row; actions ag !! i
       end).
  { intros rand' pick' Hr. unfold choose_action. rewrite Heps.
    rewrite decide_False; [done|]. by apply Qcle_not_lt. }
  destruct (q_table ag !! s) as [row|] eqn:E.
  - assert (Hlen : List.length row = List.length (actions ag)) by (by eapply Hwf).
    assert (Hne : row <> []).
    { intros ->. destruct (actions ag); [done|]. simpl in Hlen. lia. }
    split; [|split].
    + destruct (np_argmax_spec row Hne) as (k & vk & Hk & Hvk & Hle & Hlt).
      destruct (lookup_lt_is_Some_2 (actions ag) k) as (a & Ha).
      { apply lookup_lt_Some in Hvk. lia. }
      exists k, vk, a. rewrite (Hunfold _ _ Hrand), Hk. simpl. eauto.
    + intros rand' pick' Hr'. by rewrite (Hunfold _ _ Hr'), (Hunfold _ _ Hrand).
    + intros ->. rewrite (Hunfold _ _ Hrand).
      destruct (List.length (actions ag)) as [|n]; [done|].
      simpl. by rewrite argmax_from_zeros.
  - by apply Hunfold.
Qed.

Lemma seen_table_wf : table_wf (new_agent seen_table).
Proof.
  intros s row H. simpl in H. unfold seen_table in H.
  apply lookup_singleton_Some in H as [_ <-]. reflexivity.
Qed.

Lemma seen_table_greedy_wf : table_wf (greedy_agent seen_table).
Proof.
  intros s row H. simpl in H. unfold seen_table in H.
  apply lookup_singleton_Some in H as [_ <-]. reflexivity.
Qed.

Lemma learn_update_rule_witness :
  exists i ag',
    learn (new_agent seen_table) first_state Down (-10) None = Some ag' /\
    q_value (q_table ag') first_state i
    = (q_value seen_table first_state i
       + lr (new_agent seen_table)
         * (Qc_of_Z (-10) - q_value seen_table first_state i))%Qc.
Proof.
  destruct (learn_update_rule (new_agent seen_table) first_state Down (-10) None)
    as (i & ag' & _ & _ & Hl & _ & Hv).
  - apply seen_table_wf.
  - simpl. auto.
  - split; apply Z.leb_le; vm_compute; reflexivity.
  - exists i, ag'. split; [exact Hl|exact Hv].
Defined.


Lemma choose_action_greedy_witness :
  choose_action (greedy_agent seen_table) (Q2Qc (1 # 2)) 3 first_state = Some Left.
Proof.
  pose proof (choose_action_greedy (greedy_agent seen_table) first_state
                (Q2Qc (1 # 2)) 3) as H.
  assert (Hl : q_table (greedy_agent seen_table) !! first_state = Some (np_zeros 4)).
  { apply lookup_singleton_eq. }
  rewrite Hl in H.
  destruct H as (_ & _ & Hz).
  - reflexivity.
  - discriminate.
  - apply seen_table_greedy_wf.
  - discriminate.
  - rewrite Hz; reflexivity.
Defined.

End LearningFacts.

(* ===================================================================== *)
(** * Relocating the apple *)
(* ===================================================================== *)

Section AppleFacts.
Import Utilitybased.

Lemma random_randint_range (d : nat) (lo hi : Z) :
  lo <= hi ->
  exists v, random_randint d lo hi = Some v /\ lo <= v <= hi.
Proof.
  intros H. unfold random_randint.
  destruct (Z.leb_spec lo hi) as [_|]; [|lia].
  eexists. split; [reflexivity|].
  pose proof (Z.mod_pos_bound (Z.of_nat d) (hi - lo + 1)). lia.
Qed.

Lemma random_choice_elem (d : nat) (l : list Cell) :
  l <> [] -> exists p, random_choice d l = Some p /\ p ∈ l.
Proof.
  intros Hl. unfold random_choice.
  destruct (lookup_lt_is_Some_2 l (d mod List.length l)) as (p & Hp).
  { apply Nat.mod_upper_bound. destruct l; [done|]. simpl. lia. }
  exists p. split; [done|]. apply list_elem_of_lookup. eauto.
Qed.

Lemma valid_positions_elem (a : Apple) (pos : list Cell) (p : Cell) :
  p ∈ valid_positions a pos -> p ∉ pos.
Proof.
  unfold valid_positions. intros H.
  apply list_elem_of_bind in H as (px & H & _).
  apply list_elem_of_bind in H as (py & H & _).
  destruct (bool_decide ((px, py) ∈ pos)) eqn:E.
  - by apply elem_of_nil in H.
  - apply list_elem_of_singleton in H as ->.
    by apply bool_decide_eq_false in E.
Qed.

(** While a candidate cell is free, [Apple.move] puts the apple on a cell
    that the body does not occupy. *)
Lemma move_to_free_cell (a : Apple) (pos : list Cell) (d1 d2 : nat) :
  valid_positions a pos <> [] ->
  exists a', move a pos d1 d2 = Some a' /\ (apple_x a', apple_y a') ∉ pos.
Proof.
  intros Hv. unfold move.
  destruct (valid_positions a pos) as [|c l] eqn:E; [done|].
  destruct (random_choice_elem d1 (c :: l)) as (p & Hp & Hin); [done|].
  rewrite Hp. simpl. eexists. split; [reflexivity|]. simpl.
  rewrite <- E in Hin. apply valid_positions_elem in Hin. by destruct p.
Qed.

(** C9, counterexample: on the 1000 by 800 surface, a call of [move] with
    the body on every candidate cell and a call with the one-segment body of
    a new game end in the same apple, and [move] returns nothing else. So no
    test on the outcome of [move] tells the caller that placement was
    exhausted. *)
Lemma move_exhaustion_not_reported :
  valid_positions std_apple covering_body = [] /\
  valid_positions std_apple [(40, 40)] <> [] /\
  move std_apple covering_body 3 3 = move std_apple [(40, 40)] 59 0 /\
  ~ exists report : option Apple -> bool,
      forall pos d1 d2,
        report (move std_apple pos d1 d2) = true <-> valid_positions std_apple pos = [].
Proof.
  assert (H1 : valid_positions std_apple covering_body = []) by (vm_compute; reflexivity).
  assert (H2 : valid_positions std_apple [(40, 40)] <> []) by (vm_compute; discriminate).
  assert (H3 : move std_apple covering_body 3 3 = move std_apple [(40, 40)] 59 0)
    by (vm_compute; reflexivity).
  split; [exact H1|]. split; [exact H2|]. split; [exact H3|].
  intros (report & Hr).
  apply H2. apply (Hr [(40, 40)] 59%nat 0%nat). rewrite <- H3. by apply Hr.
Qed.

(** C9, amended: when no candidate cell is free, [Apple.move] neither loops
    nor raises; it puts the apple on a cell of the grid, inside the screen
    (the body may lie on it), and returns like any other call, with nothing
    that reports the exhaustion. *)
Theorem move_exhausted_in_bounds
    (a : Apple) (pos : list Cell) (d1 d2 : nat) :
  apple_wf a ->
  SIZE <= screen_width a ->
  SIZE <= screen_height a ->
  valid_positions a pos = [] ->
  exists a',
    move a pos d1 d2 = Some a' /\
    0 <= apple_x a' < screen_width a /\
    0 <= apple_y a' < screen_height a /\
    apple_x a' mod SIZE = 0 /\
    apple_y a' mod SIZE = 0 /\
    screen_width a' = screen_width a /\ screen_height a' = screen_height a /\
    grid_width a' = grid_width a /\ grid_height a' = grid_height a.
Proof.
  intros (Hgw & Hgh) Hw Hh Hv. unfold move. rewrite Hv.
  unfold SIZE in *.
  assert (1 <= grid_width a).
  { rewrite Hgw. apply Z.div_le_lower_bound; lia. }
  assert (1 <= grid_height a).
  { rewrite Hgh. apply Z.div_le_lower_bound; lia. }
  destruct (random_randint_range d1 0 (grid_width a - 1)) as (rx & -> & Hrx); [lia|].
  destruct (random_randint_range d2 0 (grid_height a - 1)) as (ry & -> & Hry); [lia|].
  simpl. eexists. split; [reflexivity|]. simpl.
  pose proof (Z.mul_div_le (screen_width a) 40).
  pose proof (Z.mul_div_le (screen_height a) 40).
  rewrite !Z.mod_mul by lia.
  repeat split; try lia.
Qed.

Lemma std_apple_wf : apple_wf std_apple.
Proof. split; reflexivity. Qed.

Lemma move_exhausted_in_bounds_witness :
  exists a',
    move std_apple covering_body 3 3 = Some a' /\
    0 <= apple_x a' < 1000 /\ 0 <= apple_y a' < 800.
Proof.
  destruct (move_exhausted_in_bounds std_apple covering_body 3 3)
    as (a' & Hm & Hx & Hy & _).
  - apply std_apple_wf.
  - vm_compute. discriminate.
  - vm_compute. discriminate.
  - vm_compute. reflexivity.
  - exists a'. split; [exact Hm|]. split; [exact Hx|exact Hy].
Defined.

End AppleFacts.

(* ===================================================================== *)
(** * The emergency move *)
(* ===================================================================== *)

Section EmergencyFacts.
Import Utilitybased.

#[local] Arguments execute_move : simpl never.

Lemma emergency_move_cases (g : Game) (hx hy : Z) :
  emergency_move g hx hy =
  match List.find
          (fun d => negb (is_opposite_direction g d) &&
                    negb (would_collide g (step_cell hx hy d).1 (step_cell hx hy d).2))
          [Up; Down; Left; Right] with
  | Some d => (Some d, execute_move g d)
  | None =>
      match List.find (fun d => negb (is_opposite_direction g d))
                      [Up; Down; Left; Right] with
      | Some d => (Some d, execute_move g d)
      | None => (None, g)
      end
  end.
Proof.
  unfold emergency_move, emergency_order, deltas.
  cbn [zip zip_with List.find fst snd step_cell].
  rewrite !Z.add_0_r.
  change (hy + - SIZE) with (hy - SIZE). change (hx + - SIZE) with (hx - SIZE).
  repeat (match goal with |- context [if ?b then _ else _] => destruct b end);
    reflexivity.
Qed.

Lemma execute_move_direction (g : Game) (d : Direction) :
  d <> opposites (direction (snake g)) ->
  direction (snake (execute_move g d)) = d.
Proof.
  unfold execute_move.
  destruct d, (direction (snake g)) eqn:E; simpl; intros H; try done;
    unfold move_left, move_right, move_up, move_down; rewrite E; simpl; done.
Qed.

(** [_emergency_move] always hands one heading to [_execute_move], and never
    the reverse of the current heading. *)
Lemma emergency_move_decides (g : Game) (hx hy : Z) :
  exists d, emergency_move g hx hy = (Some d, execute_move g d) /\
            d <> opposites (direction (snake g)).
Proof.
  rewrite emergency_move_cases. unfold is_opposite_direction.
  destruct (direction (snake g)); simpl;
    repeat (match goal with |- context [if ?b then _ else _] => destruct b end);
    eexists; (split; [reflexivity|discriminate]).
Qed.

(** C4, counterexample: in [corner_game] every heading but the reverse leads
    to a blocked cell and the reverse heading leads to a free one, yet the
    heading chosen is up, which is blocked. In [boxed_game] all four headings
    are blocked and the heading chosen is up, not the current heading left. *)
Lemma emergency_move_keeps_blocked_heading :
  (forall d, d <> Right ->
     would_collide corner_game (step_cell 0 0 d).1 (step_cell 0 0 d).2 = true) /\
  opposites (direction (snake corner_game)) = Right /\
  would_collide corner_game (step_cell 0 0 Right).1 (step_cell 0 0 Right).2 = false /\
  (emergency_move corner_game 0 0).1 = Some Up /\
  (forall d, would_collide boxed_game (step_cell 0 0 d).1 (step_cell 0 0 d).2 = true) /\
  direction (snake boxed_game) = Left /\
  (emergency_move boxed_game 0 0).1 = Some Up.
Proof.
  repeat split; try reflexivity.
  - intros [] H; try reflexivity. done.
  - intros []; reflexivity.
Qed.

(** C4, amended: the emergency stage picks the first heading, in the order
    up, down, left, right, that is not the reverse of the current heading and
    leads to a non-blocked cell, if there is one. If every non-reversing
    heading is blocked, it picks the first non-reversing heading of that
    order (up, or down when the snake heads down), blocked as it is, whether
    the reverse heading is free or not: the reverse is never picked. *)
Theorem emergency_move_never_reverses (g : Game) (hx hy : Z) :
  let cur := direction (snake g) in
  let blocked d := would_collide g (step_cell hx hy d).1 (step_cell hx hy d).2 in
  exists d,
    emergency_move g hx hy = (Some d, execute_move g d) /\
    d <> opposites cur /\
    direction (snake (execute_move g d)) = d /\
    ((exists d0, d0 <> opposites cur /\ blocked d0 = false) ->
       blocked d = false /\
       forall d0, d0 <> opposites cur -> blocked d0 = false ->
                  (order_index d <= order_index d0)%nat) /\
    ((forall d0, d0 <> opposites cur -> blocked d0 = true) ->
       blocked d = true /\ d = if decide (cur = Down) then Down else Up).
Proof.
  intros cur blocked.
  destruct (emergency_move_decides g hx hy) as (d & Hd & Hrev).
  exists d. split; [exact Hd|]. split; [exact Hrev|].
  split; [by apply execute_move_direction|].
  rewrite emergency_move_cases in Hd. unfold is_opposite_direction in Hd.
  fold cur in Hd, Hrev |- *. cbn [List.find] in Hd.
  change (would_collide g (step_cell hx hy Up).1 (step_cell hx hy Up).2)
    with (blocked Up) in Hd.
  change (would_collide g (step_cell hx hy Down).1 (step_cell hx hy Down).2)
    with (blocked Down) in Hd.
  change (would_collide g (step_cell hx hy Left).1 (step_cell hx hy Left).2)
    with (blocked Left) in Hd.
  change (would_collide g (step_cell hx hy Right).1 (step_cell hx hy Right).2)
    with (blocked Right) in Hd.
  clearbody blocked cur. clear Hrev.
  destruct cur; simpl in Hd;
    destruct (blocked Up) eqn:Hu, (blocked Down) eqn:Hdn,
             (blocked Left) eqn:Hl, (blocked Right) eqn:Hr;
    simpl in Hd; injection Hd as <-; simpl;
    (split;
     [ intros (d0 & Hn & Hb); (split; [first [assumption | destruct d0; simpl in Hn; congruence]|]);
       intros d1 Hn1 Hb1; destruct d1; simpl in *; first [lia | congruence]
     | intros Hall; (split; [first [assumption | idtac]|first [reflexivity | idtac]]);
       first
         [ exfalso; (assert (blocked Up = true) by (apply Hall; discriminate); congruence)
         | exfalso; (assert (blocked Down = true) by (apply Hall; discriminate); congruence)
         | exfalso; (assert (blocked Left = true) by (apply Hall; discriminate); congruence)
         | exfalso; (assert (blocked Right = true) by (apply Hall; discriminate); congruence)
         | idtac ] ]).
Qed.

Lemma emergency_move_never_reverses_witness :
  exists d, emergency_move corner_game 0 0 = (Some d, execute_move corner_game d) /\
            d <> Right.
Proof.
  destruct (emergency_move_never_reverses corner_game 0 0) as (d & Hd & Hrev & _).
  exists d. split; [exact Hd|exact Hrev].
Defined.

End EmergencyFacts.

(* ===================================================================== *)
(** * Flood fill and the trap-avoidance sub-score *)
(* ===================================================================== *)

Section ScoreFacts.
Import Utilitybased.

Lemma Qc_of_Z_lt (a b : Z) : a < b -> (Qc_of_Z a < Qc_of_Z b)%Qc.
Proof.
  intros H. unfold Qc_of_Z, Qclt. simpl. apply Qred_lt.
  unfold Qlt. simpl. lia.
Qed.

Lemma Qc_of_Z_le (a b : Z) : a <= b -> (Qc_of_Z a <= Qc_of_Z b)%Qc.
Proof.
  intros H. unfold Qc_of_Z, Qcle. simpl. apply Qred_le.
  unfold Qle. simpl. lia.
Qed.

Lemma Qc_of_Z_neq0 (z : Z) : z <> 0 -> Qc_of_Z z <> Q2Qc 0.
Proof.
  intros H E. apply Q2Qc_eq_iff in E. unfold Qeq in E. simpl in E. lia.
Qed.

Lemma truediv_Some (a b : Qc) : b <> Q2Qc 0 -> truediv a b = Some (a / b)%Qc.
Proof. intros H. unfold truediv. by rewrite decide_False. Qed.

(** [a / m * 100] as a function of the integer [a]. *)
Lemma scaled_lt (m a b : Z) :
  0 < m -> a < b ->
  (Qc_of_Z a / Qc_of_Z m * Qc_of_Z 100 < Qc_of_Z b / Qc_of_Z m * Qc_of_Z 100)%Qc.
Proof.
  intros Hm Hab. apply Qcmult_lt_compat_r; [by apply (Qc_of_Z_lt 0 100)|].
  unfold Qcdiv. apply Qcmult_lt_compat_r; [|by apply Qc_of_Z_lt].
  apply Qcinv_pos. by apply (Qc_of_Z_lt 0 m).
Qed.

Lemma scaled_full (m : Z) :
  0 < m -> (Qc_of_Z m / Qc_of_Z m * Qc_of_Z 100)%Qc = Qc_of_Z 100.
Proof.
  intros Hm. unfold Qcdiv. rewrite Qcmult_inv_r by (apply Qc_of_Z_neq0; lia).
  apply Qcmult_1_l.
Qed.

Lemma scaled_zero (m : Z) : (Qc_of_Z 0 / Qc_of_Z m * Qc_of_Z 100)%Qc = Q2Qc 0.
Proof. change (Qc_of_Z 0) with (Q2Qc 0). unfold Qcdiv. ring. Qed.

(** The value of [trap_score_of_count]: the count, clamped at
    [length + 5], over [length + 5], times 100. *)
Lemma trap_score_of_count_value (len : nat) (c : Z) :
  trap_score_of_count len c
  = Some (Qc_of_Z (Z.min c (Z.of_nat len + 5)) / Qc_of_Z (Z.of_nat len + 5)
          * Qc_of_Z 100)%Qc.
Proof.
  unfold trap_score_of_count.
  destruct (Z.leb_spec (Z.of_nat len + 5) c) as [Hle|Hlt].
  - rewrite Z.min_r by lia. by rewrite scaled_full by lia.
  - rewrite Z.min_l by lia. rewrite truediv_Some by (apply Qc_of_Z_neq0; lia). done.
Qed.

Lemma weighted_total_lt (d s m t1 t2 : Qc) :
  (t1 < t2)%Qc -> (weighted_total d s m t1 < weighted_total d s m t2)%Qc.
Proof.
  intros H. unfold weighted_total. apply Qcplus_lt_mono_l.
  by apply Qcmult_lt_compat_r.
Qed.

(** The count never decreases and stops at the cap. *)
Lemma flood_loop_bounds (g : Game) (md : Z) (fuel : nat) :
  forall queue visited count c,
    flood_loop g md fuel queue visited count = Some c ->
    count <= c <= Z.max count md.
Proof.
  induction fuel as [|fuel IH]; intros queue visited count c.
  - destruct queue as [|[n depth] queue']; simpl.
    + intros [= <-]. lia.
    + destruct (Z.ltb_spec count md); [discriminate|]. intros [= <-]. lia.
  - destruct queue as [|[n depth] queue']; simpl.
    + intros [= <-]. lia.
    + destruct (Z.ltb_spec count md); [|intros [= <-]; lia].
      destruct (bool_decide (n ∈ visited) || (md <? depth)).
      * intros H'. apply IH in H'. lia.
      * destruct (would_collide g n.1 n.2); intros H'; apply IH in H'; lia.
Qed.

(** The model never runs out of fuel: every pass either drops a queue entry
    or raises the count and adds at most four entries. *)
Lemma flood_loop_enough (g : Game) (md : Z) (fuel : nat) :
  forall queue visited count,
    (4 * Z.to_nat (md - count) + List.length queue <= fuel)%nat ->
    exists c, flood_loop g md fuel queue visited count = Some c.
Proof.
  induction fuel as [|fuel IH]; intros queue visited count Hfuel.
  - destruct queue as [|[n depth] queue']; cbn [flood_loop List.length] in *;
      [by eauto|].
    destruct (Z.ltb_spec count md); [lia|by eauto].
  - destruct queue as [|[n depth] queue']; cbn [flood_loop List.length] in *;
      [by eauto|].
    destruct (Z.ltb_spec count md); [|by eauto].
    destruct (bool_decide (n ∈ visited) || (md <? depth)).
    + apply IH. lia.
    + destruct (would_collide g n.1 n.2).
      * apply IH. lia.
      * apply IH. rewrite length_app, length_map.
        match goal with |- context [List.filter ?f ?l] =>
          pose proof (filter_length_le f l) as Hf end.
        rewrite length_map in Hf. change (List.length deltas) with 4%nat in Hf.
        replace (md - (count + 1)) with (md - count - 1) by lia.
        rewrite (Z2Nat.inj_sub _ 1) by lia. change (Z.to_nat 1) with 1%nat.
        assert (1 <= Z.to_nat (md - count))%nat by lia. lia.
Qed.

Lemma flood_fill_count_run (g : Game) (cx cy md : Z) :
  flood_loop g md (flood_fuel md) [((cx, cy), 0)] [] 0
  = Some (flood_fill_count g cx cy md).
Proof.
  unfold flood_fill_count.
  destruct (flood_loop_enough g md (flood_fuel md) [((cx, cy), 0)] [] 0) as (c & ->).
  - unfold flood_fuel. rewrite Z.sub_0_r. simpl. lia.
  - done.
Qed.

Lemma flood_fill_count_bounds (g : Game) (cx cy md : Z) :
  0 <= flood_fill_count g cx cy md <= Z.max 0 md.
Proof. exact (flood_loop_bounds _ _ _ _ _ _ _ (flood_fill_count_run g cx cy md)). Qed.

(** C3, counterexample: for a snake of length 46 and the cell left of its
    head, the flood fill of the code stops at its cap of 50, below
    [length + 5 = 51], and the sub-score is 5000/51, not 100, although the
    count has reached the cap; with a cap of [length + 5] the count is 51 and
    the claimed formula gives 100. *)
Lemma trap_score_cap_is_fixed :
  Z.of_nat (length (snake long_snake_game)) + 5 = 51 /\
  flood_fill_count long_snake_game 120 40 default_max_depth = default_max_depth /\
  calculate_trap_avoidance_score long_snake_game 120 40 = Some (Q2Qc (5000 # 51)) /\
  claimed_trap_score long_snake_game 120 40 = Some (Qc_of_Z 100) /\
  calculate_trap_avoidance_score long_snake_game 120 40
    <> claimed_trap_score long_snake_game 120 40.
Proof.
  assert (H1 : calculate_trap_avoidance_score long_snake_game 120 40
               = Some (Q2Qc (5000 # 51))) by (vm_compute; reflexivity).
  assert (H2 : claimed_trap_score long_snake_game 120 40 = Some (Qc_of_Z 100))
    by (vm_compute; reflexivity).
  split; [reflexivity|]. split; [vm_compute; reflexivity|].
  split; [exact H1|]. split; [exact H2|].
  rewrite H1, H2. intros [= H].
Qed.

(** C3, amended: the trap-avoidance sub-score of a candidate cell is the
    flood-fill count taken with the fixed cap 50, clamped at
    [bodyLength + 5], divided by [bodyLength + 5] and multiplied by 100. It
    lies in [0,100] and is 100 exactly when the count is at least
    [bodyLength + 5]. As a function of the count it is strictly increasing
    below [bodyLength + 5], so, the other sub-scores held fixed, the total
    score strictly decreases when the count decreases there. *)
Theorem trap_avoidance_score_shape (g : Game) (cx cy c1 c2 : Z) :
  let len := length (snake g) in
  let L := Z.of_nat len in
  let c := flood_fill_count g cx cy 50 in
  0 <= c1 < c2 ->
  c1 < L + 5 ->
  (flood_loop g 50 (flood_fuel 50) [((cx, cy), 0)] [] 0 = Some c /\ 0 <= c <= 50) /\
  (exists t,
      calculate_trap_avoidance_score g cx cy = Some t /\
      t = (Qc_of_Z (Z.min c (L + 5)) / Qc_of_Z (L + 5) * Qc_of_Z 100)%Qc /\
      (Q2Qc 0 <= t)%Qc /\ (t <= Qc_of_Z 100)%Qc /\
      (t = Qc_of_Z 100 <-> L + 5 <= c)) /\
  (exists t1 t2,
      trap_score_of_count len c1 = Some t1 /\
      trap_score_of_count len c2 = Some t2 /\
      (t1 < t2)%Qc /\
      forall d s m, (weighted_total d s m t1 < weighted_total d s m t2)%Qc).
Proof.
  intros len L c Hc12 Hc1.
  pose proof (flood_fill_count_bounds g cx cy 50) as Hb. fold c in Hb.
  assert (HL : 0 < L + 5) by lia.
  split; [|split].
  - split; [apply flood_fill_count_run|lia].
  - eexists. split.
    { unfold calculate_trap_avoidance_score. apply trap_score_of_count_value. }
    fold len L. change (flood_fill_count g cx cy default_max_depth) with c.
    split; [reflexivity|].
    destruct (Z.le_gt_cases (L + 5) c) as [Hle|Hlt].
    + rewrite Z.min_r by lia. rewrite scaled_full by lia.
      split; [by apply (Qc_of_Z_le 0 100)|]. split; [apply Qcle_refl|].
      split; [done|reflexivity].
    + rewrite Z.min_l by lia.
      assert (Hs : (Qc_of_Z c / Qc_of_Z (L + 5) * Qc_of_Z 100 < Qc_of_Z 100)%Qc).
      { rewrite <- (scaled_full (L + 5) HL) at 2. apply scaled_lt; lia. }
      split; [|split; [|split]].
      * rewrite <- (scaled_zero (L + 5)).
        destruct (Z.eq_dec c 0) as [->|]; [apply Qcle_refl|].
        apply Qclt_le_weak, scaled_lt; lia.
      * by apply Qclt_le_weak.
      * intros E. exfalso. rewrite E in Hs.
        apply Qclt_not_le in Hs. apply Hs, Qcle_refl.
      * lia.
  - do 2 eexists. split; [apply trap_score_of_count_value|].
    split; [apply trap_score_of_count_value|].
    fold L.
    assert (Hlt : (Qc_of_Z (Z.min c1 (L + 5)) / Qc_of_Z (L + 5) * Qc_of_Z 100
                   < Qc_of_Z (Z.min c2 (L + 5)) / Qc_of_Z (L + 5) * Qc_of_Z 100)%Qc).
    { apply scaled_lt; lia. }
    split; [exact Hlt|]. intros. by apply weighted_total_lt.
Qed.

Lemma trap_avoidance_score_shape_witness :
  exists t1 t2,
    trap_score_of_count 46 10 = Some t1 /\
    trap_score_of_count 46 20 = Some t2 /\
    (t1 < t2)%Qc.
Proof.
  destruct (trap_avoidance_score_shape long_snake_game 120 40 10 20)
    as (_ & _ & (t1 & t2 & H1 & H2 & Hlt & _)).
  - lia.
  - simpl. lia.
  - exists t1, t2. repeat split; assumption.
Defined.

End ScoreFacts.

(* ===================================================================== *)
(** * The decision cascade of the planning agent *)
(* ===================================================================== *)

Section CascadeFacts.
Import Utilitybased.

#[local] Arguments execute_move : simpl never.

(** [math.sqrt], with the one property the cascade relies on: the root of a
    positive number is positive. *)
Variable math_sqrt : Qc -> Qc.
Hypothesis math_sqrt_pos : forall q, (Q2Qc 0 < q)%Qc -> (Q2Qc 0 < math_sqrt q)%Qc.

Lemma bind_Some {A B : Type} (o : option A) (f : A -> option B) (a : A) :
  o = Some a -> o ≫= f = f a.
Proof. intros ->. reflexivity. Qed.

Lemma calculate_safety_score_Some (g : Game) (cx cy : Z) :
  exists t, calculate_safety_score g cx cy = Some t.
Proof.
  unfold calculate_safety_score.
  change (Z.of_nat (List.length window_cells)) with 24.
  change (0 <? 24) with true. cbv iota.
  rewrite (bind_Some _ _ _ (truediv_Some _ (Qc_of_Z 24) (Qc_of_Z_neq0 24 ltac:(done)))).
  eexists. reflexivity.
Qed.

Lemma calculate_mobility_score_Some (g : Game) (cx cy : Z) :
  exists t, calculate_mobility_score g cx cy = Some t.
Proof.
  unfold calculate_mobility_score.
  rewrite (bind_Some _ _ _ (truediv_Some _ (Qc_of_Z 4) (Qc_of_Z_neq0 4 ltac:(done)))).
  eexists. reflexivity.
Qed.

Lemma would_collide_false_inside (g : Game) (cx cy : Z) :
  would_collide g cx cy = false ->
  0 <= cx < surface_width g /\ 0 <= cy < surface_height g.
Proof.
  unfold would_collide.
  destruct (Z.ltb_spec cx 0), (Z.leb_spec (surface_width g) cx),
    (Z.ltb_spec cy 0), (Z.leb_spec (surface_height g) cy); simpl;
    try discriminate. lia.
Qed.

(** Scoring a cell that does not collide raises no exception. *)
Lemma calculate_move_score_Some (g : Game) (cx cy ax ay : Z) :
  would_collide g cx cy = false ->
  exists t, calculate_move_score math_sqrt g cx cy ax ay = Some t.
Proof.
  intros Hfree. apply would_collide_false_inside in Hfree as (Hx & Hy).
  unfold calculate_move_score.
  assert (Hmax : math_sqrt (Qc_of_Z (surface_width g ^ 2 + surface_height g ^ 2))
                 <> Q2Qc 0).
  { intros E.
    assert (Hpos : (Q2Qc 0 < Qc_of_Z (surface_width g ^ 2 + surface_height g ^ 2))%Qc).
    { apply (Qc_of_Z_lt 0). nia. }
    apply math_sqrt_pos in Hpos. rewrite E in Hpos.
    apply Qclt_not_le in Hpos. apply Hpos, Qcle_refl. }
  destruct (calculate_safety_score_Some g cx cy) as (s & Hs).
  destruct (calculate_mobility_score_Some g cx cy) as (m & Hm).
  rewrite (bind_Some _ _ _ (truediv_Some _ _ Hmax)). cbv beta zeta.
  rewrite (bind_Some _ _ _ Hs). cbv beta.
  rewrite (bind_Some _ _ _ Hm). cbv beta.
  unfold calculate_trap_avoidance_score.
  rewrite (bind_Some _ _ _ (trap_score_of_count_value _ _)). cbv beta.
  eexists. reflexivity.
Qed.

Lemma evaluate_loop_Some (g : Game) (ax ay : Z) (l : list (Direction * Cell)) :
  exists r, evaluate_loop math_sqrt g ax ay l = Some r.
Proof.
  induction l as [|[d n] l (r & IH)]; cbn [evaluate_loop]; [by eexists|].
  destruct (is_opposite_direction g d); [by eexists|].
  destruct (would_collide g n.1 n.2) eqn:E; [by eexists|].
  destruct (calculate_move_score_Some g n.1 n.2 ax ay E) as (t & Ht).
  rewrite (bind_Some _ _ _ Ht), (bind_Some _ _ _ IH). eexists. reflexivity.
Qed.

(** C2: for a well-formed snake, [auto_control] raises no exception and
    hands exactly one of the four headings to [_execute_move], whichever
    stage of the cascade (path step, best-scored move, emergency move)
    decides; the game afterwards is the game after that one call. *)
Theorem auto_control_total (g : Game) :
  snake_wf (snake g) ->
  exists d : Direction,
    auto_control math_sqrt g = Some (Some d, execute_move g d).
Proof.
  intros _. unfold auto_control.
  destruct (path_direction _ _ _) as [d|]; [by eauto|].
  unfold evaluate_moves.
  destruct (evaluate_loop_Some g (apple_x (apple g)) (apple_y (apple g))
              (candidates (seg_x (snake g) 0) (seg_y (snake g) 0))) as (r & Hr).
  rewrite (bind_Some _ _ _ Hr).
  destruct r as [|m l]; [|eexists; reflexivity].
  destruct (emergency_move_decides g (seg_x (snake g) 0) (seg_y (snake g) 0))
    as (d & -> & _).
  eexists. reflexivity.
Qed.

End CascadeFacts.

Lemma coarse_sqrt_pos (q : Qc) : (Q2Qc 0 < q)%Qc -> (Q2Qc 0 < coarse_sqrt q)%Qc.
Proof.
  intros H. unfold coarse_sqrt, Qcdiv. apply Qcmult_pos_pos.
  - apply Qcplus_pos_pos; [exact H|reflexivity].
  - apply Qcinv_pos. reflexivity.
Qed.

Lemma auto_control_total_witness :
  exists d : Direction,
    Utilitybased.auto_control coarse_sqrt start_game
    = Some (Some d, Utilitybased.execute_move start_game d).
Proof.
  apply (auto_control_total coarse_sqrt coarse_sqrt_pos start_game).
  apply init_snake_wf.
Defined.

(* ===================================================================== *)
(** * The breadth-first path search *)
(* ===================================================================== *)

Section PathSearch.
Import Utilitybased.

Variable g : Game.

Lemma would_collide_free (c : Cell) :
  would_collide g c.1 c.2 = false <-> free_cell g c.
Proof.
  unfold would_collide, free_cell.
  destruct (Z.ltb_spec c.1 0), (Z.leb_spec (surface_width g) c.1),
    (Z.ltb_spec c.2 0), (Z.leb_spec (surface_height g) c.2); simpl;
    try (split; [discriminate|intros (? & ? & _); lia]).
  rewrite <- not_true_iff_false, existsb_seq. split.
  - intros Hno. split; [lia|]. split; [lia|]. intros i Hi (Hx & Hy).
    apply Hno. exists i. split; [lia|]. rewrite andb_true_iff, !Z.eqb_eq. done.
  - intros (_ & _ & Hno) (i & Hi & Hc).
    rewrite andb_true_iff, !Z.eqb_eq in Hc. apply (Hno i); [lia|done].
Qed.

(** [get_neighbors] lists exactly the edges of the free-cell graph. *)
Lemma get_neighbors_step (a b : Cell) :
  In b (get_neighbors g a.1 a.2) <-> step g a b.
Proof.
  unfold get_neighbors, step. rewrite filter_In. split.
  - intros (Hin & Hf). split.
    + unfold adjacent. simpl in Hin. rewrite !Z.add_0_r in Hin.
      change (a.2 + - SIZE) with (a.2 - SIZE) in Hin.
      change (a.1 + - SIZE) with (a.1 - SIZE) in Hin.
      destruct Hin as [<-|[<-|[<-|[<-|[]]]]]; auto.
    + apply would_collide_free. rewrite !andb_true_iff, negb_true_iff in Hf. tauto.
  - intros (Hadj & Hfree). split.
    + simpl. rewrite !Z.add_0_r.
      change (a.2 + - SIZE) with (a.2 - SIZE).
      change (a.1 + - SIZE) with (a.1 - SIZE).
      destruct Hadj as [-> | [-> | [-> | ->]]]; auto.
    + pose proof Hfree as (Hx & Hy & _). apply would_collide_free in Hfree.
      rewrite Hfree. simpl.
      destruct (Z.leb_spec 0 b.1), (Z.ltb_spec b.1 (surface_width g)),
        (Z.leb_spec 0 b.2), (Z.ltb_spec b.2 (surface_height g)); simpl; lia.
Qed.

(** ** Paths *)

Lemma walk_snoc (p : list Cell) (b : Cell) :
  walk g p -> (forall a, list.last p = Some a -> step g a b) -> walk g (p ++ [b]).
Proof.
  induction p as [|a p IH]; [done|]. intros Hw Hl.
  destruct p as [|a' p].
  - simpl. split; [by apply Hl|done].
  - destruct Hw as (Hs & Hw). split; [exact Hs|]. apply IH; [exact Hw|].
    intros a0 Ha0. apply Hl. exact Ha0.
Qed.

Lemma walk_snoc_inv (p : list Cell) (b : Cell) :
  walk g (p ++ [b]) -> walk g p /\ (forall a, list.last p = Some a -> step g a b).
Proof.
  induction p as [|a p IH]; [done|]. intros Hw.
  destruct p as [|a' p].
  - destruct Hw as (Hs & _). split; [done|]. by intros ? [= <-].
  - destruct Hw as (Hs & Hw). destruct (IH Hw) as (Hw' & Hl).
    split; [by split|]. intros a0 Ha0. apply Hl. exact Ha0.
Qed.

Lemma path_between_snoc (s c n : Cell) (p : list Cell) :
  path_between g s c p -> step g c n -> path_between g s n (p ++ [n]).
Proof.
  intros (Hh & Hl & Hw) Hs. split; [|split].
  - destruct p; [done|]. exact Hh.
  - apply last_snoc.
  - apply walk_snoc; [exact Hw|]. intros a Ha. congruence.
Qed.

Lemma path_between_reach (s t : Cell) (p : list Cell) :
  path_between g s t p -> exists k, List.length p = S k /\ reach g s k t.
Proof.
  revert t. induction p as [|b p IH] using rev_ind; intros t (Hh & Hl & Hw).
  - done.
  - rewrite last_snoc in Hl. injection Hl as <-.
    destruct p as [|a p].
    + simpl in Hh. injection Hh as <-. exists 0%nat. split; [done|constructor].
    + apply walk_snoc_inv in Hw as (Hw & Hs).
      destruct (list.last (a :: p)) as [c|] eqn:Hc.
      2:{ by apply last_None in Hc. }
      destruct (IH c) as (k & Hk & Hr); [split; [exact Hh|split; [done|exact Hw]]|].
      exists (S k). split.
      * rewrite length_app, Hk. simpl. lia.
      * econstructor; [exact Hr|]. by apply Hs.
Qed.

(** ** One pass of the loop *)

Lemma visit_neighbor_eq (path : list Cell) (q : list Entry) (v : list Cell) (n : Cell) :
  visit_neighbor path (q, v) n
  = if bool_decide (n ∈ v) then (q, v) else (q ++ [(n, path ++ [n])], n :: v).
Proof. reflexivity. Qed.

(** What the inner [for] does to the queue and to the visited set. *)
Lemma expand_spec (path : list Cell) (ns : list Cell) :
  forall (q : list Entry) (v : list Cell),
  exists new : list Cell,
    (fold_left (visit_neighbor path) ns (q, v)).1
      = q ++ map (fun n => (n, path ++ [n])) new /\
    (fold_left (visit_neighbor path) ns (q, v)).2 = rev new ++ v /\
    NoDup new /\
    (forall n, In n new -> In n ns /\ ~ In n v) /\
    (forall n, In n ns -> In n v \/ In n new).
Proof.
  induction ns as [|n ns IH]; intros q v.
  - exists []. simpl. rewrite app_nil_r.
    split; [done|]. split; [done|]. split; [constructor|].
    split; [intros ? []|intros ? []].
  - cbn [fold_left]. rewrite visit_neighbor_eq.
    destruct (bool_decide (n ∈ v)) eqn:E.
    + apply bool_decide_eq_true, list_elem_of_In in E.
      destruct (IH q v) as (new & H1 & H2 & H3 & H4 & H5).
      exists new. split; [exact H1|]. split; [exact H2|]. split; [exact H3|]. split.
      * intros n0 Hn0. destruct (H4 n0 Hn0) as (Ha & Hb). split; [by right|exact Hb].
      * intros n0 [<-|Hin]; [by left|by apply H5].
    + apply bool_decide_eq_false in E. rewrite list_elem_of_In in E.
      destruct (IH (q ++ [(n, path ++ [n])]) (n :: v)) as (new & H1 & H2 & H3 & H4 & H5).
      exists (n :: new).
      split; [by rewrite H1, <- app_assoc|].
      split; [rewrite H2; cbn [rev]; by rewrite <- app_assoc|].
      split.
      { constructor; [|exact H3]. intros Hin. apply list_elem_of_In in Hin.
        apply H4 in Hin as (_ & Hn). apply Hn. by left. }
      split.
      * intros n0 [<-|Hin].
        -- split; [by left|exact E].
        -- destruct (H4 n0 Hin) as (Ha & Hb). split; [by right|].
           intros Hv. apply Hb. by right.
      * intros n0 [<-|Hin]; [right; by left|].
        destruct (H5 n0 Hin) as [[<-|Hv]|Hnew];
          [right; by left|by left|right; by right].
Qed.

Variable start : Cell.

Lemma bfs_inv_init :
  bfs_inv g start 1 [(start, [start])] [] [start].
Proof.
  split.
  - lia.
  - by repeat constructor.
  - constructor.
  - intros e [<-|[]]. simpl. split; [|by left]. split; [done|]. split; done.
  - intros e k [<-|[]] _. simpl. lia.
  - intros u [<-|[]] Hn. exfalso. apply Hn. by left.
  - intros k c Hr Hk. assert (k = 0%nat) as -> by lia.
    inversion Hr; subst. by left.
Qed.

(** When the front is used up, the back becomes the front of the next
    level. *)
Lemma bfs_inv_shift (level : nat) (back : list Entry) (v : list Cell) :
  bfs_inv g start level [] back v -> bfs_inv g start (S level) back [] v.
Proof.
  intros [H1 H2 H3 H4 H5 H6 H7]. simpl in *. split.
  - lia.
  - exact H3.
  - constructor.
  - intros e He. rewrite app_nil_r in He. by apply H4.
  - intros e k He. rewrite app_nil_r in He. by apply H5.
  - intros u Hu Hn. rewrite app_nil_r in Hn. by apply H6.
  - intros k c Hr Hk.
    destruct (decide (S k <= level)%nat) as [Hle|Hgt]; [by eapply H7|].
    assert (k = level) as -> by lia.
    inversion Hr as [|k' u c' Hru Hs]; subst; [lia|].
    assert (Hu : In u v) by (eapply H7; [exact Hru|lia]).
    apply (H6 u Hu); [|exact Hs].
    intros Hin. apply in_map_iff in Hin as (e & <- & He).
    pose proof (H5 e k' He Hru) as Hlen.
    rewrite List.Forall_forall in H3.
    assert (List.length e.2 = S (S k')) by (apply H3, He).
    lia.
Qed.

Lemma bfs_inv_step (level : nat) (c : Cell) (path : list Cell)
    (front back : list Entry) (v : list Cell) :
  bfs_inv g start level ((c, path) :: front) back v ->
  let acc := fold_left (visit_neighbor path) (get_neighbors g c.1 c.2)
                       (front ++ back, v) in
  exists added : list Entry,
    acc.1 = front ++ back ++ added /\
    bfs_inv g start level front (back ++ added) acc.2.
Proof.
  intros [H1 H2 H3 H4 H5 H6 H7] acc.
  destruct (expand_spec path (get_neighbors g c.1 c.2) (front ++ back) v)
    as (new & E1 & E2 & Hnd & Hnew & Hall).
  fold acc in E1, E2.
  exists (map (fun n => (n, path ++ [n])) new).
  split; [by rewrite E1, <- app_assoc|].
  rewrite E2.
  destruct (H4 (c, path)) as (Hpath & Hcv); [by left|]. simpl in Hpath, Hcv.
  assert (Hlen : List.length path = level).
  { apply Forall_inv in H2. exact H2. }
  assert (Hold : forall e, In e (front ++ back) -> In e (((c, path) :: front) ++ back)).
  { intros e He. by right. }
  assert (Hin_new : forall e, In e (front ++ back ++ map (fun n => (n, path ++ [n])) new) ->
            In e (front ++ back) \/ exists n, In n new /\ e = (n, path ++ [n])).
  { intros e He. rewrite app_assoc in He. apply in_app_or in He as [He|He]; [by left|].
    right. apply in_map_iff in He as (n & <- & Hn). eauto. }
  split.
  - exact H1.
  - by apply Forall_inv_tail in H2.
  - apply Forall_app. split; [exact H3|].
    apply List.Forall_forall. intros e He. apply in_map_iff in He as (n & <- & _).
    simpl. rewrite length_app. simpl. lia.
  - intros e He. apply Hin_new in He as [He|(n & Hn & ->)].
    + destruct (H4 e (Hold e He)) as (Hp & Hv). split; [exact Hp|].
      apply in_or_app. by right.
    + simpl. split.
      * eapply path_between_snoc; [exact Hpath|].
        apply get_neighbors_step. by apply Hnew.
      * apply in_or_app. left. by apply in_rev in Hn.
  - intros e k He Hr. apply Hin_new in He as [He|(n & Hn & ->)].
    + by apply (H5 e k (Hold e He)).
    + simpl in *. rewrite length_app. simpl.
      destruct (decide (S k <= level)%nat) as [Hle|Hgt]; [|lia].
      exfalso. apply Hnew in Hn as (_ & Hn). apply Hn. by eapply H7.
  - intros u Hu Hnq n Hs.
    apply in_app_or in Hu as [Hu|Hu].
    { exfalso. apply Hnq. apply in_rev in Hu.
      rewrite app_assoc, map_app. apply in_or_app. right.
      rewrite map_map. simpl. by rewrite map_id. }
    destruct (decide (u = c)) as [->|Hne].
    + apply get_neighbors_step in Hs.
      destruct (Hall n Hs) as [Hv|Hn]; apply in_or_app; [by right|left].
      by apply in_rev in Hn.
    + apply in_or_app. right. apply (H6 u Hu); [|exact Hs].
      intros Hin. apply Hnq. simpl in Hin. destruct Hin as [->|Hin]; [done|].
      rewrite app_assoc, map_app. apply in_or_app. by left.
  - intros k c0 Hr Hk. apply in_or_app. right. by eapply H7.
Qed.

Lemma queue_inv_init : queue_inv g start [(start, [start])] [start].
Proof. exists 1%nat, [(start, [start])], []. split; [done|apply bfs_inv_init]. Qed.

Lemma queue_inv_step (c : Cell) (path : list Cell) (q : list Entry) (v : list Cell) :
  queue_inv g start ((c, path) :: q) v ->
  let acc := fold_left (visit_neighbor path) (get_neighbors g c.1 c.2) (q, v) in
  queue_inv g start acc.1 acc.2.
Proof.
  intros (level & front & back & Hq & Hinv) acc.
  assert (exists level' front' back',
             q = front' ++ back' /\
             bfs_inv g start level' ((c, path) :: front') back' v)
    as (level' & front' & back' & -> & Hinv').
  { destruct front as [|e front].
    - simpl in Hq. subst back. apply bfs_inv_shift in Hinv.
      exists (S level), q, []. split; [by rewrite app_nil_r|exact Hinv].
    - simpl in Hq. injection Hq as <- ->. exists level, front, back. done. }
  destruct (bfs_inv_step _ _ _ _ _ _ Hinv') as (added & E & Hnext).
  exists level', front', (back' ++ added). split; [exact E|exact Hnext].
Qed.

Lemma queue_inv_head (c : Cell) (path : list Cell) (q : list Entry) (v : list Cell) :
  queue_inv g start ((c, path) :: q) v ->
  path_between g start c path /\
  In c v /\
  forall k, reach g start k c -> (List.length path <= S k)%nat.
Proof.
  intros (level & front & back & Hq & Hinv).
  assert (Hin : In (c, path) (front ++ back)) by (rewrite <- Hq; by left).
  destruct (inv_path _ _ _ _ _ _ Hinv _ Hin) as (Hp & Hv).
  split; [exact Hp|]. split; [exact Hv|].
  intros k Hr. by apply (inv_min _ _ _ _ _ _ Hinv (c, path) k).
Qed.

Variable goal : Cell.

(** Whatever the ceiling, a returned sequence is a path from the start to
    the goal, and no path is shorter. *)
Lemma bfs_loop_sound (left : nat) :
  forall (queue : list Entry) (v p : list Cell),
    queue_inv g start queue v ->
    bfs_loop g goal left queue v = Some p ->
    path_between g start goal p /\
    forall k, reach g start k goal -> (List.length p <= S k)%nat.
Proof.
  induction left as [|left IH]; intros queue v p Hinv Hrun.
  - destruct queue as [|[c path] q]; discriminate.
  - destruct queue as [|[c path] q]; [discriminate|]. simpl in Hrun.
    destruct (bool_decide (c = goal)) eqn:E.
    + apply bool_decide_eq_true in E. subst c. injection Hrun as ->.
      destruct (queue_inv_head _ _ _ _ Hinv) as (Hp & _ & Hmin). done.
    + eapply IH; [|exact Hrun]. by apply queue_inv_step.
Qed.

(** ** Enough passes *)

Variable universe : list Cell.
Hypothesis universe_start : In start universe.
Hypothesis universe_closed : forall u n, In u universe -> step g u n -> In n universe.

Lemma bfs_count_init (left : nat) :
  (List.length universe <= left)%nat ->
  bfs_count goal universe left [(start, [start])] [start].
Proof.
  intros Hl. split.
  - apply NoDup_singleton.
  - intros u [<-|[]]. exact universe_start.
  - simpl. lia.
  - intros u [<-|[]] Hn. exfalso. apply Hn. by left.
Qed.

Lemma bfs_count_step (left : nat) (c : Cell) (path : list Cell)
    (q : list Entry) (v : list Cell) :
  bfs_count goal universe (S left) ((c, path) :: q) v ->
  In c v ->
  c <> goal ->
  let acc := fold_left (visit_neighbor path) (get_neighbors g c.1 c.2) (q, v) in
  bfs_count goal universe left acc.1 acc.2.
Proof.
  intros [H1 H2 H3 H4] Hcv Hne acc.
  destruct (expand_spec path (get_neighbors g c.1 c.2) q v)
    as (new & E1 & E2 & Hnd & Hnew & Hall).
  fold acc in E1, E2. rewrite E1, E2. split.
  - apply list.NoDup_app. split; [|split].
    + by apply NoDup_ListNoDup, List.NoDup_rev, NoDup_ListNoDup.
    + intros n Hn Hv. apply list_elem_of_In in Hn, Hv.
      apply in_rev in Hn. by apply Hnew in Hn as (_ & Hn).
    + exact H1.
  - intros u Hu. apply in_app_or in Hu as [Hu|Hu]; [|by apply H2].
    apply in_rev in Hu. apply Hnew in Hu as (Hu & _).
    apply (universe_closed c); [by apply H2|]. by apply get_neighbors_step.
  - rewrite !length_app, length_map, length_rev. simpl in H3. lia.
  - intros u Hu Hnq. apply in_app_or in Hu as [Hu|Hu].
    { exfalso. apply Hnq. apply in_rev in Hu. rewrite map_app. apply in_or_app. right.
      rewrite map_map. simpl. by rewrite map_id. }
    destruct (decide (u = c)) as [->|Huc]; [exact Hne|].
    apply (H4 u Hu). simpl. intros [->|Hin]; [done|].
    apply Hnq. rewrite map_app. apply in_or_app. by left.
Qed.

(** With the queue empty, every cell the graph reaches is visited. *)
Lemma queue_inv_empty (v : list Cell) (k : nat) (c : Cell) :
  queue_inv g start [] v -> reach g start k c -> In c v.
Proof.
  intros (level & front & back & Hq & Hinv) Hr.
  symmetry in Hq. apply app_eq_nil in Hq as (-> & ->).
  induction Hr as [|k u c Hr IH Hs].
  - apply (inv_near _ _ _ _ _ _ Hinv 0%nat); [constructor|].
    apply (inv_level _ _ _ _ _ _ Hinv).
  - apply (inv_closed _ _ _ _ _ _ Hinv u IH); [by intros []|exact Hs].
Qed.

(** A ceiling of at least the size of the universe is never hit before the
    goal is found, if the goal can be reached at all. *)
Lemma bfs_loop_complete (left : nat) :
  forall (queue : list Entry) (v : list Cell) (k : nat),
    queue_inv g start queue v ->
    bfs_count goal universe left queue v ->
    reach g start k goal ->
    exists p, bfs_loop g goal left queue v = Some p.
Proof.
  induction left as [|left IH]; intros queue v k Hinv Hcnt Hr.
  - destruct queue as [|e q].
    + exfalso. apply (cnt_goal _ _ _ _ _ Hcnt goal); [|by intros []|done].
      by eapply queue_inv_empty.
    + exfalso. destruct Hcnt as [H1 H2 H3 _].
      assert (List.length v <= List.length universe)%nat.
      { apply submseteq_length, NoDup_submseteq; [exact H1|].
        intros u Hu. apply list_elem_of_In, H2, list_elem_of_In, Hu. }
      simpl in H3. lia.
  - destruct queue as [|[c path] q].
    + exfalso. apply (cnt_goal _ _ _ _ _ Hcnt goal); [|by intros []|done].
      by eapply queue_inv_empty.
    + simpl. destruct (bool_decide (c = goal)) eqn:E; [by eauto|].
      apply bool_decide_eq_false in E.
      destruct (queue_inv_head _ _ _ _ Hinv) as (_ & Hcv & _).
      eapply IH; [by apply queue_inv_step|by apply bfs_count_step|exact Hr].
Qed.

End PathSearch.

(** ** The search as [_find_path_astar] runs it *)

Section PathSearchResults.
Import Utilitybased.

Variable g : Game.
Variables start_x start_y goal_x goal_y : Z.

#[local] Abbreviation start := (start_x, start_y).
#[local] Abbreviation goal := (goal_x, goal_y).

(** Whatever its ceiling, the search returns only shortest paths. *)
Lemma find_path_bounded_sound (max_iterations : nat) (p : list Cell) :
  find_path_bounded max_iterations g start_x start_y goal_x goal_y = Some p ->
  path_between g start goal p /\
  forall p', path_between g start goal p' -> (List.length p <= List.length p')%nat.
Proof.
  intros Hrun. unfold find_path_bounded in Hrun.
  destruct (bfs_loop_sound g start goal max_iterations _ _ _
              (queue_inv_init g start) Hrun) as (Hp & Hmin).
  split; [exact Hp|]. intros p' Hp'.
  destruct (path_between_reach g _ _ _ Hp') as (k & -> & Hr). by apply Hmin.
Qed.

Lemma find_path_bounded_unreachable (max_iterations : nat) :
  ~ reachable g start goal ->
  find_path_bounded max_iterations g start_x start_y goal_x goal_y = None.
Proof.
  intros Hno.
  destruct (find_path_bounded max_iterations g start_x start_y goal_x goal_y)
    as [p|] eqn:E; [|done].
  exfalso. apply Hno. exists p. by apply find_path_bounded_sound in E as (Hp & _).
Qed.

(** *** The cells a search can visit *)

Lemma aligned_axis_elem (r extent x : Z) :
  x mod SIZE = r mod SIZE -> 0 <= x < extent -> In x (aligned_axis r extent).
Proof.
  unfold aligned_axis, SIZE. intros Hm Hx. apply in_map_iff.
  exists (Z.to_nat (x / 40)). split.
  - rewrite Z2Nat.id by (apply Z.div_pos; lia).
    rewrite <- Hm. pose proof (Z.div_mod x 40). lia.
  - apply in_seq. split; [lia|]. simpl.
    apply Z2Nat.inj_lt.
    + apply Z.div_pos; lia.
    + apply Z.div_pos; lia.
    + replace (extent + 40 - 1) with (extent - 1 + 1 * 40) by lia.
      rewrite Z.div_add by lia.
      assert (x / 40 <= (extent - 1) / 40) by (apply Z.div_le_mono; lia). lia.
Qed.

Lemma aligned_axis_mod (r extent x : Z) :
  In x (aligned_axis r extent) -> x mod SIZE = r mod SIZE.
Proof.
  unfold aligned_axis, SIZE. intros Hx. apply in_map_iff in Hx as (i & <- & _).
  rewrite Z.mod_add by lia. apply Z.mod_mod. lia.
Qed.

Lemma grid_universe_aligned (u : Cell) :
  In u (grid_universe g start) ->
  u.1 mod SIZE = start_x mod SIZE /\ u.2 mod SIZE = start_y mod SIZE.
Proof.
  intros [<-|Hu]; [done|]. destruct u as [ux uy].
  apply in_prod_iff in Hu as (Hx & Hy). simpl in *.
  split; eapply aligned_axis_mod; eassumption.
Qed.

Lemma grid_universe_closed (u n : Cell) :
  In u (grid_universe g start) -> step g u n -> In n (grid_universe g start).
Proof.
  intros Hu (Hadj & (Hx & Hy & _)).
  apply grid_universe_aligned in Hu as (Hux & Huy).
  right. destruct n as [nx ny]. simpl in *.
  assert (nx mod SIZE = start_x mod SIZE /\ ny mod SIZE = start_y mod SIZE) as (Hnx & Hny).
  { unfold adjacent, SIZE in *. simpl in Hadj.
    destruct Hadj as [[= -> ->] | [[= -> ->] | [[= -> ->] | [= -> ->]]]]; split;
      try assumption.
    - replace (u.2 - 40) with (u.2 + (-1) * 40) by lia. by rewrite Z.mod_add.
    - replace (u.2 + 40) with (u.2 + 1 * 40) by lia. by rewrite Z.mod_add.
    - replace (u.1 - 40) with (u.1 + (-1) * 40) by lia. by rewrite Z.mod_add.
    - replace (u.1 + 40) with (u.1 + 1 * 40) by lia. by rewrite Z.mod_add. }
  apply in_prod; by apply aligned_axis_elem.
Qed.

Lemma grid_universe_length :
  List.length (grid_universe g start) = S (grid_blocks g).
Proof.
  unfold grid_universe, grid_blocks, aligned_axis. cbn [List.length fst snd].
  unfold Cell. by rewrite length_prod, !length_map, !length_seq.
Qed.

(** A ceiling above the number of blocks of the surface is never hit before
    a reachable goal is found. *)
Lemma find_path_bounded_complete (max_iterations : nat) :
  (grid_blocks g < max_iterations)%nat ->
  reachable g start goal ->
  exists p, find_path_bounded max_iterations g start_x start_y goal_x goal_y = Some p.
Proof.
  intros Hn (p' & Hp').
  destruct (path_between_reach g _ _ _ Hp') as (k & _ & Hr).
  unfold find_path_bounded.
  eapply (bfs_loop_complete g start goal (grid_universe g start)).
  - apply grid_universe_closed.
  - apply queue_inv_init.
  - apply bfs_count_init; [by left|]. rewrite grid_universe_length. lia.
  - exact Hr.
Qed.

(** *** The ceiling of 200 iterations *)

(** A search that finds the goal under some ceiling finds the same path
    under every greater one. *)
Lemma bfs_loop_mono (left left' : nat) :
  forall (queue : list Entry) (v p : list Cell),
    (left <= left')%nat ->
    bfs_loop g goal left queue v = Some p ->
    bfs_loop g goal left' queue v = Some p.
Proof.
  revert left'. induction left as [|left IH]; intros left' queue v p Hle Hrun.
  - destruct queue as [|[c path] q]; discriminate.
  - destruct left' as [|left']; [lia|].
    destruct queue as [|[c path] q]; [discriminate|].
    cbn [bfs_loop] in *. destruct (bool_decide (c = goal)); [done|].
    apply IH; [lia|exact Hrun].
Qed.

Lemma find_path_bounded_mono (n n' : nat) (p : list Cell) :
  (n <= n')%nat ->
  find_path_bounded n g start_x start_y goal_x goal_y = Some p ->
  find_path_bounded n' g start_x start_y goal_x goal_y = Some p.
Proof. intros Hle. unfold find_path_bounded. by apply bfs_loop_mono. Qed.

(** A goal in a region of at most [max_iterations] cells that no step
    leaves is found. *)
Lemma find_path_bounded_region (max_iterations : nat) (universe : list Cell) :
  In start universe ->
  (forall u n, In u universe -> step g u n -> In n universe) ->
  (List.length universe <= max_iterations)%nat ->
  reachable g start goal ->
  exists p, find_path_bounded max_iterations g start_x start_y goal_x goal_y = Some p.
Proof.
  intros Hstart Hclosed Hlen (p' & Hp').
  destruct (path_between_reach g _ _ _ Hp') as (k & _ & Hr).
  unfold find_path_bounded.
  eapply (bfs_loop_complete g start goal universe).
  - exact Hclosed.
  - apply queue_inv_init.
  - by apply bfs_count_init.
  - exact Hr.
Qed.

(** *** A goal near the head *)

(** The cells that [j] steps reach lie in the diamond of radius [j]. *)
Lemma reach_offsets (j : nat) (c : Cell) :
  reach g start j c ->
  exists a b : Z,
    c = (start_x + a * SIZE, start_y + b * SIZE) /\ Z.abs a + Z.abs b <= Z.of_nat j.
Proof.
  induction 1 as [|j u c Hr (a & b & -> & Hab) (Hadj & _)].
  - exists 0, 0. split; [f_equal; lia|lia].
  - unfold adjacent in Hadj. cbn [fst snd] in Hadj.
    destruct Hadj as [-> | [-> | [-> | ->]]].
    + exists a, (b - 1). split; [f_equal; unfold SIZE; lia|lia].
    + exists a, (b + 1). split; [f_equal; unfold SIZE; lia|lia].
    + exists (a - 1), b. split; [f_equal; unfold SIZE; lia|lia].
    + exists (a + 1), b. split; [f_equal; unfold SIZE; lia|lia].
Qed.

Lemma reach_diamond (k j : nat) (c : Cell) :
  reach g start j c -> (j <= k)%nat -> In c (diamond start k).
Proof.
  intros Hr Hjk. destruct (reach_offsets j c Hr) as (a & b & -> & Hab).
  unfold diamond. apply in_map_iff. exists (a, b). split; [done|].
  unfold diamond_offsets. apply filter_In. split.
  - apply in_prod; apply in_map_iff.
    + exists (Z.to_nat (a + Z.of_nat k)). split; [lia|apply in_seq; lia].
    + exists (Z.to_nat (b + Z.of_nat k)). split; [lia|apply in_seq; lia].
  - cbn [fst snd]. apply Z.leb_le. lia.
Qed.

Lemma diamond_length : List.length (diamond start 9) = 181%nat.
Proof. unfold diamond. rewrite length_map. vm_compute. reflexivity. Qed.

Lemma queue_inv_cells (queue : list Entry) (v : list Cell) (e : Entry) :
  queue_inv g start queue v -> In e queue -> In e.1 v.
Proof.
  intros (level & front & back & -> & Hinv) Hin.
  by destruct (inv_path _ _ _ _ _ _ Hinv e Hin).
Qed.

(** While the goal has not left the queue, the entry at the head of the
    queue is no further from the start than the goal. *)
Lemma queue_head_near (c : Cell) (path : list Cell) (q : list Entry) (v : list Cell)
    (k : nat) :
  queue_inv g start ((c, path) :: q) v ->
  (forall u, In u v -> ~ In u (map fst ((c, path) :: q)) -> u <> goal) ->
  reach g start k goal ->
  (List.length path <= S k)%nat.
Proof.
  intros (level & front & back & Hq & Hinv) Hgoal Hr.
  destruct (le_lt_dec (List.length path) (S k)) as [Hle|Hgt]; [exact Hle|].
  exfalso.
  assert (Hlevel : (S k <= level)%nat /\
            forall e : Entry, In e (front ++ back) -> (S k < List.length e.2)%nat).
  { destruct front as [|f front'].
    - cbn [app] in Hq. subst back.
      pose proof (inv_back _ _ _ _ _ _ Hinv) as Hb.
      rewrite List.Forall_forall in Hb.
      assert (Hl : List.length path = S level) by (apply (Hb (c, path)); by left).
      split; [lia|]. intros e He. cbn [app] in He. rewrite (Hb e He). lia.
    - cbn [app] in Hq. injection Hq as <- Hq.
      pose proof (inv_front _ _ _ _ _ _ Hinv) as Hf.
      pose proof (inv_back _ _ _ _ _ _ Hinv) as Hb.
      rewrite List.Forall_forall in Hf, Hb.
      assert (Hl : List.length path = level) by (apply (Hf (c, path)); by left).
      split; [lia|]. intros e He. apply in_app_or in He as [He|He].
      + rewrite (Hf e He). lia.
      + rewrite (Hb e He). lia. }
  destruct Hlevel as (Hlevel & Hlong).
  assert (Hv : In goal v) by (by apply (inv_near _ _ _ _ _ _ Hinv k)).
  destruct (decide (goal ∈ map fst ((c, path) :: q))) as [Hin|Hout].
  - apply list_elem_of_In, in_map_iff in Hin as (e & He1 & He).
    rewrite Hq in He.
    pose proof (Hlong e He) as Hl.
    pose proof (inv_min _ _ _ _ _ _ Hinv e k He) as Hm.
    rewrite He1 in Hm. specialize (Hm Hr). lia.
  - apply (Hgoal goal Hv); [|done]. intros Hin. by apply Hout, list_elem_of_In.
Qed.

(** The search with the cells that have left the queue, [gone], made
    explicit: they are distinct cells of [ball], a set that holds every cell
    no further from the start than the goal, and each pass adds one. So the
    passes needed never exceed the size of [ball]. *)
Lemma bfs_loop_near (ball : list Cell) (k : nat) :
  (forall j c, reach g start j c -> (j <= k)%nat -> In c ball) ->
  reach g start k goal ->
  forall (left : nat) (queue : list Entry) (v gone : list Cell),
    queue_inv g start queue v ->
    NoDup (map fst queue) ->
    NoDup gone ->
    (forall u, In u gone ->
       In u ball /\ u <> goal /\ In u v /\ ~ In u (map fst queue)) ->
    (forall u, In u v -> In u gone \/ In u (map fst queue)) ->
    (List.length ball <= left + List.length gone)%nat ->
    exists p, bfs_loop g goal left queue v = Some p.
Proof.
  intros Hball Hr.
  induction left as [|left IH]; intros queue v dn Hinv Hndq Hnd Hdone Hv Hlen.
  all: destruct queue as [|[c path] q].
  1,3: exfalso;
       assert (Hg : In goal v) by (by eapply queue_inv_empty);
       destruct (Hv goal Hg) as [Hd|[]];
       by destruct (Hdone goal Hd) as (_ & Hne & _).
  all: assert (Hgoal : forall u, In u v -> ~ In u (map fst ((c, path) :: q)) -> u <> goal).
  1,3: intros u Hu Hnq; destruct (Hv u Hu) as [Hd|Hq]; [|done];
       by destruct (Hdone u Hd) as (_ & Hne & _).
  all: pose proof (queue_head_near c path q v k Hinv Hgoal Hr) as Hnear.
  all: destruct (queue_inv_head _ _ _ _ _ _ Hinv) as (Hpath & Hcv & _).
  all: destruct (path_between_reach g _ _ _ Hpath) as (j & Hj & Hrc).
  all: assert (Hcb : In c ball) by (apply (Hball j c Hrc); lia).
  all: assert (Hcd : ~ In c dn).
  1,3: intros Hd; destruct (Hdone c Hd) as (_ & _ & _ & Hnq); apply Hnq; by left.
  all: assert (Hsize : (S (List.length dn) <= List.length ball)%nat).
  1,3: change (S (List.length dn)) with (List.length (c :: dn));
       apply submseteq_length, NoDup_submseteq;
       [apply NoDup_cons_2; [by rewrite list_elem_of_In|exact Hnd]|];
       intros u Hu; apply list_elem_of_In; apply list_elem_of_In in Hu;
       destruct Hu as [<-|Hu]; [exact Hcb|by destruct (Hdone u Hu)].
  - lia.
  - cbn [bfs_loop]. destruct (bool_decide (c = goal)) eqn:E; [by eauto|].
    apply bool_decide_eq_false in E.
    destruct (expand_spec path (get_neighbors g c.1 c.2) q v)
      as (new & E1 & E2 & Hnew_nd & Hnew & _).
    pose proof (queue_inv_step g start c path q v Hinv) as Hinv'.
    cbv zeta in Hinv'. rewrite E1, E2 in *.
    assert (Hfst : map fst (q ++ map (fun n : Cell => (n, path ++ [n])) new)
                   = map fst q ++ new).
    { rewrite map_app, map_map. cbn [fst]. by rewrite map_id. }
    cbn [map fst] in Hndq. apply list.NoDup_cons in Hndq as (Hcq & Hndq).
    rewrite list_elem_of_In in Hcq.
    apply (IH _ _ (c :: dn)).
    + exact Hinv'.
    + rewrite Hfst. apply list.NoDup_app. split; [exact Hndq|]. split; [|exact Hnew_nd].
      intros u Hu Hn. apply list_elem_of_In in Hu, Hn.
      apply (proj2 (Hnew u Hn)).
      apply in_map_iff in Hu as (e & <- & He).
      apply (queue_inv_cells _ _ e Hinv). by right.
    + apply NoDup_cons_2; [by rewrite list_elem_of_In|exact Hnd].
    + intros u Hu. rewrite Hfst.
      assert (Huv : In u v).
      { destruct Hu as [<-|Hu]; [exact Hcv|]. by destruct (Hdone u Hu) as (_ & _ & ? & _). }
      split; [destruct Hu as [<-|Hu]; [exact Hcb|by destruct (Hdone u Hu)]|].
      split; [destruct Hu as [<-|Hu]; [exact E|by destruct (Hdone u Hu) as (_ & ? & _)]|].
      split; [apply in_or_app; by right|].
      intros Hin. apply in_app_or in Hin as [Hin|Hin].
      * destruct Hu as [<-|Hu]; [done|].
        destruct (Hdone u Hu) as (_ & _ & _ & Hnq). apply Hnq. by right.
      * by apply (proj2 (Hnew u Hin)).
    + intros u Hu. rewrite Hfst. apply in_app_or in Hu as [Hu|Hu].
      * right. apply in_or_app. right. by apply in_rev.
      * destruct (Hv u Hu) as [Hd|[<-|Hq]].
        -- left. by right.
        -- left. by left.
        -- right. apply in_or_app. by left.
    + cbn [List.length]. lia.
Qed.

(** A goal that at most nine steps reach is found, whatever the surface:
    the 181 cells of the diamond of radius 9 cannot use up 200 passes. *)
Lemma find_path_astar_near (p' : list Cell) :
  path_between g start goal p' ->
  (List.length p' <= 10)%nat ->
  exists p, find_path_astar g start_x start_y goal_x goal_y = Some p.
Proof.
  intros Hp' Hlen.
  destruct (path_between_reach g _ _ _ Hp') as (k & Hk & Hr).
  unfold find_path_astar, find_path_bounded.
  apply (bfs_loop_near (diamond start 9) k) with (gone := []).
  - intros j c Hj Hjk. apply (reach_diamond 9 j c Hj). lia.
  - exact Hr.
  - apply queue_inv_init.
  - cbn [map fst]. apply NoDup_singleton.
  - constructor.
  - intros u [].
  - intros u [<-|[]]. right. by left.
  - rewrite diamond_length. cbn [List.length]. lia.
Qed.

(** C1, amended: a sequence that [_find_path_astar] returns starts at the
    head, ends at the goal, moves along edges of the 4-connected free-cell
    graph, and is as short as any such sequence: its length is the
    breadth-first distance. The search returns none when the goal is
    unreachable. When the goal is reachable it returns such a sequence
    provided the goal leaves the queue within the 200 iterations of the
    ceiling: a path found under a ceiling of at most 200 is the path
    returned. That is so whenever a path of at most ten cells (nine steps)
    leads to the goal, whenever the head lies in a region of at most 200
    cells that no step leaves, and so on every surface of fewer than 200
    blocks (every grid up to 10 by 10). Beyond that the search may return
    none for a reachable goal, although any ceiling above the number of
    blocks of the surface would find it. *)
Theorem find_path_astar_shortest :
  (forall p,
      find_path_astar g start_x start_y goal_x goal_y = Some p ->
      path_between g start goal p /\
      forall p', path_between g start goal p' ->
                 (List.length p <= List.length p')%nat) /\
  (~ reachable g start goal ->
   find_path_astar g start_x start_y goal_x goal_y = None) /\
  (forall n p,
      (n <= 200)%nat ->
      find_path_bounded n g start_x start_y goal_x goal_y = Some p ->
      find_path_astar g start_x start_y goal_x goal_y = Some p) /\
  (forall p',
      path_between g start goal p' ->
      (List.length p' <= 10)%nat ->
      exists p, find_path_astar g start_x start_y goal_x goal_y = Some p) /\
  (forall universe : list Cell,
      In start universe ->
      (forall u n, In u universe -> step g u n -> In n universe) ->
      (List.length universe <= 200)%nat ->
      reachable g start goal ->
      exists p, find_path_astar g start_x start_y goal_x goal_y = Some p) /\
  (reachable g start goal ->
   (grid_blocks g < 200)%nat ->
   exists p, find_path_astar g start_x start_y goal_x goal_y = Some p) /\
  (forall n,
      (grid_blocks g < n)%nat ->
      reachable g start goal ->
      exists p, find_path_bounded n g start_x start_y goal_x goal_y = Some p).
Proof.
  split; [|split; [|split; [|split; [|split; [|split]]]]].
  - intros p. apply find_path_bounded_sound.
  - apply find_path_bounded_unreachable.
  - intros n p Hn. by apply find_path_bounded_mono.
  - apply find_path_astar_near.
  - intros universe. apply find_path_bounded_region.
  - intros Hr Hn. by apply find_path_bounded_complete.
  - intros n Hn Hr. by apply find_path_bounded_complete.
Qed.

End PathSearchResults.

(** C1, counterexample: on the 1000 by 800 surface of the game, with the
    one-segment snake at (40,40) and the apple at (920,720), the apple is
    reachable but [_find_path_astar] uses up its 200 iterations and returns
    none. *)
Lemma find_path_astar_gives_up :
  reachable far_apple_game (40, 40) (920, 720) /\
  Utilitybased.find_path_astar far_apple_game 40 40 920 720 = None.
Proof.
  split; [|vm_compute; reflexivity].
  destruct (Utilitybased.find_path_bounded 600 far_apple_game 40 40 920 720)
    as [p|] eqn:E; [|vm_compute in E; discriminate E].
  exists p. by apply find_path_bounded_sound in E as (Hp & _).
Qed.

Lemma find_path_astar_shortest_witness :
  (exists p,
     Utilitybased.find_path_astar maze_game 0 0 0 360 = Some p /\
     List.length p = 28%nat /\
     path_between maze_game (0, 0) (0, 360) p /\
     forall p', path_between maze_game (0, 0) (0, 360) p' -> (28 <= List.length p')%nat) /\
  (exists p,
     Utilitybased.find_path_astar near_apple_game 40 40 80 40 = Some p /\
     path_between near_apple_game (40, 40) (80, 40) p /\
     List.length p = 2%nat).
Proof.
  split.
  - destruct (Utilitybased.find_path_astar maze_game 0 0 0 360) as [p|] eqn:E;
      [|vm_compute in E; discriminate E].
    assert (Hlen : List.length p = 28%nat).
    { vm_compute in E. injection E as <-. reflexivity. }
    destruct (find_path_astar_shortest maze_game 0 0 0 360) as (Hs & _).
    destruct (Hs p E) as (Hp & Hmin).
    exists p. split; [reflexivity|]. split; [exact Hlen|]. split; [exact Hp|].
    intros p' Hp'. rewrite <- Hlen. by apply Hmin.
  - assert (Hnear : path_between near_apple_game (40, 40) (80, 40) [(40, 40); (80, 40)]).
    { split; [reflexivity|]. split; [reflexivity|]. split; [|exact I]. split.
      - right. right. right. reflexivity.
      - split; [cbn; lia|]. split; [cbn; lia|]. cbn. intros i Hi. lia. }
    destruct (find_path_astar_shortest near_apple_game 40 40 80 40)
      as (Hs & _ & _ & Hfound & _).
    destruct (Hfound _ Hnear) as (p & Hp); [cbn; lia|].
    destruct (Hs p Hp) as (Hpath & Hmin).
    exists p. split; [exact Hp|]. split; [exact Hpath|].
    specialize (Hmin _ Hnear). cbn [List.length] in Hmin.
    destruct (path_between_reach near_apple_game _ _ _ Hpath) as (k & Hk & Hrk).
    destruct k as [|k]; [|lia].
    inversion Hrk.
Defined.

(* ===================================================================== *)
(** * Moving the snake *)
(* ===================================================================== *)

Section WalkFacts.

(** The loop of [walk] copies every entry one place towards the tail, from
    index [i] down, and keeps the rest. *)
Lemma follow_lookup (i : nat) :
  forall xs ys : list Z,
    (i < List.length xs)%nat -> (i < List.length ys)%nat ->
    exists xs' ys',
      Stepping.follow i xs ys = Some (xs', ys') /\
      List.length xs' = List.length xs /\ List.length ys' = List.length ys /\
      forall k,
        xs' !! k = (if decide (1 <= k <= i)%nat then xs !! (k - 1)%nat else xs !! k) /\
        ys' !! k = (if decide (1 <= k <= i)%nat then ys !! (k - 1)%nat else ys !! k).
Proof.
  induction i as [|j IH]; intros xs ys Hx Hy.
  - exists xs, ys. split; [done|]. split; [done|]. split; [done|].
    intros k. rewrite !decide_False by lia. done.
  - destruct (lookup_lt_is_Some_2 xs j) as (vx & Hvx); [lia|].
    destruct (lookup_lt_is_Some_2 ys j) as (vy & Hvy); [lia|].
    destruct (IH (<[S j := vx]> xs) (<[S j := vy]> ys)) as (xs' & ys' & Hf & Hlx & Hly & Hk).
    { rewrite length_insert. lia. }
    { rewrite length_insert. lia. }
    exists xs', ys'. split.
    { cbn [Stepping.follow]. rewrite Hvx. cbn [mbind option_bind].
      unfold Stepping.set_item. rewrite decide_True by lia. cbn [mbind option_bind].
      rewrite Hvy. cbn [mbind option_bind]. rewrite decide_True by lia. exact Hf. }
    rewrite length_insert in Hlx, Hly. split; [exact Hlx|]. split; [exact Hly|].
    intros k. destruct (Hk k) as (Hkx & Hky). rewrite Hkx, Hky.
    destruct (decide (1 <= k <= j)%nat) as [Hin|Hout].
    + rewrite !decide_True by lia.
      rewrite !list_lookup_insert_ne by lia. done.
    + destruct (decide (k = S j)) as [->|Hne].
      * rewrite !decide_True by lia.
        rewrite !list_lookup_insert_eq by lia.
        replace (S j - 1)%nat with j by lia. by rewrite Hvx, Hvy.
      * rewrite !decide_False by lia.
        rewrite !list_lookup_insert_ne by lia. done.
Qed.

Lemma nth_lookup_Z (l : list Z) (k : nat) : nth k l 0 = default 0 (l !! k).
Proof.
  revert k. induction l as [|a l IH]; intros [|k]; simpl; done.
Qed.

(** [walk] on the coordinate lists of a well-formed snake: the lengths are
    kept, the head moves one block along the heading and every other entry
    takes the value of the one before it. *)
Lemma walk_lists_spec (d : Direction) (len : nat) (xs ys : list Z) :
  (1 <= len)%nat -> List.length xs = len -> List.length ys = len ->
  exists xs' ys',
    Stepping.walk_lists d len xs ys = Some (xs', ys') /\
    List.length xs' = len /\ List.length ys' = len /\
    (nth 0 xs' 0, nth 0 ys' 0) = Utilitybased.step_cell (nth 0 xs 0) (nth 0 ys 0) d /\
    forall k, (1 <= k < len)%nat ->
      nth k xs' 0 = nth (k - 1) xs 0 /\ nth k ys' 0 = nth (k - 1) ys 0.
Proof.
  intros Hlen Hx Hy.
  destruct (follow_lookup (len - 1) xs ys) as (xs1 & ys1 & Hf & Hlx & Hly & Hk);
    [lia|lia|].
  destruct (lookup_lt_is_Some_2 xs1 0) as (x0 & Hx0); [lia|].
  destruct (lookup_lt_is_Some_2 ys1 0) as (y0 & Hy0); [lia|].
  assert (Hx0' : xs !! 0%nat = Some x0).
  { destruct (Hk 0%nat) as (H & _). rewrite decide_False in H by lia. congruence. }
  assert (Hy0' : ys !! 0%nat = Some y0).
  { destruct (Hk 0%nat) as (_ & H). rewrite decide_False in H by lia. congruence. }
  assert (Hrest : forall (xs2 ys2 : list Z) k, (1 <= k < len)%nat ->
            (forall j, (1 <= j)%nat -> xs2 !! j = xs1 !! j) ->
            (forall j, (1 <= j)%nat -> ys2 !! j = ys1 !! j) ->
            nth k xs2 0 = nth (k - 1) xs 0 /\ nth k ys2 0 = nth (k - 1) ys 0).
  { intros xs2 ys2 k Hkr H2x H2y. rewrite !nth_lookup_Z.
    rewrite H2x, H2y by lia. destruct (Hk k) as (Hkx & Hky).
    rewrite decide_True in Hkx, Hky by lia. by rewrite Hkx, Hky. }
  unfold Stepping.walk_lists. rewrite Hf. cbn [mbind option_bind fst snd].
  unfold Stepping.advance, Stepping.set_item.
  destruct d; rewrite ?Hx0, ?Hy0; cbn [mbind option_bind];
    rewrite decide_True by lia; cbn [mbind option_bind];
    eexists _, _; (split; [reflexivity|]);
    rewrite ?length_insert;
    (split; [lia|]); (split; [lia|]);
    (split;
     [ rewrite !nth_lookup_Z, ?list_lookup_insert_eq by lia;
       rewrite ?Hx0, ?Hy0, ?Hx0', ?Hy0'; reflexivity
     | intros k Hkr; apply Hrest; [exact Hkr| |];
       intros j Hj; rewrite ?list_lookup_insert_ne by lia; reflexivity ]).
Qed.

Lemma utility_walk_spec (s : Utilitybased.Snake) :
  Utilitybased.snake_wf s ->
  exists s',
    UtilitybasedGame.walk s = Some s' /\
    Utilitybased.snake_wf s' /\
    Utilitybased.length s' = Utilitybased.length s /\
    Utilitybased.direction s' = Utilitybased.direction s /\
    (Utilitybased.seg_x s' 0, Utilitybased.seg_y s' 0)
      = Utilitybased.step_cell (Utilitybased.seg_x s 0) (Utilitybased.seg_y s 0)
                               (Utilitybased.direction s) /\
    forall k, (1 <= k < Utilitybased.length s)%nat ->
      Utilitybased.seg_x s' k = Utilitybased.seg_x s (k - 1) /\
      Utilitybased.seg_y s' k = Utilitybased.seg_y s (k - 1).
Proof.
  intros (H1 & Hx & Hy).
  destruct (walk_lists_spec (Utilitybased.direction s) (Utilitybased.length s)
              (Utilitybased.x s) (Utilitybased.y s) H1 Hx Hy)
    as (xs' & ys' & Hw & Hlx & Hly & Hh & Hk).
  unfold UtilitybasedGame.walk. rewrite Hw. cbn [mbind option_bind fst snd].
  eexists. split; [reflexivity|].
  unfold Utilitybased.snake_wf, Utilitybased.seg_x, Utilitybased.seg_y. simpl.
  split; [by repeat split|]. split; [done|]. split; [done|]. split; [exact Hh|exact Hk].
Qed.

Lemma learning_walk_spec (s : Learning.Snake) :
  Learning.snake_wf s ->
  exists s',
    LearningGame.walk s = Some s' /\
    Learning.snake_wf s' /\
    Learning.length s' = Learning.length s /\
    Learning.direction s' = Learning.direction s /\
    (Learning.seg_x s' 0, Learning.seg_y s' 0)
      = Utilitybased.step_cell (Learning.seg_x s 0) (Learning.seg_y s 0)
                               (Learning.direction s) /\
    forall k, (1 <= k < Learning.length s)%nat ->
      Learning.seg_x s' k = Learning.seg_x s (k - 1) /\
      Learning.seg_y s' k = Learning.seg_y s (k - 1).
Proof.
  intros (H1 & Hx & Hy).
  destruct (walk_lists_spec (Learning.direction s) (Learning.length s)
              (Learning.x s) (Learning.y s) H1 Hx Hy)
    as (xs' & ys' & Hw & Hlx & Hly & Hh & Hk).
  unfold LearningGame.walk. rewrite Hw. cbn [mbind option_bind fst snd].
  eexists. split; [reflexivity|].
  unfold Learning.snake_wf, Learning.seg_x, Learning.seg_y. simpl.
  split; [by repeat split|]. split; [done|]. split; [done|]. split; [exact Hh|exact Hk].
Qed.

(** X1: [Snake.walk] on a well-formed snake never raises; it keeps the
    length and the heading, moves the head one block along the heading and
    puts every other segment where the segment before it was. This holds for
    the walk of Utilitybased.py and Modelbased.py and for the walk of
    Learning.py and Learning2.py. *)
Theorem walk_shifts_body (su : Utilitybased.Snake) (sl : Learning.Snake) :
  Utilitybased.snake_wf su ->
  Learning.snake_wf sl ->
  (exists su',
      UtilitybasedGame.walk su = Some su' /\
      Utilitybased.snake_wf su' /\
      Utilitybased.length su' = Utilitybased.length su /\
      Utilitybased.direction su' = Utilitybased.direction su /\
      (Utilitybased.seg_x su' 0, Utilitybased.seg_y su' 0)
        = Utilitybased.step_cell (Utilitybased.seg_x su 0) (Utilitybased.seg_y su 0)
                                 (Utilitybased.direction su) /\
      forall k, (1 <= k < Utilitybased.length su)%nat ->
        Utilitybased.seg_x su' k = Utilitybased.seg_x su (k - 1) /\
        Utilitybased.seg_y su' k = Utilitybased.seg_y su (k - 1)) /\
  (exists sl',
      LearningGame.walk sl = Some sl' /\
      Learning.snake_wf sl' /\
      Learning.length sl' = Learning.length sl /\
      Learning.direction sl' = Learning.direction sl /\
      (Learning.seg_x sl' 0, Learning.seg_y sl' 0)
        = Utilitybased.step_cell (Learning.seg_x sl 0) (Learning.seg_y sl 0)
                                 (Learning.direction sl) /\
      forall k, (1 <= k < Learning.length sl)%nat ->
        Learning.seg_x sl' k = Learning.seg_x sl (k - 1) /\
        Learning.seg_y sl' k = Learning.seg_y sl (k - 1)).
Proof.
  intros Hu Hl. split; [by apply utility_walk_spec|by apply learning_walk_spec].
Qed.

Lemma walk_shifts_body_witness :
  exists su',
    UtilitybasedGame.walk (Utilitybased.snake coiled_game) = Some su' /\
    Utilitybased.seg_x su' 1 = 40 /\ Utilitybased.seg_y su' 1 = 40.
Proof.
  destruct (walk_shifts_body (Utilitybased.snake coiled_game) coiled_learning_snake)
    as ((su' & Hw & _ & _ & _ & _ & Hk) & _).
  - repeat split; simpl; lia.
  - repeat split; simpl; lia.
  - exists su'. split; [exact Hw|]. apply (Hk 1%nat). simpl. lia.
Defined.

(** ** Growing, then walking *)

Lemma utility_increase_length_spec (s : Utilitybased.Snake) :
  Utilitybased.snake_wf s ->
  exists s',
    Utilitybased.increase_length s = Some s' /\
    Utilitybased.snake_wf s' /\
    Utilitybased.length s' = S (Utilitybased.length s) /\
    Utilitybased.direction s' = Utilitybased.direction s /\
    (forall k, (k < Utilitybased.length s)%nat ->
       Utilitybased.seg_x s' k = Utilitybased.seg_x s k /\
       Utilitybased.seg_y s' k = Utilitybased.seg_y s k) /\
    Utilitybased.seg_x s' (Utilitybased.length s)
      = Utilitybased.seg_x s (Utilitybased.length s - 1) /\
    Utilitybased.seg_y s' (Utilitybased.length s)
      = Utilitybased.seg_y s (Utilitybased.length s - 1).
Proof.
  intros (Hu1 & Hux & Huy).
  unfold Utilitybased.increase_length.
  rewrite (last_nth (Utilitybased.x s)), (last_nth (Utilitybased.y s))
    by (eapply nonempty_of_length; eauto).
  rewrite Hux, Huy. eexists. split; [reflexivity|]. simpl.
  unfold Utilitybased.snake_wf, Utilitybased.seg_x, Utilitybased.seg_y. simpl.
  rewrite !length_app, Hux, Huy. simpl.
  split; [split; [lia|split; lia]|]. split; [done|]. split; [done|]. split; [|split].
  - intros k Hk. rewrite !app_nth1 by lia. done.
  - rewrite app_nth2 by lia. by rewrite Hux, Nat.sub_diag.
  - rewrite app_nth2 by lia. by rewrite Huy, Nat.sub_diag.
Qed.

Lemma learning_increase_length_wf (s : Learning.Snake) :
  Learning.snake_wf s ->
  Learning.snake_wf (Learning.increase_length s) /\
  forall k, (k < Learning.length s)%nat ->
    Learning.seg_x (Learning.increase_length s) k = Learning.seg_x s k /\
    Learning.seg_y (Learning.increase_length s) k = Learning.seg_y s k.
Proof.
  intros (H1 & Hx & Hy).
  unfold Learning.snake_wf, Learning.increase_length, Learning.seg_x, Learning.seg_y.
  simpl. rewrite !length_app, Hx, Hy. simpl.
  split; [split; [lia|split; lia]|].
  intros k Hk. rewrite !app_nth1 by lia. done.
Qed.

(** X2: growing and then walking lengthens the snake at the tail. After
    [increase_length] and one [walk] the head has moved one block along the
    heading and segment [k + 1] lies where segment [k] lay before, for every
    segment of the old snake: the old tail cell stays occupied, and in
    Learning.py the placeholder (-1,-1) is gone. *)
Theorem grow_then_walk_extends_tail (su : Utilitybased.Snake) (sl : Learning.Snake) :
  Utilitybased.snake_wf su ->
  Learning.snake_wf sl ->
  (exists su1 su2,
      Utilitybased.increase_length su = Some su1 /\
      UtilitybasedGame.walk su1 = Some su2 /\
      Utilitybased.length su2 = S (Utilitybased.length su) /\
      (Utilitybased.seg_x su2 0, Utilitybased.seg_y su2 0)
        = Utilitybased.step_cell (Utilitybased.seg_x su 0) (Utilitybased.seg_y su 0)
                                 (Utilitybased.direction su) /\
      forall k, (k < Utilitybased.length su)%nat ->
        Utilitybased.seg_x su2 (S k) = Utilitybased.seg_x su k /\
        Utilitybased.seg_y su2 (S k) = Utilitybased.seg_y su k) /\
  (exists sl2,
      LearningGame.walk (Learning.increase_length sl) = Some sl2 /\
      Learning.length sl2 = S (Learning.length sl) /\
      (Learning.seg_x sl2 0, Learning.seg_y sl2 0)
        = Utilitybased.step_cell (Learning.seg_x sl 0) (Learning.seg_y sl 0)
                                 (Learning.direction sl) /\
      forall k, (k < Learning.length sl)%nat ->
        Learning.seg_x sl2 (S k) = Learning.seg_x sl k /\
        Learning.seg_y sl2 (S k) = Learning.seg_y sl k).
Proof.
  intros Hu Hl. split.
  - destruct (utility_increase_length_spec su Hu)
      as (su1 & Hg & Hwf1 & Hlen1 & Hdir1 & Hkeep & _).
    destruct (utility_walk_spec su1 Hwf1) as (su2 & Hw & _ & Hlen2 & _ & Hh & Hk).
    exists su1, su2. split; [exact Hg|]. split; [exact Hw|].
    split; [congruence|]. split.
    + rewrite Hh, Hdir1. destruct Hu as (Hu1 & _).
      destruct (Hkeep 0%nat) as (-> & ->); [lia|]. done.
    + intros k Hlt. destruct (Hk (S k)) as (Hx & Hy); [lia|].
      rewrite Hx, Hy. replace (S k - 1)%nat with k by lia. by apply Hkeep.
  - destruct (learning_increase_length_wf sl Hl) as (Hwf1 & Hkeep).
    destruct (learning_walk_spec _ Hwf1) as (sl2 & Hw & _ & Hlen2 & _ & Hh & Hk).
    exists sl2. split; [exact Hw|]. split; [exact Hlen2|]. split.
    + rewrite Hh. destruct Hl as (Hl1 & _).
      destruct (Hkeep 0%nat) as (-> & ->); [lia|]. done.
    + intros k Hlt. destruct (Hk (S k)) as (Hx & Hy); [simpl; lia|].
      rewrite Hx, Hy. replace (S k - 1)%nat with k by lia. by apply Hkeep.
Qed.

Lemma grow_then_walk_extends_tail_witness :
  exists sl2,
    LearningGame.walk (Learning.increase_length coiled_learning_snake) = Some sl2 /\
    Learning.seg_x sl2 5 = 40 /\ Learning.seg_y sl2 5 = 120.
Proof.
  destruct (grow_then_walk_extends_tail (Utilitybased.snake coiled_game)
              coiled_learning_snake) as (_ & (sl2 & Hw & _ & _ & Hk)).
  - repeat split; simpl; lia.
  - repeat split; simpl; lia.
  - exists sl2. split; [exact Hw|]. apply (Hk 4%nat). simpl. lia.
Defined.

(** ** Headings *)

(** X3: setting a heading never reverses the snake. After
    [_execute_move(d)] (Utilitybased.py, and [_set_snake_direction] of
    Modelbased.py) or the action dispatch of [learning_control]
    (Learning.py), the heading is not the reverse of the heading before: it
    is [d] when [d] is not the reverse, and the call changes nothing when
    [d] is the reverse. The body is never touched. *)
Theorem heading_never_reverses
    (g : Utilitybased.Game) (sl : Learning.Snake) (d : Direction) :
  let cur := Utilitybased.direction (Utilitybased.snake g) in
  let g' := Utilitybased.execute_move g d in
  let sl' := LearningGame.apply_action sl d in
  (Utilitybased.direction (Utilitybased.snake g') <> Utilitybased.opposites cur /\
   (d <> Utilitybased.opposites cur -> Utilitybased.direction (Utilitybased.snake g') = d) /\
   (d = Utilitybased.opposites cur -> g' = g) /\
   Utilitybased.x (Utilitybased.snake g') = Utilitybased.x (Utilitybased.snake g) /\
   Utilitybased.y (Utilitybased.snake g') = Utilitybased.y (Utilitybased.snake g) /\
   Utilitybased.length (Utilitybased.snake g') = Utilitybased.length (Utilitybased.snake g) /\
   Utilitybased.apple g' = Utilitybased.apple g) /\
  (Learning.direction sl' <> Utilitybased.opposites (Learning.direction sl) /\
   (d <> Utilitybased.opposites (Learning.direction sl) -> Learning.direction sl' = d) /\
   (d = Utilitybased.opposites (Learning.direction sl) -> sl' = sl) /\
   Learning.x sl' = Learning.x sl /\ Learning.y sl' = Learning.y sl /\
   Learning.length sl' = Learning.length sl).
Proof.
  intros cur g' sl'. subst cur g' sl'. split.
  - destruct g as [w h [dir len xs ys] a]. unfold Utilitybased.execute_move.
    destruct d, dir; cbn; repeat split; intros; first [done | congruence].
  - destruct sl as [dir len xs ys].
    destruct d, dir; cbn; repeat split; intros; first [done | congruence].
Qed.

Lemma heading_never_reverses_witness :
  Utilitybased.direction
    (Utilitybased.snake (Utilitybased.execute_move corner_game Right)) = Left.
Proof.
  destruct (heading_never_reverses corner_game coiled_learning_snake Right)
    as ((_ & _ & Hsame & _) & _).
  rewrite Hsame; reflexivity.
Defined.

(** X4: [_get_direction_to_position] inverts a one-block step: from a cell
    to the cell one block away in direction [d] it answers [d]. It answers
    nothing exactly when the two cells are the same, and a difference along
    x decides before a difference along y. *)
Theorem get_direction_to_position_inverts_step (hx hy tx ty : Z) (d : Direction) :
  Utilitybased.get_direction_to_position hx hy
    (Utilitybased.step_cell hx hy d).1 (Utilitybased.step_cell hx hy d).2 = Some d /\
  (Utilitybased.get_direction_to_position hx hy tx ty = None <-> tx = hx /\ ty = hy) /\
  (tx < hx -> Utilitybased.get_direction_to_position hx hy tx ty = Some Left) /\
  (hx < tx -> Utilitybased.get_direction_to_position hx hy tx ty = Some Right) /\
  (tx = hx -> ty < hy -> Utilitybased.get_direction_to_position hx hy tx ty = Some Up) /\
  (tx = hx -> hy < ty -> Utilitybased.get_direction_to_position hx hy tx ty = Some Down).
Proof.
  unfold Utilitybased.get_direction_to_position.
  split; [|split; [|split; [|split; [|split]]]].
  - destruct d; simpl; unfold SIZE;
      repeat (match goal with
              | |- context [?a <? ?b] => destruct (Z.ltb_spec a b); try lia
              end); reflexivity.
  - destruct (Z.ltb_spec (tx - hx) 0), (Z.ltb_spec 0 (tx - hx)),
      (Z.ltb_spec (ty - hy) 0), (Z.ltb_spec 0 (ty - hy));
      split; try discriminate; try lia; intros; try reflexivity; lia.
  - intros H. destruct (Z.ltb_spec (tx - hx) 0); [done|lia].
  - intros H. destruct (Z.ltb_spec (tx - hx) 0); [lia|].
    destruct (Z.ltb_spec 0 (tx - hx)); [done|lia].
  - intros -> H. rewrite Z.sub_diag. simpl.
    destruct (Z.ltb_spec (ty - hy) 0); [done|lia].
  - intros -> H. rewrite Z.sub_diag. simpl.
    destruct (Z.ltb_spec (ty - hy) 0); [lia|].
    destruct (Z.ltb_spec 0 (ty - hy)); [done|lia].
Qed.

End WalkFacts.

(* ===================================================================== *)
(** * One step of the game in Utilitybased.py *)
(* ===================================================================== *)

Section PlayFacts.
Import Utilitybased UtilitybasedGame.

Lemma self_collision_true (g : Game) :
  self_collision g = true <->
  exists i, (4 <= i < length (snake g))%nat /\
    seg_x (snake g) 0 = seg_x (snake g) i /\ seg_y (snake g) 0 = seg_y (snake g) i.
Proof.
  unfold self_collision.
  destruct (Nat.ltb_spec (length (snake g)) 4) as [Hlt|Hge].
  - split; [discriminate|]. intros (i & Hi & _). lia.
  - rewrite existsb_seq. split.
    + intros (i & Hi & Hc). apply utility_is_collision_eq in Hc.
      exists i. split; [lia|done].
    + intros (i & Hi & Hc). exists i. split; [lia|].
      by apply utility_is_collision_eq.
Qed.

Lemma check_wall_collision_true (g : Game) :
  check_wall_collision g = true <->
  ~ (0 <= seg_x (snake g) 0 < surface_width g /\
     0 <= seg_y (snake g) 0 < surface_height g).
Proof.
  unfold check_wall_collision.
  destruct (Z.ltb_spec (seg_x (snake g) 0) 0),
    (Z.leb_spec (surface_width g) (seg_x (snake g) 0)),
    (Z.ltb_spec (seg_y (snake g) 0) 0),
    (Z.leb_spec (surface_height g) (seg_y (snake g) 0)); simpl;
    split; try discriminate; try lia; try done; intros H'; exfalso; apply H'; lia.
Qed.

(** X5: the two terminal tests of [play] are weaker than the planner's
    blocked test. Whenever [self_collision] or [check_wall_collision] holds,
    [_would_collide] holds at the cell of the head; so a head on a cell that
    [_would_collide] accepts ends no game. *)
Theorem terminal_tests_imply_would_collide (g : Game) :
  (self_collision g = true ->
   would_collide g (seg_x (snake g) 0) (seg_y (snake g) 0) = true) /\
  (check_wall_collision g = true ->
   would_collide g (seg_x (snake g) 0) (seg_y (snake g) 0) = true) /\
  (would_collide g (seg_x (snake g) 0) (seg_y (snake g) 0) = false ->
   self_collision g = false /\ check_wall_collision g = false).
Proof.
  assert (H1 : self_collision g = true ->
               would_collide g (seg_x (snake g) 0) (seg_y (snake g) 0) = true).
  { intros Hs. apply self_collision_true in Hs as (i & Hi & Hx & Hy).
    apply not_false_iff_true. intros Hf.
    apply (would_collide_free g (seg_x (snake g) 0, seg_y (snake g) 0)) in Hf
      as (_ & _ & Hno).
    apply (Hno i); [lia|done]. }
  assert (H2 : check_wall_collision g = true ->
               would_collide g (seg_x (snake g) 0) (seg_y (snake g) 0) = true).
  { intros Hw. apply check_wall_collision_true in Hw.
    apply not_false_iff_true. intros Hf.
    apply (would_collide_free g (seg_x (snake g) 0, seg_y (snake g) 0)) in Hf
      as (Hx & Hy & _).
    apply Hw. done. }
  split; [exact H1|]. split; [exact H2|].
  intros Hf. split; apply not_true_iff_false; intros Ht;
    [apply H1 in Ht|apply H2 in Ht]; congruence.
Qed.

Lemma terminal_tests_imply_would_collide_witness :
  self_collision start_game = false /\ check_wall_collision start_game = false.
Proof.
  destruct (terminal_tests_imply_would_collide start_game) as (_ & _ & H).
  apply H. reflexivity.
Defined.

(** [Apple.move] raises nothing on a grid of at least one block each way. *)
Lemma move_total (a : Apple) (pos : list Cell) (d1 d2 : nat) :
  1 <= grid_width a -> 1 <= grid_height a ->
  exists a', move a pos d1 d2 = Some a' /\
             (valid_positions a pos <> [] -> (apple_x a', apple_y a') ∉ pos).
Proof.
  intros Hw Hh.
  destruct (valid_positions a pos) as [|c l] eqn:E.
  - unfold move. rewrite E.
    destruct (random_randint_range d1 0 (grid_width a - 1)) as (rx & -> & _); [lia|].
    destruct (random_randint_range d2 0 (grid_height a - 1)) as (ry & -> & _); [lia|].
    eexists. split; [reflexivity|done].
  - destruct (move_to_free_cell a pos d1 d2) as (a' & Hm & Hfree); [by rewrite E|].
    exists a'. split; [exact Hm|done].
Qed.

Lemma with_snake_self_collision (g : Game) (s : Snake) (a : Apple) (c : Cell) :
  free_cell g c ->
  (seg_x s 0, seg_y s 0) = c ->
  (forall k, (4 <= k < length s)%nat ->
     exists i, (1 <= i < length (snake g))%nat /\
               seg_x s k = seg_x (snake g) i /\ seg_y s k = seg_y (snake g) i) ->
  let g' := {| surface_width := surface_width g; surface_height := surface_height g;
               snake := s; apple := a |} in
  self_collision g' = false /\ check_wall_collision g' = false.
Proof.
  intros Hfree Hhead Hsegs g'. subst c. destruct Hfree as (Hx & Hy & Hno).
  cbn [fst snd] in Hx, Hy, Hno. split.
  - apply not_true_iff_false. intros Ht.
    apply self_collision_true in Ht as (k & Hk & Hkx & Hky).
    cbn [snake g'] in Hk, Hkx, Hky.
    destruct (Hsegs k Hk) as (i & Hi & Hix & Hiy).
    apply (Hno i Hi). split; congruence.
  - apply not_true_iff_false. intros Ht. apply check_wall_collision_true in Ht.
    apply Ht. cbn [snake surface_width surface_height g']. done.
Qed.

(** What [play] does besides the two terminal tests. *)
Lemma play_steps (st : PlayState) (d1 d2 : nat) :
  snake_wf (snake (game st)) ->
  1 <= grid_width (apple (game st)) -> 1 <= grid_height (apple (game st)) ->
  exists s1 s' a' speed',
    walk (snake (game st)) = Some s1 /\
    let g' := {| surface_width := surface_width (game st);
                 surface_height := surface_height (game st);
                 snake := s'; apple := a' |} in
    let st' := {| game := g'; game_speed := speed' |} in
    play st d1 d2 =
      Some (st', if self_collision g' then Some SelfCollision
                 else if check_wall_collision g' then Some WallCollision else None) /\
    snake_wf s' /\
    (seg_x s' 0, seg_y s' 0) = (seg_x s1 0, seg_y s1 0) /\
    (forall k, (k < length s1)%nat -> seg_x s' k = seg_x s1 k /\ seg_y s' k = seg_y s1 k) /\
    (is_collision (seg_x s1 0) (seg_y s1 0)
                  (apple_x (apple (game st))) (apple_y (apple (game st))) = false ->
     s' = s1 /\ a' = apple (game st) /\ speed' = game_speed st) /\
    (is_collision (seg_x s1 0) (seg_y s1 0)
                  (apple_x (apple (game st))) (apple_y (apple (game st))) = true ->
     length s' = S (length s1) /\
     seg_x s' (length s1) = seg_x s1 (length s1 - 1) /\
     seg_y s' (length s1) = seg_y s1 (length s1 - 1) /\
     speed' = speed_after_apple (length s') (game_speed st) /\
     (valid_positions (apple (game st)) (get_positions s') <> [] ->
      (apple_x a', apple_y a') ∉ get_positions s')).
Proof.
  intros Hwf Hgw Hgh.
  destruct (utility_walk_spec _ Hwf) as (s1 & Hw & Hwf1 & Hlen1 & Hdir1 & Hh1 & Hk1).
  unfold play. rewrite Hw. cbn [mbind option_bind].
  destruct (is_collision (seg_x s1 0) (seg_y s1 0)
              (apple_x (apple (game st))) (apple_y (apple (game st)))) eqn:Eat.
  - destruct (utility_increase_length_spec s1 Hwf1)
      as (s2 & Hg & Hwf2 & Hlen2 & Hdir2 & Hkeep & Hnx & Hny).
    destruct (move_total (apple (game st)) (get_positions s2) d1 d2 Hgw Hgh)
      as (a' & Hm & Hfree).
    rewrite Hg. cbn [mbind option_bind]. rewrite Hm. cbn [mbind option_bind fst snd].
    exists s1, s2, a', (speed_after_apple (length s2) (game_speed st)).
    split; [reflexivity|]. cbv zeta. split.
    { destruct (self_collision _); [reflexivity|].
      destruct (check_wall_collision _); reflexivity. }
    split; [exact Hwf2|]. split.
    { destruct Hwf1 as (H1 & _). destruct (Hkeep 0%nat) as (-> & ->); [lia|]. done. }
    split; [exact Hkeep|]. split; [intros H; congruence|].
    intros _. split; [exact Hlen2|]. split; [exact Hnx|]. split; [exact Hny|].
    split; [reflexivity|exact Hfree].
  - cbn [mbind option_bind fst snd].
    exists s1, s1, (apple (game st)), (game_speed st).
    split; [reflexivity|]. cbv zeta. split.
    { destruct (self_collision _); [reflexivity|].
      destruct (check_wall_collision _); reflexivity. }
    split; [exact Hwf1|]. split; [reflexivity|]. split; [done|].
    split; [done|intros H; congruence].
Qed.

Lemma play_unblocked_ahead (st : PlayState) (d1 d2 : nat) :
  let g := game st in
  let ahead := step_cell (seg_x (snake g) 0) (seg_y (snake g) 0) (direction (snake g)) in
  snake_wf (snake g) ->
  1 <= grid_width (apple g) -> 1 <= grid_height (apple g) ->
  would_collide g ahead.1 ahead.2 = false ->
  exists st',
    play st d1 d2 = Some (st', None) /\
    (seg_x (snake (game st')) 0, seg_y (snake (game st')) 0) = ahead.
Proof.
  intros g ahead Hwf Hgw Hgh Hfree.
  destruct (utility_walk_spec _ Hwf) as (s1 & Hw & Hwf1 & Hlen1 & Hdir1 & Hh1 & Hk1).
  destruct (play_steps st d1 d2 Hwf Hgw Hgh)
    as (s1' & s' & a' & speed' & Hw' & Hplay & Hwf' & Hhead & Hkeep & Hno & Hyes).
  fold g in Hw'. rewrite Hw in Hw'. injection Hw' as <-.
  cbv zeta in Hplay.
  apply (would_collide_free g ahead) in Hfree.
  assert (Hhead' : (seg_x s' 0, seg_y s' 0) = ahead) by (rewrite Hhead; exact Hh1).
  destruct (with_snake_self_collision g s' a' ahead Hfree Hhead') as (Hsc & Hwc).
  { intros k Hk.
    destruct (decide (k < length s1)%nat) as [Hlt|Hge].
    - destruct (Hkeep k Hlt) as (-> & ->).
      destruct (Hk1 k) as (-> & ->); [lia|].
      exists (k - 1)%nat. split; [lia|done].
    - destruct (is_collision (seg_x s1 0) (seg_y s1 0) (apple_x (apple (game st)))
                  (apple_y (apple (game st)))) eqn:Eat.
      + destruct (Hyes eq_refl) as (Hlen' & Hnx & Hny & _).
        assert (k = length s1) as -> by lia.
        rewrite Hnx, Hny.
        destruct (Hk1 (length s1 - 1)%nat) as (-> & ->); [lia|].
        exists (length s1 - 1 - 1)%nat. split; [lia|done].
      + destruct (Hno eq_refl) as (-> & _). lia. }
  fold g in Hplay. cbv zeta in Hsc, Hwc. rewrite Hsc, Hwc in Hplay.
  eexists. split; [exact Hplay|]. exact Hhead'.
Qed.

(** X6: a move onto a cell that [_would_collide] accepts ends no game. If
    the cell one block ahead of the head, along the heading, is not blocked,
    [play] raises neither "Self Collision!" nor "Wall Collision!", nor
    anything else, whether or not the apple is eaten on that cell. *)
Theorem play_survives_unblocked_move (st : PlayState) (d1 d2 : nat) :
  let g := game st in
  let ahead := step_cell (seg_x (snake g) 0) (seg_y (snake g) 0) (direction (snake g)) in
  snake_wf (snake g) ->
  1 <= grid_width (apple g) -> 1 <= grid_height (apple g) ->
  would_collide g ahead.1 ahead.2 = false ->
  exists st',
    play st d1 d2 = Some (st', None) /\
    (seg_x (snake (game st')) 0, seg_y (snake (game st')) 0) = ahead.
Proof. exact (play_unblocked_ahead st d1 d2). Qed.

Lemma play_survives_unblocked_move_witness :
  exists st',
    play {| game := start_game; game_speed := initial_speed |} 0 0 = Some (st', None) /\
    (seg_x (snake (game st')) 0, seg_y (snake (game st')) 0) = (40, 80).
Proof.
  apply (play_survives_unblocked_move
           {| game := start_game; game_speed := initial_speed |} 0 0).
  - apply init_snake_wf.
  - vm_compute. discriminate.
  - vm_compute. discriminate.
  - reflexivity.
Defined.

(** X7: [play] on a well-formed snake raises nothing but its two crashes.
    The snake stays well formed; its length, and so the score, grows by
    exactly one when the head lands on the apple and is unchanged otherwise;
    an eaten apple is put on a cell off the snake as long as a candidate
    cell is free, and an apple that is not eaten stays where it is. *)
Theorem play_grows_on_apple (st : PlayState) (d1 d2 : nat) :
  let g := game st in
  snake_wf (snake g) ->
  1 <= grid_width (apple g) -> 1 <= grid_height (apple g) ->
  exists s1 st' crash,
    walk (snake g) = Some s1 /\
    play st d1 d2 = Some (st', crash) /\
    snake_wf (snake (game st')) /\
    surface_width (game st') = surface_width g /\
    surface_height (game st') = surface_height g /\
    ((seg_x s1 0, seg_y s1 0) = (apple_x (apple g), apple_y (apple g)) ->
     length (snake (game st')) = S (length (snake g)) /\
     (valid_positions (apple g) (get_positions (snake (game st'))) <> [] ->
      (apple_x (apple (game st')), apple_y (apple (game st')))
        ∉ get_positions (snake (game st')))) /\
    ((seg_x s1 0, seg_y s1 0) <> (apple_x (apple g), apple_y (apple g)) ->
     snake (game st') = s1 /\
     length (snake (game st')) = length (snake g) /\
     apple (game st') = apple g /\
     game_speed st' = game_speed st).
Proof.
  intros g Hwf Hgw Hgh.
  destruct (utility_walk_spec _ Hwf) as (s1 & Hw & Hwf1 & Hlen1 & _).
  destruct (play_steps st d1 d2 Hwf Hgw Hgh)
    as (s1' & s' & a' & speed' & Hw' & Hplay & Hwf' & Hhead & Hkeep & Hno & Hyes).
  fold g in Hw'. rewrite Hw in Hw'. injection Hw' as <-.
  cbv zeta in Hplay. fold g in Hplay, Hno, Hyes.
  eexists s1, _, _. split; [exact Hw|]. split; [exact Hplay|].
  cbn [game snake apple surface_width surface_height game_speed].
  split; [exact Hwf'|]. split; [reflexivity|]. split; [reflexivity|]. split.
  - intros [= Hx Hy].
    destruct Hyes as (Hlen' & _ & _ & _ & Hfree).
    { apply utility_is_collision_eq. done. }
    split; [congruence|exact Hfree].
  - intros Hne.
    destruct Hno as (-> & -> & ->).
    { apply not_true_iff_false. intros Ht.
      apply utility_is_collision_eq in Ht as (Hx & Hy). apply Hne. congruence. }
    done.
Qed.

Lemma play_grows_on_apple_witness :
  exists s1 st' crash,
    walk (snake start_game) = Some s1 /\
    play {| game := start_game; game_speed := initial_speed |} 3 4 = Some (st', crash) /\
    snake_wf (snake (game st')).
Proof.
  destruct (play_grows_on_apple {| game := start_game; game_speed := initial_speed |} 3 4)
    as (s1 & st' & crash & Hw & Hp & Hwf & _).
  - apply init_snake_wf.
  - vm_compute. discriminate.
  - vm_compute. discriminate.
  - exists s1, st', crash. split; [exact Hw|]. split; [exact Hp|exact Hwf].
Defined.

(** ** The speed of the game *)

Lemma speed_after_apple_bounds (len : nat) (speed : Qc) :
  (speed_after_apple len speed <= speed)%Qc /\
  ((Q2Qc (5 # 100) <= speed)%Qc -> (Q2Qc (5 # 100) <= speed_after_apple len speed)%Qc).
Proof.
  unfold speed_after_apple.
  destruct ((len mod 3 =? 0)%nat && bool_decide (Q2Qc (5 # 100) < speed)%Qc) eqn:E.
  - apply andb_true_iff in E as (_ & E). apply bool_decide_eq_true in E.
    destruct (decide (Q2Qc (5 # 100) < speed - Q2Qc (2 # 100))%Qc) as [Hd|Hd].
    + split; [|intros _; by apply Qclt_le_weak].
      rewrite <- (Qcplus_0_r speed) at 2. unfold Qcminus.
      apply Qcplus_le_mono_l. done.
    + split; [by apply Qclt_le_weak|intros _; apply Qcle_refl].
  - split; [apply Qcle_refl|done].
Qed.

(** X8: [play] never slows the game down and never takes [game_speed] below
    0.05: a speed between 0.05 and 0.15 stays there, so the frame rate
    [int(1 / game_speed)] that [run] hands to the clock is always defined. *)
Theorem play_keeps_speed_in_range
    (st st' : PlayState) (d1 d2 : nat) (crash : option Crash) :
  play st d1 d2 = Some (st', crash) ->
  (Q2Qc (5 # 100) <= game_speed st)%Qc ->
  (game_speed st <= initial_speed)%Qc ->
  (Q2Qc (5 # 100) <= game_speed st')%Qc /\
  (game_speed st' <= game_speed st)%Qc /\
  (game_speed st' <= initial_speed)%Qc /\
  game_speed st' <> Q2Qc 0.
Proof.
  intros Hplay Hlo Hhi.
  assert (H : (Q2Qc (5 # 100) <= game_speed st')%Qc /\
              (game_speed st' <= game_speed st)%Qc).
  { unfold play in Hplay.
    destruct (walk (snake (game st))) as [s1|]; [|discriminate].
    cbn [mbind option_bind] in Hplay.
    destruct (is_collision _ _ _ _).
    - destruct (increase_length s1) as [s2|]; [|discriminate].
      cbn [mbind option_bind] in Hplay.
      destruct (move _ _ _ _) as [a'|]; [|discriminate].
      cbn [mbind option_bind fst snd] in Hplay.
      destruct (speed_after_apple_bounds (length s2) (game_speed st)) as (H1 & H2).
      destruct (self_collision _); [|destruct (check_wall_collision _)];
        injection Hplay as <- _; cbn [game_speed]; split; auto.
    - cbn [mbind option_bind fst snd] in Hplay.
      destruct (self_collision _); [|destruct (check_wall_collision _)];
        injection Hplay as <- _; cbn [game_speed]; split; auto; apply Qcle_refl. }
  destruct H as (H1 & H2). split; [exact H1|]. split; [exact H2|].
  split; [by eapply Qcle_trans|].
  intros E. rewrite E in H1. by apply Qcle_not_lt in H1.
Qed.

Lemma play_keeps_speed_in_range_witness :
  exists st' crash,
    play {| game := start_game; game_speed := initial_speed |} 0 0 = Some (st', crash) /\
    (Q2Qc (5 # 100) <= game_speed st')%Qc.
Proof.
  destruct (play {| game := start_game; game_speed := initial_speed |} 0 0)
    as [[st' crash]|] eqn:E; [|vm_compute in E; discriminate E].
  exists st', crash. split; [reflexivity|].
  apply (play_keeps_speed_in_range _ st' 0 0 crash E); [discriminate|apply Qcle_refl].
Defined.

End PlayFacts.

(* ===================================================================== *)
(** * What the planning agent picks *)
(* ===================================================================== *)

Section ChoiceFacts.
Import Utilitybased UtilitybasedGame.

#[local] Arguments execute_move : simpl never.

Variable math_sqrt : Qc -> Qc.
Hypothesis math_sqrt_pos : forall q, (Q2Qc 0 < q)%Qc -> (Q2Qc 0 < math_sqrt q)%Qc.

(** The moves [_evaluate_moves] scores are the candidates that neither
    reverse the snake nor collide, in the order of the candidates. *)
Lemma evaluate_loop_moves (g : Game) (ax ay : Z) (l : list (Direction * Cell))
    (r : list (Direction * Qc)) :
  evaluate_loop math_sqrt g ax ay l = Some r ->
  map fst r =
  map fst (List.filter
             (fun e : Direction * Cell =>
                negb (is_opposite_direction g e.1) && negb (would_collide g e.2.1 e.2.2))
             l).
Proof.
  revert r. induction l as [|[d n] l IH]; intros r; cbn [evaluate_loop List.filter fst snd].
  - by intros [= <-].
  - destruct (is_opposite_direction g d); cbn [negb andb]; [apply IH|].
    destruct (would_collide g n.1 n.2); cbn [negb]; [apply IH|].
    destruct (calculate_move_score math_sqrt g n.1 n.2 ax ay) as [t|]; [|discriminate].
    cbn [mbind option_bind].
    destruct (evaluate_loop math_sqrt g ax ay l) as [rest|]; [|discriminate].
    cbn [mbind option_bind]. intros [= <-]. cbn [map fst]. f_equal. by apply IH.
Qed.

(** [max] returns an entry of the list whose score no entry exceeds. *)
Lemma max_from_spec (l : list (Direction * Qc)) (m : Direction * Qc) :
  In (max_from m l) (m :: l) /\
  forall e, In e (m :: l) -> (e.2 <= (max_from m l).2)%Qc.
Proof.
  revert m. induction l as [|a l IH]; intros m; cbn [max_from].
  - split; [by left|]. intros e [<-|[]]. apply Qcle_refl.
  - destruct (decide (m.2 < a.2)%Qc) as [Hlt|Hge].
    + destruct (IH a) as (Hin & Hmax). split.
      * right. exact Hin.
      * intros e [<-|He]; [|by apply Hmax].
        eapply Qcle_trans; [by apply Qclt_le_weak|]. apply Hmax. by left.
    + destruct (IH m) as (Hin & Hmax). split.
      * destruct Hin as [Hin|Hin]; [by left|right; by right].
      * intros e [<-|[<-|He]].
        -- apply Hmax. by left.
        -- eapply Qcle_trans; [by apply Qcnot_lt_le|]. apply Hmax. by left.
        -- apply Hmax. by right.
Qed.

(** The first step of a path that the search returns leads to a cell that
    is not blocked, and [_get_direction_to_position] names its heading. *)
Lemma path_direction_unblocked (g : Game) (hx hy ax ay : Z) (d : Direction) :
  path_direction hx hy (find_path_astar g hx hy ax ay) = Some d ->
  would_collide g (step_cell hx hy d).1 (step_cell hx hy d).2 = false.
Proof.
  unfold path_direction.
  destruct (find_path_astar g hx hy ax ay) as [p|] eqn:E; [|discriminate].
  apply find_path_bounded_sound in E as ((Hh & _ & Hw) & _).
  destruct p as [|a [|c p]]; cbn [List.length]; try discriminate.
  cbn [Nat.ltb Nat.leb lookup list_lookup hd_error] in *.
  injection Hh as ->. destruct Hw as ((Hadj & Hfree) & _).
  apply would_collide_free in Hfree.
  unfold get_direction_to_position.
  destruct Hadj as [-> | [-> | [-> | ->]]]; cbn [fst snd] in *; unfold SIZE in *;
    repeat (match goal with
            | |- context [?a <? ?b] => destruct (Z.ltb_spec a b); try lia
            end); intros [= <-]; exact Hfree.
Qed.

(** The stage of the cascade that decides, and what it hands over. *)
Lemma auto_control_cases (g : Game) :
  let hx := seg_x (snake g) 0 in
  let hy := seg_y (snake g) 0 in
  let ax := apple_x (apple g) in
  let ay := apple_y (apple g) in
  exists d,
    auto_control math_sqrt g = Some (Some d, execute_move g d) /\
    match path_direction hx hy (find_path_astar g hx hy ax ay) with
    | Some d1 => d = d1
    | None =>
        exists r, evaluate_moves math_sqrt g hx hy ax ay = Some r /\
          match r with
          | m :: l => d = (max_from m l).1
          | [] => emergency_move g hx hy = (Some d, execute_move g d)
          end
    end.
Proof.
  intros hx hy ax ay. unfold auto_control. fold hx hy ax ay.
  destruct (path_direction hx hy (find_path_astar g hx hy ax ay)) as [d1|].
  - exists d1. done.
  - destruct (evaluate_loop_Some math_sqrt math_sqrt_pos g ax ay (candidates hx hy))
      as (r & Hr).
    unfold evaluate_moves. rewrite (bind_Some _ _ _ Hr).
    destruct r as [|m l].
    + destruct (emergency_move_decides g hx hy) as (d & Hd & _).
      exists d. split; [by rewrite Hd|]. exists []. done.
    + exists (max_from m l).1. split; [done|]. exists (m :: l). done.
Qed.

Lemma candidates_filter_elem (g : Game) (hx hy : Z) (d : Direction) :
  In d (map fst (List.filter
                   (fun e : Direction * Cell =>
                      negb (is_opposite_direction g e.1) &&
                      negb (would_collide g e.2.1 e.2.2))
                   (candidates hx hy)))
  <-> d <> opposites (direction (snake g)) /\
      would_collide g (step_cell hx hy d).1 (step_cell hx hy d).2 = false.
Proof.
  rewrite in_map_iff. split.
  - intros ([d' c] & <- & Hin). apply filter_In in Hin as (Hin & Hok).
    cbn [fst snd] in *. apply andb_true_iff in Hok as (Hop & Hfree).
    rewrite negb_true_iff in Hop, Hfree.
    unfold is_opposite_direction in Hop. apply bool_decide_eq_false in Hop.
    split; [exact Hop|].
    unfold candidates in Hin. cbn [In] in Hin.
    destruct Hin as [[= <- <-]|[[= <- <-]|[[= <- <-]|[[= <- <-]|[]]]]]; exact Hfree.
  - intros (Hop & Hfree). exists (d, step_cell hx hy d). split; [done|].
    apply filter_In. split.
    + unfold candidates. destruct d; cbn; auto.
    + cbn [fst snd]. rewrite Hfree. unfold is_opposite_direction.
      rewrite bool_decide_eq_false_2 by done. done.
Qed.

Lemma auto_control_unblocked (g : Game) (d : Direction) (g' : Game) :
  let hx := seg_x (snake g) 0 in
  let hy := seg_y (snake g) 0 in
  auto_control math_sqrt g = Some (Some d, g') ->
  ((exists p, find_path_astar g hx hy (apple_x (apple g)) (apple_y (apple g)) = Some p /\
              (2 <= List.length p)%nat) \/
   (exists d0, d0 <> opposites (direction (snake g)) /\
               would_collide g (step_cell hx hy d0).1 (step_cell hx hy d0).2 = false)) ->
  g' = execute_move g d /\
  would_collide g (step_cell hx hy d).1 (step_cell hx hy d).2 = false /\
  (path_direction hx hy
     (find_path_astar g hx hy (apple_x (apple g)) (apple_y (apple g))) = None ->
   d <> opposites (direction (snake g))).
Proof.
  intros hx hy Hrun Hsafe.
  destruct (auto_control_cases g) as (d' & Hd' & Hcase).
  fold hx hy in Hcase. rewrite Hrun in Hd'. injection Hd' as <- ->.
  split; [done|].
  destruct (path_direction hx hy (find_path_astar g hx hy _ _)) as [d1|] eqn:Ep.
  - subst d1. split; [|discriminate]. by eapply path_direction_unblocked.
  - destruct Hcase as (r & Hr & Hpick).
    assert (Hex : exists d0, d0 <> opposites (direction (snake g)) /\
               would_collide g (step_cell hx hy d0).1 (step_cell hx hy d0).2 = false).
    { destruct Hsafe as [(p & Hp & Hlen)|Hex]; [|exact Hex]. exfalso.
      pose proof Hp as Hp'.
      apply find_path_bounded_sound in Hp' as ((Hh & _ & Hw) & _).
      unfold path_direction in Ep. rewrite Hp in Ep.
      destruct p as [|a [|c p]]; cbn [List.length] in Hlen; try lia.
      cbn [List.length Nat.ltb Nat.leb lookup list_lookup hd_error] in *.
      injection Hh as ->. destruct Hw as ((Hadj & _) & _).
      unfold get_direction_to_position in Ep.
      destruct Hadj as [-> | [-> | [-> | ->]]]; cbn [fst snd] in Ep; unfold SIZE in Ep;
        repeat (match type of Ep with
                | context [?a <? ?b] => destruct (Z.ltb_spec a b); try lia
                end); discriminate. }
    unfold evaluate_moves in Hr. apply evaluate_loop_moves in Hr.
    destruct r as [|m l].
    + exfalso. destruct Hex as (d0 & Hd0).
      apply (candidates_filter_elem g hx hy) in Hd0. rewrite <- Hr in Hd0. done.
    + subst d. destruct (max_from_spec l m) as (Hin & _).
      assert (Hd : In (max_from m l).1 (map fst (m :: l))) by (by apply in_map).
      rewrite Hr in Hd. apply candidates_filter_elem in Hd as (Hop & Hfree).
      split; [exact Hfree|]. intros _. exact Hop.
Qed.

(** X9: the heading [auto_control] picks leads to a cell that is not
    blocked whenever there is one to pick: when the path search returns a
    path of at least two cells, or when some heading other than the reverse
    leads to a non-blocked cell. When the path stage does not decide, the
    pick is never the reverse heading. *)
Theorem auto_control_picks_unblocked (g : Game) (d : Direction) (g' : Game) :
  let hx := seg_x (snake g) 0 in
  let hy := seg_y (snake g) 0 in
  auto_control math_sqrt g = Some (Some d, g') ->
  ((exists p, find_path_astar g hx hy (apple_x (apple g)) (apple_y (apple g)) = Some p /\
              (2 <= List.length p)%nat) \/
   (exists d0, d0 <> opposites (direction (snake g)) /\
               would_collide g (step_cell hx hy d0).1 (step_cell hx hy d0).2 = false)) ->
  g' = execute_move g d /\
  would_collide g (step_cell hx hy d).1 (step_cell hx hy d).2 = false /\
  (path_direction hx hy
     (find_path_astar g hx hy (apple_x (apple g)) (apple_y (apple g))) = None ->
   d <> opposites (direction (snake g))).
Proof. exact (auto_control_unblocked g d g'). Qed.

Lemma would_collide_execute_move (g : Game) (d : Direction) (cx cy : Z) :
  would_collide (execute_move g d) cx cy = would_collide g cx cy.
Proof.
  unfold execute_move, move_left, move_right, move_up, move_down.
  destruct d; destruct (decide _); reflexivity.
Qed.

Lemma execute_move_body (g : Game) (d : Direction) :
  snake_wf (snake g) ->
  snake_wf (snake (execute_move g d)) /\
  seg_x (snake (execute_move g d)) 0 = seg_x (snake g) 0 /\
  seg_y (snake (execute_move g d)) 0 = seg_y (snake g) 0 /\
  apple (execute_move g d) = apple g.
Proof.
  intros Hwf. unfold execute_move, move_left, move_right, move_up, move_down.
  destruct d; destruct (decide _); done.
Qed.

(** X10: a tick of the planning agent survives whenever a safe move
    exists. For a well-formed snake of at least two segments whose second
    segment lies right behind the head, if the path search finds a path or a
    heading other than the reverse leads to a non-blocked cell, then
    [auto_control] sets the heading it picks and the [play] that follows
    raises nothing: the head ends one block further along that heading. *)
Theorem planning_tick_survives (g : Game) (speed : Qc) (d1 d2 : nat) :
  let hx := seg_x (snake g) 0 in
  let hy := seg_y (snake g) 0 in
  snake_wf (snake g) ->
  1 <= grid_width (apple g) -> 1 <= grid_height (apple g) ->
  (2 <= length (snake g))%nat ->
  (seg_x (snake g) 1, seg_y (snake g) 1)
    = step_cell hx hy (opposites (direction (snake g))) ->
  ((exists p, find_path_astar g hx hy (apple_x (apple g)) (apple_y (apple g)) = Some p /\
              (2 <= List.length p)%nat) \/
   (exists d0, d0 <> opposites (direction (snake g)) /\
               would_collide g (step_cell hx hy d0).1 (step_cell hx hy d0).2 = false)) ->
  exists d g' st',
    auto_control math_sqrt g = Some (Some d, g') /\
    direction (snake g') = d /\
    would_collide g (step_cell hx hy d).1 (step_cell hx hy d).2 = false /\
    play {| game := g'; game_speed := speed |} d1 d2 = Some (st', None) /\
    (seg_x (snake (game st')) 0, seg_y (snake (game st')) 0) = step_cell hx hy d.
Proof.
  intros hx hy Hwf Hgw Hgh Hlen Hneck Hsafe.
  destruct (auto_control_cases g) as (d & Hrun & _).
  destruct (auto_control_unblocked g d _ Hrun Hsafe) as (_ & Hfree & _).
  fold hx hy in Hfree.
  assert (Hrev : d <> opposites (direction (snake g))).
  { intros ->. rewrite <- Hneck in Hfree. cbn [fst snd] in Hfree.
    apply (would_collide_free g (seg_x (snake g) 1, seg_y (snake g) 1)) in Hfree
      as (_ & _ & Hno).
    apply (Hno 1%nat); [lia|done]. }
  pose proof (execute_move_direction g d Hrev) as Hdir.
  destruct (execute_move_body g d Hwf) as (Hwf' & Hx' & Hy' & Ha').
  destruct (play_unblocked_ahead {| game := execute_move g d; game_speed := speed |} d1 d2)
    as (st' & Hplay & Hhead).
  - exact Hwf'.
  - cbn [game]. by rewrite Ha'.
  - cbn [game]. by rewrite Ha'.
  - cbn [game]. rewrite Hx', Hy', Hdir, would_collide_execute_move. exact Hfree.
  - cbn [game] in Hhead. rewrite Hx', Hy', Hdir in Hhead.
    exists d, (execute_move g d), st'.
    split; [exact Hrun|]. split; [exact Hdir|]. split; [exact Hfree|].
    split; [exact Hplay|exact Hhead].
Qed.

End ChoiceFacts.

Lemma corner_walker_wf :
  Utilitybased.snake_wf (Utilitybased.snake corner_walker).
Proof. repeat split; simpl; lia. Qed.

Lemma auto_control_picks_unblocked_witness :
  exists d g',
    Utilitybased.auto_control coarse_sqrt corner_walker = Some (Some d, g') /\
    Utilitybased.would_collide corner_walker (Utilitybased.step_cell 0 40 d).1
                               (Utilitybased.step_cell 0 40 d).2 = false.
Proof.
  destruct (Utilitybased.auto_control coarse_sqrt corner_walker) as [[[d|] g']|] eqn:E;
    try (vm_compute in E; discriminate E).
  exists d, g'. split; [reflexivity|].
  apply (auto_control_picks_unblocked coarse_sqrt coarse_sqrt_pos corner_walker d g' E).
  right. exists Right. split; [discriminate|reflexivity].
Defined.

Lemma planning_tick_survives_witness :
  exists d g' st',
    Utilitybased.auto_control coarse_sqrt corner_walker = Some (Some d, g') /\
    UtilitybasedGame.play
      {| UtilitybasedGame.game := g';
         UtilitybasedGame.game_speed := UtilitybasedGame.initial_speed |} 0 0
    = Some (st', None).
Proof.
  destruct (planning_tick_survives coarse_sqrt coarse_sqrt_pos corner_walker
              UtilitybasedGame.initial_speed 0 0)
    as (d & g' & st' & Hrun & _ & _ & Hplay & _).
  - apply corner_walker_wf.
  - vm_compute. discriminate.
  - vm_compute. discriminate.
  - simpl. lia.
  - reflexivity.
  - right. exists Right. split; [discriminate|reflexivity].
  - exists d, g', st'. split; [exact Hrun|exact Hplay].
Defined.

(* ===================================================================== *)
(** * What the flood fill counts *)
(* ===================================================================== *)

Section FloodFacts.
Import Utilitybased.

Variable g : Game.

Lemma adjacent_deltas (a b : Cell) :
  In b (map (fun d : Cell => (a.1 + d.1, a.2 + d.2)) deltas) <-> adjacent a b.
Proof.
  unfold adjacent, deltas. cbn [map In fst snd]. rewrite !Z.add_0_r.
  change (a.2 + - SIZE) with (a.2 - SIZE). change (a.1 + - SIZE) with (a.1 - SIZE).
  split.
  - intros [<-|[<-|[<-|[<-|[]]]]]; auto.
  - intros [-> | [-> | [-> | ->]]]; auto.
Qed.

Variable start : Cell.
Variable region : list Cell.
Variable max_depth : Z.

Hypothesis region_start : In start region.
Hypothesis region_closed : forall u n, In u region -> step g u n -> In n region.
Hypothesis region_reached : forall c, In c region -> exists k, reach g start k c.
Hypothesis region_nodup : NoDup region.
Hypothesis start_free : free_cell g start.

Lemma flood_inv_init :
  0 <= max_depth -> flood_inv g start region max_depth [(start, 0)] [] 0.
Proof.
  intros Hmd. split.
  - done.
  - exact Hmd.
  - constructor.
  - intros u [].
  - intros e [<-|[]]. done.
  - intros e [<-|[]] _. exact region_start.
  - intros u n [].
  - right. by left.
Qed.

Lemma flood_inv_full (visited : list Cell) (count : Z) :
  flood_inv g start region max_depth [] visited count ->
  count = Z.of_nat (List.length region).
Proof.
  intros [H1 H2 H3 H4 H5 H6 H7 H8].
  assert (Hstart : In start visited) by (destruct H8 as [H|[]]; exact H).
  assert (Hall : forall c, In c region -> In c visited).
  { intros c Hc. destruct (region_reached c Hc) as (k & Hr).
    clear Hc. induction Hr as [|k u c Hr IH Hs]; [exact Hstart|].
    destruct (H7 u c IH Hs) as [H|[]]. exact H. }
  assert (List.length visited <= List.length region)%nat.
  { apply submseteq_length, NoDup_submseteq; [exact H3|].
    intros u Hu. apply list_elem_of_In, H4, list_elem_of_In, Hu. }
  assert (List.length region <= List.length visited)%nat.
  { apply submseteq_length, NoDup_submseteq; [exact region_nodup|].
    intros u Hu. apply list_elem_of_In, Hall, list_elem_of_In, Hu. }
  lia.
Qed.

Lemma flood_inv_bound (queue : list (Cell * Z)) (visited : list Cell) (count : Z) :
  flood_inv g start region max_depth queue visited count ->
  count <= Z.of_nat (List.length region).
Proof.
  intros [H1 H2 H3 H4 H5 H6 H7 H8].
  assert (List.length visited <= List.length region)%nat.
  { apply submseteq_length, NoDup_submseteq; [exact H3|].
    intros u Hu. apply list_elem_of_In, H4, list_elem_of_In, Hu. }
  lia.
Qed.

(** An entry that is dropped: its cell is visited already, or collides. *)
Lemma flood_inv_skip (c : Cell) (depth : Z) (queue : list (Cell * Z))
    (visited : list Cell) (count : Z) :
  flood_inv g start region max_depth ((c, depth) :: queue) visited count ->
  In c visited \/ would_collide g c.1 c.2 = true ->
  flood_inv g start region max_depth queue visited count.
Proof.
  intros [H1 H2 H3 H4 H5 H6 H7 H8] Hskip.
  assert (Hc : forall n, n = c -> free_cell g n -> In n visited).
  { intros n -> Hfree. destruct Hskip as [Hv|Hcol]; [exact Hv|].
    apply would_collide_free in Hfree. congruence. }
  split; try done.
  - intros e He. apply H5. by right.
  - intros e He. apply H6. by right.
  - intros u n Hu Hs. destruct (H7 u n Hu Hs) as [Hv|[Hn|Hq]]; [by left| |by right].
    left. apply Hc; [done|]. by destruct Hs.
  - destruct H8 as [Hv|[Hn|Hq]]; [by left| |by right].
    left. by apply Hc.
Qed.

(** An entry that is counted. *)
Lemma flood_inv_visit (c : Cell) (depth : Z) (queue : list (Cell * Z))
    (visited : list Cell) (count : Z) :
  flood_inv g start region max_depth ((c, depth) :: queue) visited count ->
  ~ In c visited ->
  would_collide g c.1 c.2 = false ->
  count < max_depth ->
  flood_inv g start region max_depth
    (queue ++ map (fun n => (n, depth + 1))
                  (List.filter (fun n : Cell => negb (bool_decide (n ∈ c :: visited)))
                               (map (fun d : Cell => (c.1 + d.1, c.2 + d.2)) deltas)))
    (c :: visited) (count + 1).
Proof.
  intros [H1 H2 H3 H4 H5 H6 H7 H8] Hnew Hfree Hlt.
  apply would_collide_free in Hfree.
  assert (Hcr : In c region) by (apply (H6 (c, depth)); [by left|exact Hfree]).
  assert (Hadded : forall n, adjacent c n ->
            In n (c :: visited) \/
            In n (map fst (queue ++ map (fun n => (n, depth + 1))
                    (List.filter (fun n : Cell => negb (bool_decide (n ∈ c :: visited)))
                       (map (fun d : Cell => (c.1 + d.1, c.2 + d.2)) deltas))))).
  { intros n Hadj. destruct (decide (n ∈ c :: visited)) as [Hin|Hout];
      [left; by apply list_elem_of_In|].
    right. rewrite map_app. apply in_or_app. right.
    rewrite map_map. cbn [fst]. rewrite map_id. apply filter_In. split.
    - by apply adjacent_deltas.
    - rewrite negb_true_iff. by apply bool_decide_eq_false. }
  split.
  - cbn [List.length]. lia.
  - lia.
  - constructor; [by rewrite list_elem_of_In|exact H3].
  - intros u [<-|Hu]; [exact Hcr|by apply H4].
  - intros e He. apply in_app_or in He as [He|He].
    + assert (e.2 <= count) by (apply H5; by right). lia.
    + apply in_map_iff in He as (n & <- & _). cbn [snd].
      assert (depth <= count) by (apply (H5 (c, depth)); by left). lia.
  - intros e He Hf. apply in_app_or in He as [He|He].
    + apply H6; [by right|exact Hf].
    + apply in_map_iff in He as (n & <- & Hn). cbn [fst] in *.
      apply filter_In in Hn as (Hn & _). apply adjacent_deltas in Hn.
      apply (region_closed c); [exact Hcr|by split].
  - intros u n [<-|Hu] Hs.
    + apply Hadded. by destruct Hs.
    + destruct (H7 u n Hu Hs) as [Hv|[Hn|Hq]].
      * left. by right.
      * left. left. done.
      * right. rewrite map_app. apply in_or_app. by left.
  - destruct H8 as [Hv|[Hn|Hq]].
    + left. by right.
    + left. left. done.
    + right. rewrite map_app. apply in_or_app. by left.
Qed.

Lemma flood_loop_region (fuel : nat) :
  forall (queue : list (Cell * Z)) (visited : list Cell) (count c : Z),
    flood_inv g start region max_depth queue visited count ->
    flood_loop g max_depth fuel queue visited count = Some c ->
    c = Z.min max_depth (Z.of_nat (List.length region)).
Proof.
  induction fuel as [|fuel IH]; intros queue visited count c Hinv Hrun.
  - destruct queue as [|[n depth] queue]; cbn [flood_loop] in Hrun.
    + injection Hrun as <-. pose proof (fl_cap _ _ _ _ _ _ _ Hinv).
      rewrite (flood_inv_full _ _ Hinv) in *. lia.
    + destruct (Z.ltb_spec count max_depth); [discriminate|].
      injection Hrun as <-. pose proof (fl_cap _ _ _ _ _ _ _ Hinv).
      pose proof (flood_inv_bound _ _ _ Hinv). lia.
  - destruct queue as [|[n depth] queue]; cbn [flood_loop] in Hrun.
    + injection Hrun as <-. pose proof (fl_cap _ _ _ _ _ _ _ Hinv).
      rewrite (flood_inv_full _ _ Hinv) in *. lia.
    + destruct (Z.ltb_spec count max_depth) as [Hlt|Hge].
      2:{ injection Hrun as <-. pose proof (fl_cap _ _ _ _ _ _ _ Hinv).
          pose proof (flood_inv_bound _ _ _ Hinv). lia. }
      assert (Hdepth : depth <= count).
      { apply (fl_depth _ _ _ _ _ _ _ Hinv (n, depth)). by left. }
      destruct (bool_decide (n ∈ visited)) eqn:Ev.
      * cbn [orb] in Hrun. apply bool_decide_eq_true, list_elem_of_In in Ev.
        eapply IH; [|exact Hrun]. eapply flood_inv_skip; [exact Hinv|by left].
      * apply bool_decide_eq_false in Ev. rewrite list_elem_of_In in Ev.
        destruct (Z.ltb_spec max_depth depth) as [Hdeep|_]; [lia|].
        cbn [orb] in Hrun.
        destruct (would_collide g n.1 n.2) eqn:Ec.
        -- eapply IH; [|exact Hrun]. eapply flood_inv_skip; [exact Hinv|by right].
        -- eapply IH; [|exact Hrun]. by apply flood_inv_visit.
Qed.

End FloodFacts.

(** X11: [_flood_fill_count] counts the free region of its start cell, up
    to its cap. If the start cell is free and [region] lists, without
    repetition, the cells that free steps reach from it, the result is the
    smaller of [max_depth] and the size of the region; the test on [depth]
    in the loop never cuts the count short. If the start cell is blocked the
    result is 0. *)
Theorem flood_fill_counts_region
    (g : Utilitybased.Game) (sx sy max_depth : Z) (region : list Utilitybased.Cell) :
  0 <= max_depth ->
  (Utilitybased.would_collide g sx sy = true ->
   Utilitybased.flood_fill_count g sx sy max_depth = 0) /\
  (Utilitybased.would_collide g sx sy = false ->
   NoDup region ->
   (forall c, In c region <-> exists k, reach g (sx, sy) k c) ->
   Utilitybased.flood_fill_count g sx sy max_depth
   = Z.min max_depth (Z.of_nat (List.length region))).
Proof.
  intros Hmd.
  pose proof (flood_fill_count_run g sx sy max_depth) as Hrun. split.
  - intros Hcol. unfold Utilitybased.flood_fuel in Hrun.
    cbn [Utilitybased.flood_loop] in Hrun.
    destruct (Z.ltb_spec 0 max_depth); [|by injection Hrun as <-].
    change (bool_decide ((sx, sy) ∈ [])) with false in Hrun.
    destruct (Z.ltb_spec max_depth 0); [lia|].
    cbn [orb fst snd] in Hrun. rewrite Hcol in Hrun.
    destruct (4 * Z.to_nat max_depth)%nat; cbn [Utilitybased.flood_loop] in Hrun;
      by injection Hrun as <-.
  - intros Hfree Hnd Hreg.
    assert (Hstart : In (sx, sy) region).
    { apply Hreg. exists 0%nat. constructor. }
    assert (Hclosed : forall u n, In u region -> step g u n -> In n region).
    { intros u n Hu Hs. apply Hreg. apply Hreg in Hu as (k & Hk).
      exists (S k). econstructor; eauto. }
    assert (Hreached : forall c, In c region -> exists k, reach g (sx, sy) k c).
    { intros c Hc. by apply Hreg. }
    assert (Hsf : free_cell g (sx, sy)).
    { apply would_collide_free. exact Hfree. }
    eapply (flood_loop_region g (sx, sy) region max_depth); [..|exact Hrun];
      first [exact Hclosed | exact Hreached | exact Hnd | exact Hsf | exact Hstart
            | apply flood_inv_init; assumption].
Qed.

Lemma two_cell_region (c : Utilitybased.Cell) :
  In c [(0, 0); (0, 40)] <-> exists k, reach two_cell_game (0, 0) k c.
Proof.
  assert (Hstep : step two_cell_game (0, 0) (0, 40)).
  { apply get_neighbors_step. vm_compute. auto. }
  split.
  - intros [<-|[<-|[]]].
    + exists 0%nat. constructor.
    + exists 1%nat. econstructor; [constructor|exact Hstep].
  - intros (k & Hr). induction Hr as [|k u c Hr IH Hs]; [by left|].
    apply get_neighbors_step in Hs.
    destruct IH as [<-|[<-|[]]]; vm_compute in Hs;
      destruct Hs as [<-|Hs]; try (by destruct Hs); auto.
    + right. by left.
    + by left.
Qed.

Lemma flood_fill_counts_region_witness :
  Utilitybased.flood_fill_count two_cell_game 0 0 50 = 2.
Proof.
  destruct (flood_fill_counts_region two_cell_game 0 0 50 [(0, 0); (0, 40)]) as (_ & H).
  - lia.
  - rewrite H; [reflexivity|reflexivity| |exact two_cell_region].
    apply NoDup_cons_2; [|apply NoDup_singleton].
    intros Hin. apply list_elem_of_singleton in Hin. discriminate Hin.
Defined.

(* ===================================================================== *)
(** * The model-based agent *)
(* ===================================================================== *)

Section ModelFacts.
Import Utilitybased.

Variable math_sqrt : Qc -> Qc.

Lemma range_SIZE_elem (stop v : Z) :
  v ∈ range_SIZE stop <-> (0 <= v < stop /\ v mod SIZE = 0).
Proof.
  unfold range_SIZE, SIZE. rewrite list_elem_of_fmap. split.
  - intros (i & -> & Hi). apply elem_of_seq in Hi.
    split; [|apply Z.mod_mul; lia].
    assert (Z.of_nat i < (stop + 40 - 1) / 40) by lia.
    Z.to_euclidean_division_equations. lia.
  - intros ((H0 & H1) & Hm). exists (Z.to_nat (v / 40)). split.
    + rewrite Z2Nat.id by (Z.to_euclidean_division_equations; lia).
      Z.to_euclidean_division_equations. lia.
    + apply elem_of_seq. split; [lia|].
      assert (v / 40 < (stop + 40 - 1) / 40)
        by (Z.to_euclidean_division_equations; lia).
      assert (0 <= v / 40) by (Z.to_euclidean_division_equations; lia).
      lia.
Qed.

(** X12: the wall set of the internal model is always empty: the loops of
    [_get_wall_boundaries] run over cells inside the surface, and the test
    inside them holds outside it only. Walls are found by the bounds test of
    [_is_valid_move] alone. *)
Theorem wall_model_is_empty (g : Game) :
  Modelbased.get_wall_boundaries g = ∅ /\
  Modelbased.walls (Modelbased.build_model g) = ∅.
Proof.
  assert (H : Modelbased.get_wall_boundaries g = ∅); [|by split].
  unfold Modelbased.get_wall_boundaries. apply set_eq. intros c.
  rewrite elem_of_list_to_set. split; [|intros Hc; by apply not_elem_of_empty in Hc].
  intros Hc.
  apply list_elem_of_bind in Hc as (wx & Hc & Hx).
  apply list_elem_of_bind in Hc as (wy & Hc & Hy).
  apply range_SIZE_elem in Hx as ((? & ?) & _).
  apply range_SIZE_elem in Hy as ((? & ?) & _).
  destruct (Z.ltb_spec wx 0), (Z.leb_spec (surface_width g) wx),
    (Z.ltb_spec wy 0), (Z.leb_spec (surface_height g) wy); try lia.
  cbn [orb] in Hc. by apply elem_of_nil in Hc.
Qed.

(** The body of the model: every segment but the head. *)
Lemma snake_body_elem (s : Snake) (pos : Cell) :
  pos ∈ tail (get_positions s) <->
  exists i, (1 <= i < length s)%nat /\ pos = (seg_x s i, seg_y s i).
Proof.
  assert (Ht : tail (get_positions s)
               = map (fun i => (seg_x s i, seg_y s i)) (seq 1 (length s - 1))).
  { unfold get_positions. destruct (length s) as [|n]; [done|].
    replace (S n - 1)%nat with n by lia. done. }
  rewrite Ht, list_elem_of_fmap. split.
  - intros (i & -> & Hi). apply elem_of_seq in Hi. exists i. split; [lia|done].
  - intros (i & Hi & ->). exists i. split; [done|]. apply elem_of_seq. lia.
Qed.

Lemma is_valid_move_would_collide (g : Game) (pos : Cell) :
  Modelbased.is_valid_move g pos (Modelbased.build_model g)
  = negb (would_collide g pos.1 pos.2).
Proof.
  unfold Modelbased.is_valid_move, would_collide.
  destruct ((pos.1 <? 0) || (surface_width g <=? pos.1) ||
            (pos.2 <? 0) || (surface_height g <=? pos.2)); [done|].
  cbn [Modelbased.snake_body Modelbased.build_model].
  destruct (existsb _ _) eqn:Ee.
  - apply existsb_seq in Ee as (i & Hi & Hf).
    apply andb_true_iff in Hf as (Hx & Hy).
    apply Z.eqb_eq in Hx, Hy.
    rewrite bool_decide_eq_true_2; [done|].
    apply snake_body_elem. exists i. split; [lia|]. destruct pos. cbn in *. congruence.
  - rewrite bool_decide_eq_false_2; [done|].
    intros Hin. apply snake_body_elem in Hin as (i & Hi & ->).
    apply not_true_iff_false in Ee. apply Ee. apply existsb_seq.
    exists i. split; [lia|]. cbn [fst snd]. by rewrite !Z.eqb_refl.
Qed.

(** X13: the validity test of the model-based agent, on the model that
    [auto_control] builds, accepts exactly the cells inside the surface that
    no body segment other than the head occupies: it is the negation of
    [_would_collide] of Utilitybased.py. It is stricter than the
    [_would_collide] of Modelbased.py itself, which skips the segments 1
    and 2. *)
Theorem is_valid_move_is_free (g : Game) (pos : Cell) :
  (Modelbased.is_valid_move g pos (Modelbased.build_model g) = true <-> free_cell g pos) /\
  Modelbased.is_valid_move g pos (Modelbased.build_model g)
    = negb (would_collide g pos.1 pos.2) /\
  (Modelbased.is_valid_move g pos (Modelbased.build_model g) = true ->
   Modelbased.would_collide g pos.1 pos.2 = false).
Proof.
  pose proof (is_valid_move_would_collide g pos) as Hv.
  split; [|split; [exact Hv|]].
  - rewrite Hv, negb_true_iff. apply would_collide_free.
  - rewrite Hv, negb_true_iff. unfold would_collide, Modelbased.would_collide.
    destruct ((pos.1 <? 0) || (surface_width g <=? pos.1) ||
              (pos.2 <? 0) || (surface_height g <=? pos.2)); [done|].
    intros Hno. apply not_true_iff_false. intros Hyes.
    apply not_true_iff_false in Hno. apply Hno.
    apply existsb_seq in Hyes as (i & Hi & Hf). apply existsb_seq.
    exists i. split; [lia|exact Hf].
Qed.

(** ** The choice of [auto_control] *)

Lemma min_from_spec (l : list (Direction * Qc)) (m : Direction * Qc) :
  In (Modelbased.min_from m l) (m :: l) /\
  forall e, In e (m :: l) -> ((Modelbased.min_from m l).2 <= e.2)%Qc.
Proof.
  revert m. induction l as [|a l IH]; intros m.
  - cbn [Modelbased.min_from]. split; [by left|].
    intros e [<-|[]]. apply Qcle_refl.
  - cbn [Modelbased.min_from]. destruct (decide (a.2 < m.2)%Qc) as [Hlt|Hge].
    + destruct (IH a) as (Hin & Hle). split.
      * right. exact Hin.
      * intros e [<-|He]; [|by apply Hle].
        apply Qclt_le_weak. eapply Qcle_lt_trans; [|exact Hlt].
        apply Hle. by left.
    + apply Qcnot_lt_le in Hge. destruct (IH m) as (Hin & Hle). split.
      * destruct Hin as [Hin|Hin]; [by left|right; by right].
      * intros e [<-|[<-|He]].
        -- apply Hle. by left.
        -- eapply Qcle_trans; [|exact Hge]. apply Hle. by left.
        -- apply Hle. by right.
Qed.

Lemma safe_moves_elem (g : Game) (d : Direction) (q : Qc) :
  let target := step_cell (seg_x (snake g) 0) (seg_y (snake g) 0) d in
  In (d, q) (Modelbased.safe_moves math_sqrt g) <->
  Modelbased.is_valid_move g target (Modelbased.build_model g) = true /\
  q = model_distance math_sqrt g target.
Proof.
  intros target. unfold Modelbased.safe_moves, Modelbased.possible_directions.
  rewrite <- list_elem_of_In, list_elem_of_omap. unfold model_distance. split.
  - intros (e & He & Hf).
    destruct (Modelbased.is_valid_move g e.2 (Modelbased.build_model g)) eqn:Ev;
      [|discriminate].
    injection Hf as <- <-.
    apply list_elem_of_In in He. cbn [In] in He.
    destruct He as [<-|[<-|[<-|[<-|[]]]]]; cbn [fst snd] in *; by split.
  - intros (Hv & ->). exists (d, target). split.
    + apply list_elem_of_In. subst target. cbn [In]. destruct d; cbn [step_cell]; tauto.
    + cbn [fst snd]. by rewrite Hv.
Qed.

Lemma model_auto_control_cases (g : Game) :
  let hx := seg_x (snake g) 0 in
  let hy := seg_y (snake g) 0 in
  match Modelbased.auto_control math_sqrt g with
  | (Some d, g') =>
      g' = execute_move g d /\
      Modelbased.is_valid_move g (step_cell hx hy d) (Modelbased.build_model g) = true /\
      forall d',
        Modelbased.is_valid_move g (step_cell hx hy d') (Modelbased.build_model g) = true ->
        (model_distance math_sqrt g (step_cell hx hy d) <= model_distance math_sqrt g (step_cell hx hy d'))%Qc
  | (None, g') =>
      g' = g /\
      forall d',
        Modelbased.is_valid_move g (step_cell hx hy d') (Modelbased.build_model g) = false
  end.
Proof.
  intros hx hy. unfold Modelbased.auto_control.
  destruct (Modelbased.safe_moves math_sqrt g) as [|m l] eqn:E.
  - split; [done|]. intros d'. apply not_true_iff_false. intros Hv.
    assert (Hin : In (d', model_distance math_sqrt g (step_cell hx hy d'))
                     (Modelbased.safe_moves math_sqrt g))
      by (by apply safe_moves_elem).
    rewrite E in Hin. destruct Hin.
  - destruct (min_from_spec l m) as (Hin & Hle). rewrite <- E in Hin.
    destruct (Modelbased.min_from m l) as [d q] eqn:Em. cbn [fst snd] in *.
    apply safe_moves_elem in Hin as (Hv & Hq).
    split; [done|]. split; [exact Hv|].
    intros d' Hv'. fold hx hy in Hq. rewrite <- Hq.
    assert (Hin' : In (d', model_distance math_sqrt g (step_cell hx hy d'))
                      (Modelbased.safe_moves math_sqrt g))
      by (by apply safe_moves_elem).
    rewrite E in Hin'. apply (Hle _ Hin').
Qed.

(** X14: the model-based [auto_control] picks a valid heading whose cell is
    nearest to the apple. When some heading leads to a valid cell, the
    heading handed to [_set_snake_direction] leads to a valid cell, and no
    valid cell is nearer to the apple by the distance of the code; when no
    heading leads to a valid cell, the game is left as it is. *)
Theorem model_auto_control_picks_nearest (g : Game) :
  let hx := seg_x (snake g) 0 in
  let hy := seg_y (snake g) 0 in
  match Modelbased.auto_control math_sqrt g with
  | (Some d, g') =>
      g' = execute_move g d /\
      Modelbased.is_valid_move g (step_cell hx hy d) (Modelbased.build_model g) = true /\
      forall d',
        Modelbased.is_valid_move g (step_cell hx hy d') (Modelbased.build_model g) = true ->
        (model_distance math_sqrt g (step_cell hx hy d) <= model_distance math_sqrt g (step_cell hx hy d'))%Qc
  | (None, g') =>
      g' = g /\
      forall d',
        Modelbased.is_valid_move g (step_cell hx hy d') (Modelbased.build_model g) = false
  end.
Proof. exact (model_auto_control_cases g). Qed.

(** X15: a tick of the model-based agent survives when the heading it picks
    can be set. For a well-formed snake, if [auto_control] picks a heading
    that is not the reverse of the current one, which is so whenever the
    second segment lies right behind the head, the snake takes that heading
    and the [play] that follows raises nothing: the head ends one block
    further along it. *)
Theorem model_tick_survives (g : Game) (speed : Qc) (d1 d2 : nat)
    (d : Direction) (g' : Game) :
  let hx := seg_x (snake g) 0 in
  let hy := seg_y (snake g) 0 in
  snake_wf (snake g) ->
  1 <= grid_width (apple g) -> 1 <= grid_height (apple g) ->
  Modelbased.auto_control math_sqrt g = (Some d, g') ->
  d <> opposites (direction (snake g)) \/
  ((2 <= length (snake g))%nat /\
   (seg_x (snake g) 1, seg_y (snake g) 1)
     = step_cell hx hy (opposites (direction (snake g)))) ->
  direction (snake g') = d /\
  exists st',
    UtilitybasedGame.play
      {| UtilitybasedGame.game := g'; UtilitybasedGame.game_speed := speed |} d1 d2
    = Some (st', None) /\
    (seg_x (snake (UtilitybasedGame.game st')) 0,
     seg_y (snake (UtilitybasedGame.game st')) 0) = step_cell hx hy d.
Proof.
  intros hx hy Hwf Hgw Hgh Hrun Hturn.
  pose proof (model_auto_control_cases g) as Hc. rewrite Hrun in Hc.
  destruct Hc as (-> & Hv & _). fold hx hy in Hv.
  rewrite is_valid_move_would_collide, negb_true_iff in Hv.
  assert (Hrev : d <> opposites (direction (snake g))).
  { destruct Hturn as [H|(Hlen & Hneck)]; [exact H|].
    intros ->. rewrite <- Hneck in Hv. cbn [fst snd] in Hv.
    apply (would_collide_free g (seg_x (snake g) 1, seg_y (snake g) 1)) in Hv
      as (_ & _ & Hno).
    apply (Hno 1%nat); [lia|done]. }
  pose proof (execute_move_direction g d Hrev) as Hdir.
  destruct (execute_move_body g d Hwf) as (Hwf' & Hx' & Hy' & Ha').
  split; [exact Hdir|].
  destruct (play_unblocked_ahead
              {| UtilitybasedGame.game := execute_move g d;
                 UtilitybasedGame.game_speed := speed |} d1 d2)
    as (st' & Hplay & Hhead).
  - exact Hwf'.
  - cbn [UtilitybasedGame.game]. by rewrite Ha'.
  - cbn [UtilitybasedGame.game]. by rewrite Ha'.
  - cbn [UtilitybasedGame.game]. rewrite Hx', Hy', Hdir, would_collide_execute_move.
    exact Hv.
  - cbn [UtilitybasedGame.game] in Hhead. rewrite Hx', Hy', Hdir in Hhead.
    exists st'. split; [exact Hplay|exact Hhead].
Qed.

End ModelFacts.

Lemma model_tick_survives_witness :
  exists st',
    UtilitybasedGame.play
      {| UtilitybasedGame.game := (Modelbased.auto_control coarse_sqrt corner_walker).2;
         UtilitybasedGame.game_speed := UtilitybasedGame.initial_speed |} 0 0
    = Some (st', None).
Proof.
  destruct (Modelbased.auto_control coarse_sqrt corner_walker) as [[d|] g'] eqn:E;
    [|vm_compute in E; discriminate E].
  destruct (model_tick_survives coarse_sqrt corner_walker
              UtilitybasedGame.initial_speed 0 0 d g')
    as (_ & st' & Hplay & _).
  - apply corner_walker_wf.
  - vm_compute. discriminate.
  - vm_compute. discriminate.
  - exact E.
  - right. split; [simpl; lia|reflexivity].
  - exists st'. exact Hplay.
Defined.

(* ===================================================================== *)
(** * The learning agent over a round *)
(* ===================================================================== *)

Section AgentFacts.
Import Learning.

Implicit Types (q : gmap State (list Qc)) (s : State) (row : list Qc).

Lemma index_of_In (a : Direction) (l : list Direction) (i : nat) :
  index_of a l = Some i -> In a l.
Proof.
  revert i. induction l as [|b l IH]; intros i; [done|]. cbn [index_of].
  destruct (decide (a = b)) as [->|Hne]; [by left|].
  destruct (index_of a l) as [j|]; [|done]. intros _. right. by eapply IH.
Qed.

Lemma index_of_None (a : Direction) (l : list Direction) :
  ~ In a l -> index_of a l = None.
Proof.
  intros Hn. destruct (index_of a l) as [i|] eqn:E; [|done].
  exfalso. apply Hn. by eapply index_of_In.
Qed.

Lemma index_of_first (a : Direction) (l : list Direction) (i j : nat) :
  index_of a l = Some i -> l !! j = Some a -> (i <= j)%nat.
Proof.
  revert i j. induction l as [|b l IH]; intros i j; [done|]. cbn [index_of].
  destruct (decide (a = b)) as [->|Hne].
  - intros [= <-] _. lia.
  - destruct (index_of a l) as [k|] eqn:E; [|done]. intros [= <-].
    destruct j as [|j]; [intros [= ->]; done|].
    cbn. intros Hj. specialize (IH k j eq_refl Hj). lia.
Qed.

(** The steps of [learn] on a well-formed table, for an action the agent
    knows. *)
Lemma learn_unfold (ag : QLearningAgent) (s : State) (a : Direction) (r : Z)
    (next : option State) :
  table_wf ag ->
  In a (actions ag) ->
  let n := List.length (actions ag) in
  let q2 := ensure_next n next (ensure n s (q_table ag)) in
  exists (i : nat) (row0 : list Qc) (predict target : Qc),
    index_of a (actions ag) = Some i /\
    actions ag !! i = Some a /\
    (i < n)%nat /\
    q2 !! s = Some row0 /\
    List.length row0 = n /\
    row0 !! i = Some predict /\
    target_of (gamma ag) q2 r next = Some target /\
    learn ag s a r next
    = Some (with_table ag
              (<[s := <[i := (predict + lr ag * (target - predict))%Qc]> row0]> q2)).
Proof.
  intros Hwf Hin. cbv zeta.
  destruct (index_of_Some a (actions ag) Hin) as (i & Hi & Hai & Hlt).
  set (n := List.length (actions ag)) in *.
  set (q1 := ensure n s (q_table ag)).
  set (q2 := ensure_next n next q1).
  assert (Hrows : forall s2 row, q2 !! s2 = Some row -> List.length row = n).
  { apply ensure_next_rows, ensure_rows. exact Hwf. }
  destruct (ensure_lookup n s (q_table ag)) as (row0 & Hrow0).
  assert (Hrow : q2 !! s = Some row0) by (by apply ensure_next_keeps).
  assert (Hlen : List.length row0 = n) by (eapply Hrows; eauto).
  destruct (lookup_lt_is_Some_2 row0 i) as (predict & Hp); [lia|].
  assert (Htarget : exists t, target_of (gamma ag) q2 r next = Some t).
  { destruct next as [s'|]; [|by eexists].
    destruct (ensure_lookup n s' q1) as (row' & Hrow').
    change (ensure n s' q1) with q2 in Hrow'.
    destruct (np_max_spec row') as (m & Hm & _).
    { intros ->. apply Hrows in Hrow'. simpl in Hrow'. lia. }
    unfold target_of. rewrite Hrow'. simpl. rewrite Hm. simpl. by eexists. }
  destruct Htarget as (t & Ht).
  exists i, row0, predict, t.
  split; [exact Hi|]. split; [exact Hai|]. split; [exact Hlt|].
  split; [exact Hrow|]. split; [exact Hlen|]. split; [exact Hp|].
  split; [exact Ht|].
  unfold learn. fold n q1 q2. rewrite Hi. simpl. rewrite Hrow. simpl.
  rewrite Hp. simpl. rewrite Ht. simpl. reflexivity.
Qed.

Lemma dom_ensure (n : nat) s q : dom (ensure n s q) = dom q ∪ {[s]}.
Proof.
  unfold ensure. destruct (q !! s) as [row|] eqn:E.
  - apply set_eq. intros t. rewrite elem_of_union, elem_of_singleton.
    split; [by left|]. intros [H| ->]; [done|]. apply elem_of_dom. eauto.
  - rewrite dom_insert_L. apply set_eq. intros t.
    rewrite !elem_of_union, elem_of_singleton. tauto.
Qed.

Lemma learn_shape (ag : QLearningAgent) (s : State) (a : Direction) (r : Z)
    (next : option State) (ag' : QLearningAgent) :
  table_wf ag ->
  learn ag s a r next = Some ag' ->
  table_wf ag' /\
  actions ag' = actions ag /\ lr ag' = lr ag /\ gamma ag' = gamma ag /\
  epsilon ag' = epsilon ag /\
  dom (q_table ag') =
    dom (q_table ag) ∪ {[s]} ∪ (match next with Some s' => {[s']} | None => ∅ end).
Proof.
  intros Hwf Hrun.
  assert (Hin : In a (actions ag)).
  { unfold learn in Hrun. destruct (index_of a (actions ag)) as [i|] eqn:E; [|done].
    by eapply index_of_In. }
  destruct (learn_unfold ag s a r next Hwf Hin)
    as (i & row0 & predict & target & Hi & Hai & Hlt & Hrow & Hlen & Hp & Ht & Hl).
  rewrite Hl in Hrun. injection Hrun as <-.
  split; [|split; [done|split; [done|split; [done|split; [done|]]]]].
  - intros s2 row. cbn [q_table with_table actions].
    destruct (decide (s = s2)) as [<-|Hne].
    + rewrite lookup_insert_eq. intros [= <-]. by rewrite length_insert.
    + rewrite lookup_insert_ne by done.
      apply ensure_next_rows, ensure_rows. exact Hwf.
  - cbn [q_table with_table]. rewrite dom_insert_L.
    destruct next as [s'|]; cbn [ensure_next]; rewrite ?dom_ensure;
      apply set_eq; intros t;
      rewrite ?elem_of_union, ?elem_of_singleton, ?elem_of_empty; tauto.
Qed.

(** X16: [learn] keeps the table well formed. On a table whose vectors
    have one entry per action, a call of [learn] that returns leaves such a
    table, changes nothing of the agent but the table, and stores exactly
    the states that were stored before, [state], and [next_state] when it is
    not [None]: no state is ever dropped. *)
Theorem learn_keeps_table_wf (ag : QLearningAgent) (s : State) (a : Direction) (r : Z)
    (next : option State) (ag' : QLearningAgent) :
  table_wf ag ->
  learn ag s a r next = Some ag' ->
  table_wf ag' /\
  actions ag' = actions ag /\ lr ag' = lr ag /\ gamma ag' = gamma ag /\
  epsilon ag' = epsilon ag /\
  dom (q_table ag') =
    dom (q_table ag) ∪ {[s]} ∪ (match next with Some s' => {[s']} | None => ∅ end).
Proof. exact (learn_shape ag s a r next ag'). Qed.

Lemma learn_returns (ag : QLearningAgent) (s : State) (a : Direction) (r : Z)
    (next : option State) :
  table_wf ag -> In a (actions ag) -> exists ag', learn ag s a r next = Some ag'.
Proof.
  intros Hwf Hin.
  destruct (learn_unfold ag s a r next Hwf Hin)
    as (i & row0 & predict & target & _ & _ & _ & _ & _ & _ & _ & Hl).
  eauto.
Qed.

(** X17: on a well-formed table and for a reward that Python converts to a
    float, [learn] raises exactly when the action is not one of the agent's
    actions ([ValueError] of [list.index]); a state that was never seen, a
    terminal transition or the size of such a reward do not make it raise.
    Outside the float range the code raises [OverflowError], and nothing is
    said. *)
Theorem learn_raises_iff_unknown_action (ag : QLearningAgent) (s : State)
    (a : Direction) (r : Z) (next : option State) :
  table_wf ag ->
  in_float_range r ->
  (learn ag s a r next = None <-> ~ In a (actions ag)).
Proof.
  intros Hwf _. split.
  - intros Hnone Hin. destruct (learn_returns ag s a r next Hwf Hin) as (ag' & H).
    congruence.
  - intros Hn. unfold learn. by rewrite (index_of_None a (actions ag) Hn).
Qed.

(** ** Choosing an action *)

Lemma random_choice_In (pick : nat) (l : list Direction) :
  l <> [] -> exists a, random_choice pick l = Some a /\ In a l.
Proof.
  intros Hl. unfold random_choice.
  destruct (lookup_lt_is_Some_2 l (pick mod List.length l)) as (a & Ha).
  { apply Nat.mod_upper_bound. destruct l; [done|]. simpl. lia. }
  exists a. split; [done|]. apply list_elem_of_In, list_elem_of_lookup. eauto.
Qed.

Lemma choose_action_returns (ag : QLearningAgent) (rand : Qc) (pick : nat) (s : State) :
  table_wf ag -> actions ag <> [] ->
  exists a, choose_action ag rand pick s = Some a /\ In a (actions ag).
Proof.
  intros Hwf Hact. unfold choose_action.
  destruct (decide (rand < epsilon ag)%Qc); [by apply random_choice_In|].
  destruct (q_table ag !! s) as [row|] eqn:E; [|by apply random_choice_In].
  assert (Hlen : List.length row = List.length (actions ag)) by (by eapply Hwf).
  destruct (np_argmax_spec row) as (k & vk & Hk & Hvk & _).
  { intros ->. destruct (actions ag); [done|]. simpl in Hlen. lia. }
  destruct (lookup_lt_is_Some_2 (actions ag) k) as (a & Ha).
  { apply lookup_lt_Some in Hvk. lia. }
  exists a. rewrite Hk. simpl. split; [done|].
  apply list_elem_of_In, list_elem_of_lookup. eauto.
Qed.

(** X18: [choose_action] returns one of the agent's actions. On a
    well-formed table it raises exactly when the agent has no action at
    all; otherwise the result is an action of the list, whatever the draws
    and whether or not the state is stored, and it is the random draw
    whenever [np.random.rand()] falls below epsilon. *)
Theorem choose_action_in_actions (ag : QLearningAgent) (rand : Qc) (pick : nat)
    (s : State) :
  table_wf ag ->
  (choose_action ag rand pick s = None <-> actions ag = []) /\
  (forall a, choose_action ag rand pick s = Some a -> In a (actions ag)) /\
  ((rand < epsilon ag)%Qc ->
   choose_action ag rand pick s = random_choice pick (actions ag)).
Proof.
  intros Hwf. split; [|split].
  - split.
    + intros Hnone. destruct (actions ag) as [|b l] eqn:E; [done|].
      destruct (choose_action_returns ag rand pick s Hwf) as (a & Ha & _);
        [by rewrite E|congruence].
    + intros Hnil. unfold choose_action, random_choice. rewrite Hnil.
      destruct (decide (rand < epsilon ag)%Qc); [done|].
      destruct (q_table ag !! s) as [row|] eqn:E; [|done].
      destruct (np_argmax row); [|done]. simpl. apply lookup_nil.
  - intros a Ha. destruct (actions ag) as [|b l] eqn:E.
    + exfalso. unfold choose_action, random_choice in Ha. rewrite E in Ha.
      destruct (decide (rand < epsilon ag)%Qc); [done|].
      destruct (q_table ag !! s) as [row|]; [|done].
      destruct (np_argmax row); [|done]. simpl in Ha. by rewrite lookup_nil in Ha.
    + destruct (choose_action_returns ag rand pick s Hwf) as (a' & Ha' & Hin);
        [by rewrite E|].
      rewrite E in Hin. congruence.
  - intros Hlt. unfold choose_action. by rewrite decide_True.
Qed.

End AgentFacts.

Lemma learn_keeps_table_wf_witness :
  exists ag',
    Learning.learn (Learning.new_agent seen_table) first_state Down 10 None = Some ag' /\
    Learning.table_wf ag'.
Proof.
  destruct (Learning.learn (Learning.new_agent seen_table) first_state Down 10 None)
    as [ag'|] eqn:E; [|vm_compute in E; discriminate E].
  exists ag'. split; [reflexivity|].
  apply (learn_keeps_table_wf (Learning.new_agent seen_table) first_state Down 10 None ag').
  - apply seen_table_wf.
  - exact E.
Defined.

Lemma two_action_agent_wf : Learning.table_wf two_action_agent.
Proof. intros s row H. simpl in H. by rewrite lookup_empty in H. Qed.

Lemma learn_raises_iff_unknown_action_witness :
  Learning.learn two_action_agent first_state Up 10 None = None.
Proof.
  apply (learn_raises_iff_unknown_action two_action_agent first_state Up 10 None).
  - apply two_action_agent_wf.
  - split; apply Z.leb_le; vm_compute; reflexivity.
  - intros [H|[H|[]]]; discriminate H.
Defined.

Lemma choose_action_in_actions_witness :
  exists a,
    Learning.choose_action (Learning.new_agent seen_table) (Q2Qc (1 # 2)) 7 first_state
      = Some a /\
    In a Learning.default_actions.
Proof.
  destruct (Learning.choose_action (Learning.new_agent seen_table) (Q2Qc (1 # 2)) 7
              first_state) as [a|] eqn:E; [|vm_compute in E; discriminate E].
  exists a. split; [reflexivity|].
  destruct (choose_action_in_actions (Learning.new_agent seen_table) (Q2Qc (1 # 2)) 7
              first_state seen_table_wf) as (_ & H & _).
  exact (H a E).
Defined.

(* ===================================================================== *)
(** * What one update teaches *)
(* ===================================================================== *)

Section LessonFacts.
Import Learning.

Implicit Types (q : gmap State (list Qc)) (s : State) (row : list Qc).

(** [learn] in terms of the values read with the zero default. *)
Lemma learn_values (ag : QLearningAgent) (s : State) (a : Direction) (r : Z)
    (next : option State) :
  table_wf ag ->
  In a (actions ag) ->
  exists (i : nat) (ag' : QLearningAgent) (target : Qc),
    index_of a (actions ag) = Some i /\
    actions ag !! i = Some a /\
    (i < List.length (actions ag))%nat /\
    learn ag s a r next = Some ag' /\
    target_of (gamma ag)
      (ensure_next (List.length (actions ag)) next
         (ensure (List.length (actions ag)) s (q_table ag))) r next = Some target /\
    q_value (q_table ag') s i
    = (q_value (q_table ag) s i + lr ag * (target - q_value (q_table ag) s i))%Qc /\
    (forall s2 j, (s2, j) <> (s, i) ->
       q_value (q_table ag') s2 j = q_value (q_table ag) s2 j).
Proof.
  intros Hwf Hin.
  destruct (learn_unfold ag s a r next Hwf Hin)
    as (i & row0 & predict & target & Hi & Hai & Hlt & Hrow & Hlen & Hp & Ht & Hl).
  set (n := List.length (actions ag)) in *.
  set (q2 := ensure_next n next (ensure n s (q_table ag))) in *.
  assert (HQ : forall s2 j, q_value q2 s2 j = q_value (q_table ag) s2 j).
  { intros. unfold q2. by rewrite q_value_ensure_next, q_value_ensure. }
  assert (HQs : q_value (q_table ag) s i = predict).
  { rewrite <- HQ. rewrite (q_value_row _ _ _ _ Hrow), Hp. done. }
  exists i, (with_table ag
    (<[s := <[i := (predict + lr ag * (target - predict))%Qc]> row0]> q2)), target.
  split; [exact Hi|]. split; [exact Hai|]. split; [exact Hlt|].
  split; [exact Hl|]. split; [exact Ht|]. cbn [q_table with_table]. split.
  - rewrite HQs. unfold q_value.
    rewrite lookup_insert_eq, list_lookup_insert_eq by lia. done.
  - intros s2 j Hne. rewrite <- HQ. unfold q_value.
    destruct (decide (s = s2)) as [<-|Hs].
    + rewrite lookup_insert_eq, Hrow.
      rewrite list_lookup_insert_ne; [done|]. intros ->. by apply Hne.
    + by rewrite lookup_insert_ne.
Qed.

(** With nothing learnt yet about the next state, the target is the
    reward. *)
Lemma target_of_fresh (ag : QLearningAgent) (s : State) (r : Z) (next : option State)
    (target : Qc) :
  match next with
  | Some s' => forall j, q_value (q_table ag) s' j = Q2Qc 0
  | None => True
  end ->
  target_of (gamma ag)
    (ensure_next (List.length (actions ag)) next
       (ensure (List.length (actions ag)) s (q_table ag))) r next = Some target ->
  target = Qc_of_Z r.
Proof.
  destruct next as [s'|]; [|by intros _ [= <-]].
  intros Hzero. unfold target_of.
  set (q2 := ensure_next _ _ _).
  assert (HQ : forall j, q_value q2 s' j = Q2Qc 0).
  { intros j. unfold q2. by rewrite q_value_ensure_next, q_value_ensure. }
  destruct (q2 !! s') as [row'|] eqn:E; [|done]. cbn.
  destruct (np_max row') as [m0|] eqn:Em; [|done].
  destruct (np_max_spec row') as (m & Hm & Hmin & _); [by intros ->|].
  rewrite Hm in Em. injection Em as <-.
  cbn. intros [= <-].
  apply list_elem_of_In, list_elem_of_lookup in Hmin as (j & Hj).
  specialize (HQ j). rewrite (q_value_row _ _ _ _ E), Hj in HQ. cbn in HQ.
  rewrite HQ. ring.
Qed.

(** X19: the first lesson about a state decides the greedy choice there.
    On a table that holds nothing but zeros for [state] and for
    [next_state], after one [learn] with a positive learning rate a
    non-exploring [choose_action] in that state returns the action that was
    rewarded, when the reward was positive, and another action than the one
    that was punished, when it was negative. *)
Theorem learn_then_greedy (ag : QLearningAgent) (s : State) (a : Direction) (r : Z)
    (next : option State) (ag' : QLearningAgent) (rand : Qc) (pick : nat) :
  table_wf ag ->
  NoDup (actions ag) ->
  (2 <= List.length (actions ag))%nat ->
  (forall j, q_value (q_table ag) s j = Q2Qc 0) ->
  match next with
  | Some s' => forall j, q_value (q_table ag) s' j = Q2Qc 0
  | None => True
  end ->
  (Q2Qc 0 < lr ag)%Qc ->
  learn ag s a r next = Some ag' ->
  ~ (rand < epsilon ag)%Qc ->
  exists b,
    choose_action ag' rand pick s = Some b /\
    (0 < r -> b = a) /\
    (r < 0 -> b <> a).
Proof.
  intros Hwf Hnd Hlen Hzero Hnext Hlr Hrun Hrand.
  assert (Hin : In a (actions ag)).
  { unfold learn in Hrun. destruct (index_of a (actions ag)) as [i|] eqn:E; [|done].
    by eapply index_of_In. }
  destruct (learn_shape ag s a r next ag' Hwf Hrun)
    as (Hwf' & Hact & _ & _ & Heps & Hdom).
  destruct (learn_values ag s a r next Hwf Hin)
    as (i & ag2 & target & Hi & Hai & Hlt & Hl & Ht & Hv & Hrest).
  rewrite Hl in Hrun. injection Hrun as ->.
  apply target_of_fresh in Ht; [|exact Hnext]. subst target.
  rewrite Hzero in Hv.
  assert (Hval : q_value (q_table ag') s i = (lr ag * Qc_of_Z r)%Qc)
    by (rewrite Hv; ring).
  clear Hv.
  (* the row of [s] after the update *)
  assert (Hs : s ∈ dom (q_table ag')).
  { rewrite Hdom. apply elem_of_union_l, elem_of_union_r. by apply elem_of_singleton. }
  apply elem_of_dom in Hs as (row1 & Hrow1).
  assert (Hlen1 : List.length row1 = List.length (actions ag)).
  { rewrite <- Hact. by eapply Hwf'. }
  assert (Hread : forall j v, row1 !! j = Some v -> v = q_value (q_table ag') s j).
  { intros j v Hj. by rewrite (q_value_row _ _ _ _ Hrow1), Hj. }
  assert (Hother : forall j v, j <> i -> row1 !! j = Some v -> v = Q2Qc 0).
  { intros j v Hne Hj. rewrite (Hread j v Hj), Hrest; [apply Hzero|]. congruence. }
  destruct (lookup_lt_is_Some_2 row1 i) as (vi & Hvi); [lia|].
  assert (Hvi' : vi = (lr ag * Qc_of_Z r)%Qc) by (by rewrite (Hread i vi Hvi)).
  destruct (np_argmax_spec row1) as (k & vk & Hk & Hvk & Hle & _).
  { intros ->. simpl in Hlen1. lia. }
  destruct (lookup_lt_is_Some_2 (actions ag) k) as (b & Hb).
  { apply lookup_lt_Some in Hvk. lia. }
  exists b. split; [|split].
  - unfold choose_action. rewrite Heps, decide_False by exact Hrand.
    rewrite Hrow1, Hk. cbn. by rewrite Hact.
  - intros Hr.
    assert (Hpos : (Q2Qc 0 < vi)%Qc).
    { rewrite Hvi'. apply Qcmult_pos_pos; [exact Hlr|].
      change (Q2Qc 0) with (Qc_of_Z 0). apply Qc_of_Z_lt. lia. }
    destruct (decide (k = i)) as [->|Hne]; [congruence|].
    exfalso. pose proof (Hother k vk Hne Hvk) as ->.
    apply (Qclt_not_le _ _ Hpos). by eapply Hle.
  - intros Hr Heq. subst b.
    assert (Hneg : (vi < Q2Qc 0)%Qc).
    { rewrite Hvi'. replace (Q2Qc 0) with (lr ag * Qc_of_Z 0)%Qc
        by (change (Qc_of_Z 0) with (Q2Qc 0); ring).
      apply Qcmult_lt_mono_pos_l; [exact Hlr|]. apply Qc_of_Z_lt. lia. }
    assert (k = i) as -> by (by eapply NoDup_lookup).
    assert (vk = vi) as -> by congruence.
    set (j := if decide (i = 0%nat) then 1%nat else 0%nat).
    assert (Hj : j <> i /\ (j < List.length row1)%nat).
    { unfold j. destruct (decide (i = 0%nat)); lia. }
    destruct (lookup_lt_is_Some_2 row1 j) as (vj & Hvj); [lia|].
    pose proof (Hother j vj (proj1 Hj) Hvj) as ->.
    apply (Qclt_not_le _ _ Hneg). by eapply Hle.
Qed.

End LessonFacts.

(** ** The apple of Learning.py *)

Section AppleCycle.
Import LearningGame.

Lemma learning_move_spec (a : Apple) :
  learning_apple_wf a ->
  exists a',
    move a = Some a' /\ learning_apple_wf a' /\
    x_list a' = x_list a /\ y_list a' = y_list a /\
    count a' = (S (count a) mod List.length (x_list a))%nat /\
    x_list a !! count a = Some (apple_x a') /\
    y_list a !! count a = Some (apple_y a').
Proof.
  intros (Hlen & Hc). unfold move.
  destruct (lookup_lt_is_Some_2 (x_list a) (count a)) as (px & Hx); [lia|].
  destruct (lookup_lt_is_Some_2 (y_list a) (count a)) as (py & Hy); [lia|].
  unfold py_mod. rewrite Hx, Hy, decide_False by lia.
  replace (count a + 1)%nat with (S (count a)) by lia.
  eexists. split; [reflexivity|].
  unfold learning_apple_wf. cbn [apple_x apple_y x_list y_list count].
  split; [|done]. split; [exact Hlen|].
  apply Nat.mod_upper_bound. lia.
Qed.

(** X20: the apple of Learning.py walks round its list of positions
    forever. With the two lists equally long and the counter inside them,
    any number [k] of calls of [move] returns; the lists are left alone, the
    counter is [(count + k) mod len], and after at least one call the apple
    sits on entry [(count + k - 1) mod len]: position [k + len] is position
    [k] again, whatever the snake occupies. *)
Theorem learning_apple_cycles (a : Apple) (k : nat) :
  learning_apple_wf a ->
  exists a',
    move_times k a = Some a' /\ learning_apple_wf a' /\
    x_list a' = x_list a /\ y_list a' = y_list a /\
    count a' = ((count a + k) mod List.length (x_list a))%nat /\
    ((0 < k)%nat ->
     x_list a !! ((count a + k - 1) mod List.length (x_list a))%nat = Some (apple_x a') /\
     y_list a !! ((count a + k - 1) mod List.length (x_list a))%nat = Some (apple_y a')).
Proof.
  revert a. induction k as [|k IH]; intros a Hwf.
  - exists a. cbn [move_times]. split; [done|]. split; [done|]. split; [done|].
    split; [done|]. split; [|lia].
    rewrite Nat.add_0_r, Nat.mod_small; [done|]. apply Hwf.
  - destruct (learning_move_spec a Hwf) as (a1 & Hm & Hwf1 & Hx1 & Hy1 & Hc1 & Hpx & Hpy).
    destruct (IH a1 Hwf1) as (a' & Hrun & Hwf' & Hx' & Hy' & Hc' & Hpos).
    exists a'. cbn [move_times]. rewrite Hm. cbn.
    split; [exact Hrun|]. split; [exact Hwf'|].
    split; [congruence|]. split; [congruence|].
    rewrite Hx1 in *. rewrite Hy1 in *.
    assert (Hn : (List.length (x_list a) <> 0)%nat) by (destruct Hwf; lia).
    split.
    + rewrite Hc', Hc1. rewrite Nat.Div0.add_mod_idemp_l. f_equal. lia.
    + intros _. destruct k as [|k].
      * cbn [move_times] in Hrun. injection Hrun as <-.
        replace (count a + 1 - 1)%nat with (count a) by lia.
        rewrite Nat.mod_small by (destruct Hwf; lia). done.
      * destruct Hpos as (Hpx' & Hpy'); [lia|].
        rewrite Hc1 in Hpx', Hpy'.
        replace (S (count a) mod List.length (x_list a) + S k - 1)%nat
          with (S (count a) mod List.length (x_list a) + k)%nat in * by lia.
        rewrite Nat.Div0.add_mod_idemp_l in Hpx', Hpy'.
        replace (count a + S (S k) - 1)%nat with (S (count a) + k)%nat by lia.
        done.
Qed.

End AppleCycle.

Lemma learn_then_greedy_witness :
  exists ag' b,
    Learning.learn (Learning.new_agent ∅) first_state Down (-10) None = Some ag' /\
    Learning.choose_action ag' (Q2Qc (1 # 2)) 0 first_state = Some b /\
    b <> Down.
Proof.
  destruct (Learning.learn (Learning.new_agent ∅) first_state Down (-10) None)
    as [ag'|] eqn:E; [|vm_compute in E; discriminate E].
  destruct (learn_then_greedy (Learning.new_agent ∅) first_state Down (-10) None ag'
              (Q2Qc (1 # 2)) 0) as (b & Hb & _ & Hneg).
  - intros s row H. simpl in H. by rewrite lookup_empty in H.
  - apply NoDup_ListNoDup. cbn.
    repeat (apply List.NoDup_cons; [cbn; intuition discriminate|]).
    apply List.NoDup_nil.
  - simpl. lia.
  - intros j. reflexivity.
  - exact I.
  - reflexivity.
  - exact E.
  - intros H. vm_compute in H. discriminate H.
  - exists ag', b. split; [reflexivity|]. split; [exact Hb|]. apply Hneg. lia.
Defined.

Lemma init_apple_wf : learning_apple_wf LearningGame.init_apple.
Proof. split; simpl; lia. Qed.

Lemma learning_apple_cycles_witness :
  exists a',
    move_times 31 LearningGame.init_apple = Some a' /\
    LearningGame.apple_x a' = 320 /\ LearningGame.apple_y a' = 560.
Proof.
  destruct (learning_apple_cycles LearningGame.init_apple 31 init_apple_wf)
    as (a' & Hrun & _ & _ & _ & _ & Hpos).
  destruct Hpos as (Hx & Hy); [lia|].
  exists a'. split; [exact Hrun|].
  change (Some 320 = Some (LearningGame.apple_x a')) in Hx.
  change (Some 560 = Some (LearningGame.apple_y a')) in Hy.
  split; congruence.
Defined.

(* ===================================================================== *)
(** * A round of the learning game *)
(* ===================================================================== *)

Section RoundFacts.
Import Learning LearningGame.

Lemma apply_action_body (s : Snake) (d : Direction) :
  x (apply_action s d) = x s /\ y (apply_action s d) = y s /\
  length (apply_action s d) = length s /\
  direction (apply_action s d) <> Utilitybased.opposites (direction s).
Proof.
  destruct s as [dir len xs ys].
  destruct d, dir; cbn; (split; [done|]); (split; [done|]); (split; [done|]);
    discriminate.
Qed.

Lemma learning_play_spec (s : Snake) (a : Apple) :
  snake_wf s -> learning_apple_wf a ->
  exists s' a' reward,
    play s a = Some (s', a', reward) /\
    snake_wf s' /\ learning_apple_wf a' /\
    direction s' = direction s /\
    (reward = 0 \/ reward = 10).
Proof.
  intros Hs Ha. unfold play.
  destruct (learning_walk_spec s Hs) as (s1 & Hw & Hwf1 & _ & Hd & _).
  rewrite (bind_Some _ _ _ Hw).
  destruct (is_collision _ _ _ _).
  - destruct (learning_move_spec a Ha) as (a1 & Hm & Hwf' & _).
    rewrite (bind_Some _ _ _ Hm).
    exists (increase_length s1), a1, 10. split; [reflexivity|].
    split; [by apply learning_increase_length_wf|]. split; [exact Hwf'|].
    split; [exact Hd|by right].
  - exists s1, a, 0. split; [reflexivity|]. split; [exact Hwf1|].
    split; [exact Ha|]. split; [exact Hd|by left].
Qed.

(** The course of one [learning_control]. *)
Lemma learning_control_outcome (g : Game) (rand : Qc) (pick : nat) :
  learning_game_wf g ->
  let state := get_state (snake g) (apple g) in
  exists action s' a' reward,
    choose_action (agent g) rand pick state = Some action /\
    In action (actions (agent g)) /\
    play (apply_action (snake g) action) (apple g) = Some (s', a', reward) /\
    snake_wf s' /\ learning_apple_wf a' /\
    direction s' <> Utilitybased.opposites (direction (snake g)) /\
    (reward = 0 \/ reward = 10) /\
    match learning_control g rand pick with
    | Some (g', crashed) =>
        exists ag',
          g' = {| surface_width := surface_width g; surface_height := surface_height g;
                  snake := s'; apple := a'; agent := ag';
                  prev_state := if crashed then prev_state g else Some state;
                  prev_action := if crashed then prev_action g else Some action |} /\
          if crashed then
            exists ps pa,
              prev_state g = Some ps /\ prev_action g = Some pa /\
              learn (agent g) ps pa (-10) None = Some ag'
          else
            match prev_state g, prev_action g with
            | Some ps, Some pa => learn (agent g) ps pa reward (Some state) = Some ag'
            | _, _ => ag' = agent g
            end
    | None => prev_state g = None /\ prev_action g = None
    end.
Proof.
  intros (Hs & Ha & Hwf & Hact & Hprev) state.
  destruct (choose_action_returns (agent g) rand pick state Hwf Hact)
    as (action & Hch & Hin).
  destruct (apply_action_body (snake g) action) as (Hx & Hy & Hl & Hd).
  assert (Hs1 : snake_wf (apply_action (snake g) action)).
  { unfold snake_wf. rewrite Hx, Hy, Hl. exact Hs. }
  destruct (learning_play_spec _ (apple g) Hs1 Ha)
    as (s' & a' & reward & Hp & Hs' & Ha' & Hd' & Hr).
  exists action, s', a', reward.
  split; [exact Hch|]. split; [exact Hin|]. split; [exact Hp|].
  split; [exact Hs'|]. split; [exact Ha'|].
  split; [by rewrite Hd'|]. split; [exact Hr|].
  unfold learning_control. cbv zeta. fold state.
  rewrite (bind_Some _ _ _ Hch), (bind_Some _ _ _ Hp). cbn [fst snd].
  destruct (self_collision s' || check_wall_collision _).
  - destruct (prev_state g) as [ps|], (prev_action g) as [pa|]; try done.
    destruct (learn_returns (agent g) ps pa (-10) None Hwf Hprev) as (ag' & Hl').
    cbn [mbind option_bind]. rewrite (bind_Some _ _ _ Hl').
    exists ag'. split; [reflexivity|]. by exists ps, pa.
  - destruct (prev_state g) as [ps|], (prev_action g) as [pa|]; try done.
    + destruct (learn_returns (agent g) ps pa reward (Some state) Hwf Hprev)
        as (ag' & Hl').
      rewrite (bind_Some _ _ _ Hl'). exists ag'. by split.
    + cbn [mbind option_bind]. exists (agent g). by split.
Qed.

Lemma learning_control_invariant (g : Game) (rand : Qc) (pick : nat) :
  learning_game_wf g ->
  match learning_control g rand pick with
  | Some (g', crashed) =>
      learning_game_wf g' /\
      surface_width g' = surface_width g /\ surface_height g' = surface_height g /\
      direction (snake g') <> Utilitybased.opposites (direction (snake g)) /\
      (if crashed
       then prev_state g' = prev_state g /\ prev_action g' = prev_action g
       else prev_state g' = Some (get_state (snake g) (apple g)) /\
            prev_action g'
            = choose_action (agent g) rand pick (get_state (snake g) (apple g)))
  | None => prev_state g = None /\ prev_action g = None
  end.
Proof.
  intros Hg.
  destruct (learning_control_outcome g rand pick Hg)
    as (action & s' & a' & reward & Hch & Hin & Hp & Hs' & Ha' & Hd & Hr & Hout).
  destruct Hg as (Hs & Ha & Hwf & Hact & Hprev).
  destruct (learning_control g rand pick) as [[g' crashed]|]; [|exact Hout].
  destruct Hout as (ag' & -> & Hag). cbn [surface_width surface_height snake
    prev_state prev_action].
  assert (Hshape : table_wf ag' /\ actions ag' = actions (agent g)).
  { destruct crashed.
    - destruct Hag as (ps & pa & _ & _ & Hl).
      destruct (learn_shape _ _ _ _ _ _ Hwf Hl) as (? & ? & _). by split.
    - destruct (prev_state g) as [ps|], (prev_action g) as [pa|];
        try (by subst ag').
      destruct (learn_shape _ _ _ _ _ _ Hwf Hag) as (? & ? & _). by split. }
  destruct Hshape as (Hwf' & Hact').
  split; [|split; [done|split; [done|split; [exact Hd|]]]].
  - unfold learning_game_wf. cbn [snake apple agent prev_state prev_action].
    split; [exact Hs'|]. split; [exact Ha'|]. split; [exact Hwf'|].
    split; [by rewrite Hact'|]. rewrite Hact'. destruct crashed; [exact Hprev|exact Hin].
  - destruct crashed; [by split|]. by rewrite Hch.
Qed.

(** X21: one tick keeps the game well formed. From a well-formed game,
    [learning_control] raises nothing but "Collision Occurred", except on a
    collision with no earlier tick to learn from, where [learn] is called
    with [None] for the action. When it returns or raises "Collision
    Occurred" the game is well formed again, the heading is not the reverse
    of the one before, and after a return [prev_state] is the state observed
    before the move and [prev_action] the action chosen there. *)
Theorem learning_control_keeps_wf (g : Game) (rand : Qc) (pick : nat) :
  learning_game_wf g ->
  match learning_control g rand pick with
  | Some (g', crashed) =>
      learning_game_wf g' /\
      surface_width g' = surface_width g /\ surface_height g' = surface_height g /\
      direction (snake g') <> Utilitybased.opposites (direction (snake g)) /\
      (if crashed
       then prev_state g' = prev_state g /\ prev_action g' = prev_action g
       else prev_state g' = Some (get_state (snake g) (apple g)) /\
            prev_action g'
            = choose_action (agent g) rand pick (get_state (snake g) (apple g)))
  | None => prev_state g = None /\ prev_action g = None
  end.
Proof. exact (learning_control_invariant g rand pick). Qed.

(** X22: a tick credits the tick before. Whatever a tick of
    [learning_control] earns, the only value it can change is that of
    [prev_state] and [prev_action], the state and action of the tick before;
    with nothing remembered it changes no value and cannot end in a
    collision report. On a collision that value moves towards -10 by the
    learning rate, also when the apple was eaten in the same tick. *)
Theorem learning_control_credits_previous (g : Game) (rand : Qc) (pick : nat)
    (g' : Game) (crashed : bool) :
  learning_game_wf g ->
  learning_control g rand pick = Some (g', crashed) ->
  match prev_state g, prev_action g with
  | Some ps, Some pa =>
      exists i,
        index_of pa (actions (agent g)) = Some i /\
        (forall s2 j, (s2, j) <> (ps, i) ->
           q_value (q_table (agent g')) s2 j = q_value (q_table (agent g)) s2 j) /\
        (crashed = true ->
           q_value (q_table (agent g')) ps i
           = (q_value (q_table (agent g)) ps i
              + lr (agent g) * (Qc_of_Z (-10) - q_value (q_table (agent g)) ps i))%Qc)
  | _, _ => crashed = false /\ agent g' = agent g
  end.
Proof.
  intros Hg Hrun.
  destruct (learning_control_outcome g rand pick Hg)
    as (action & s' & a' & reward & _ & _ & _ & _ & _ & _ & _ & Hout).
  destruct Hg as (_ & _ & Hwf & _ & Hprev).
  rewrite Hrun in Hout. destruct Hout as (ag' & -> & Hag). cbn [agent].
  destruct crashed.
  - destruct Hag as (ps & pa & Hps & Hpa & Hl). rewrite Hps, Hpa in *.
    destruct (learn_values (agent g) ps pa (-10) None Hwf Hprev)
      as (i & ag2 & target & Hi & _ & _ & Hl2 & Ht & Hv & Hrest).
    rewrite Hl in Hl2. injection Hl2 as <-.
    cbn [target_of] in Ht. injection Ht as <-.
    exists i. split; [exact Hi|]. split; [exact Hrest|]. intros _. exact Hv.
  - destruct (prev_state g) as [ps|], (prev_action g) as [pa|]; try done.
    destruct (learn_values (agent g) ps pa reward
                (Some (get_state (snake g) (apple g))) Hwf Hprev)
      as (i & ag2 & target & Hi & _ & _ & Hl2 & _ & _ & Hrest).
    rewrite Hag in Hl2. injection Hl2 as <-.
    exists i. split; [exact Hi|]. split; [exact Hrest|]. discriminate.
Qed.

(** ** From a reset to the game over *)

Lemma reset_game_wf (ag : QLearningAgent) :
  table_wf ag -> actions ag = default_actions -> learning_game_wf (reset_game ag).
Proof.
  intros Hwf Hact. unfold learning_game_wf, reset_game.
  cbn [snake apple agent prev_state prev_action].
  split; [apply learning_init_snake_wf|]. split; [apply init_apple_wf|].
  split; [exact Hwf|]. split; [by rewrite Hact|done].
Qed.

(** The first tick after a reset cannot end in a collision. *)
Lemma first_tick (ag : QLearningAgent) (rand : Qc) (pick : nat) :
  table_wf ag -> actions ag = default_actions ->
  exists g', learning_control (reset_game ag) rand pick = Some (g', false).
Proof.
  intros Hwf Hact.
  destruct (choose_action_returns ag rand pick
              (get_state (snake (reset_game ag)) (apple (reset_game ag))) Hwf)
    as (action & Hch & _); [by rewrite Hact|].
  unfold learning_control. cbv zeta.
  change (agent (reset_game ag)) with ag.
  rewrite (bind_Some _ _ _ Hch).
  destruct action; eexists; reflexivity.
Qed.

Lemma later_tick (g : Game) (rand : Qc) (pick : nat) :
  learning_game_wf g -> is_Some (prev_state g) ->
  exists g' crashed,
    learning_control g rand pick = Some (g', crashed) /\
    learning_game_wf g' /\ is_Some (prev_state g').
Proof.
  intros Hg Hsome.
  pose proof (learning_control_invariant g rand pick Hg) as Hinv.
  destruct (learning_control g rand pick) as [[g' crashed]|].
  - destruct Hinv as (Hg' & _ & _ & _ & Hp). exists g', crashed.
    split; [done|]. split; [exact Hg'|].
    destruct crashed; destruct Hp as (-> & _); [exact Hsome|by eexists].
  - destruct Hinv as (Hn & _). rewrite Hn in Hsome. by destruct Hsome.
Qed.

Lemma get_state_in_space (s : Snake) (a : Apple) : In (get_state s a) state_space.
Proof.
  unfold get_state. cbv zeta.
  destruct (seg_x s 0 <? apple_x a), (apple_x a <? seg_x s 0),
    (seg_y s 0 <? apple_y a), (apple_y a <? seg_y s 0), (direction s);
    apply list_elem_of_In, (bool_decide_unpack _); by vm_compute.
Qed.

Lemma state_space_size (X : gset State) :
  (forall s, s ∈ X -> In s state_space) -> (size X <= 36)%nat.
Proof.
  intros Hsub.
  assert (Hnd : NoDup state_space) by (apply (bool_decide_unpack _); by vm_compute).
  change 36%nat with (List.length state_space).
  rewrite <- (size_list_to_set (C := gset State) state_space Hnd).
  apply subseteq_size. intros s Hs. apply elem_of_list_to_set, list_elem_of_In.
  by apply Hsub.
Qed.

(** Where the keys of the table come from. *)
Lemma learning_control_keys (g : Game) (rand : Qc) (pick : nat) (g' : Game)
    (crashed : bool) :
  learning_game_wf g ->
  learning_control g rand pick = Some (g', crashed) ->
  (forall s, s ∈ dom (q_table (agent g)) -> In s state_space) ->
  (forall ps, prev_state g = Some ps -> In ps state_space) ->
  (forall s, s ∈ dom (q_table (agent g')) -> In s state_space) /\
  (forall ps, prev_state g' = Some ps -> In ps state_space).
Proof.
  intros Hg Hrun Hdom Hps.
  destruct (learning_control_outcome g rand pick Hg)
    as (action & s' & a' & reward & _ & _ & _ & _ & _ & _ & _ & Hout).
  destruct Hg as (_ & _ & Hwf & _ & Hprev).
  rewrite Hrun in Hout. destruct Hout as (ag' & -> & Hag).
  cbn [agent prev_state].
  destruct crashed.
  - destruct Hag as (ps & pa & Hp1 & Hp2 & Hl).
    destruct (learn_shape _ _ _ _ _ _ Hwf Hl) as (_ & _ & _ & _ & _ & Hd).
    split; [|exact Hps].
    intros s. rewrite Hd, !elem_of_union, elem_of_singleton.
    intros [[H| ->]|H]; [by apply Hdom|by apply Hps|by apply not_elem_of_empty in H].
  - split; [|intros ps [= <-]; apply get_state_in_space].
    destruct (prev_state g) as [ps|] eqn:Ep, (prev_action g) as [pa|];
      try (by subst ag').
    destruct (learn_shape _ _ _ _ _ _ Hwf Hag) as (_ & _ & _ & _ & _ & Hd).
    intros s. rewrite Hd, !elem_of_union, !elem_of_singleton.
    intros [[H| ->]| ->]; [by apply Hdom|by apply Hps|apply get_state_in_space].
Qed.

Lemma run_ticks_later (draws : list (Qc * nat)) :
  forall g : Game,
    learning_game_wf g -> is_Some (prev_state g) ->
    exists g' crashed,
      run_ticks g draws = Some (g', crashed) /\ learning_game_wf g' /\
      ((forall s, s ∈ dom (q_table (agent g)) -> In s state_space) ->
       (forall ps, prev_state g = Some ps -> In ps state_space) ->
       forall s, s ∈ dom (q_table (agent g')) -> In s state_space).
Proof.
  induction draws as [|d rest IH]; intros g Hg Hsome.
  - exists g, false. split; [done|]. split; [exact Hg|]. auto.
  - cbn [run_ticks].
    destruct (later_tick g d.1 d.2 Hg Hsome) as (g1 & crashed & Hrun & Hg1 & Hsome1).
    rewrite Hrun.
    pose proof (learning_control_keys g d.1 d.2 g1 crashed Hg Hrun) as Hkeys.
    destruct crashed.
    + exists g1, true. split; [done|]. split; [exact Hg1|].
      intros Hd Hp. by apply Hkeys.
    + destruct (IH g1 Hg1 Hsome1) as (g' & c & Hrest & Hg' & Hk').
      exists g', c. split; [exact Hrest|]. split; [exact Hg'|].
      intros Hd Hp. destruct (Hkeys Hd Hp) as (Hd1 & Hp1). by apply Hk'.
Qed.

Lemma run_ticks_from_reset (ag : QLearningAgent) (draws : list (Qc * nat)) :
  table_wf ag -> actions ag = default_actions ->
  exists g' crashed,
    run_ticks (reset_game ag) draws = Some (g', crashed) /\
    learning_game_wf g' /\
    ((forall s, s ∈ dom (q_table ag) -> In s state_space) ->
     forall s, s ∈ dom (q_table (agent g')) -> In s state_space).
Proof.
  intros Hwf Hact. pose proof (reset_game_wf ag Hwf Hact) as Hg.
  destruct draws as [|d rest].
  - exists (reset_game ag), false. split; [done|]. split; [exact Hg|]. auto.
  - cbn [run_ticks].
    destruct (first_tick ag d.1 d.2 Hwf Hact) as (g1 & Hrun).
    pose proof (learning_control_invariant (reset_game ag) d.1 d.2 Hg) as Hinv.
    pose proof (learning_control_keys (reset_game ag) d.1 d.2 g1 false Hg Hrun) as Hkeys.
    rewrite Hrun in *. destruct Hinv as (Hg1 & _ & _ & _ & Hp1 & _).
    destruct (run_ticks_later rest g1 Hg1) as (g' & c & Hrest & Hg' & Hk');
      [by rewrite Hp1|].
    exists g', c. split; [exact Hrest|]. split; [exact Hg'|].
    intros Hd. destruct (Hkeys Hd) as (Hd1 & Hps1); [done|]. by apply Hk'.
Qed.

(** X23: a round of the learning game ends in "Collision Occurred" or not at
    all. From a reset, with a well-formed table and the four actions, for
    every number of ticks and every sequence of random draws, no
    [learning_control] raises an [IndexError], a [ValueError] or a
    [ZeroDivisionError]: the ticks return until one reports a collision,
    which the first tick never does, and the game stays well formed. *)
Theorem learning_run_raises_only_collisions
    (ag : QLearningAgent) (draws : list (Qc * nat)) :
  table_wf ag ->
  actions ag = default_actions ->
  (forall rand pick, exists g1,
      learning_control (reset_game ag) rand pick = Some (g1, false)) /\
  exists g' crashed,
    run_ticks (reset_game ag) draws = Some (g', crashed) /\
    learning_game_wf g'.
Proof.
  intros Hwf Hact. split.
  - intros rand pick. by apply first_tick.
  - destruct (run_ticks_from_reset ag draws Hwf Hact) as (g' & c & Hrun & Hg' & _).
    by exists g', c.
Qed.

(** X24: the table never outgrows the 36 states [get_state] can tell
    apart. If every stored state is one of the three signs for each axis
    and the four heading codes, as in the empty table of a new agent, so is
    every state stored after a round of any length, and the table holds at
    most 36 vectors. *)
Theorem learning_table_stays_small
    (ag : QLearningAgent) (draws : list (Qc * nat)) (g' : Game) (crashed : bool) :
  table_wf ag ->
  actions ag = default_actions ->
  (forall s, s ∈ dom (q_table ag) -> In s state_space) ->
  run_ticks (reset_game ag) draws = Some (g', crashed) ->
  (forall s, s ∈ dom (q_table (agent g')) -> In s state_space) /\
  (size (dom (q_table (agent g'))) <= 36)%nat.
Proof.
  intros Hwf Hact Hdom Hrun.
  destruct (run_ticks_from_reset ag draws Hwf Hact) as (g2 & c & Hrun2 & _ & Hk).
  rewrite Hrun in Hrun2. injection Hrun2 as <- <-.
  split; [by apply Hk|]. apply state_space_size. by apply Hk.
Qed.

End RoundFacts.

Lemma new_agent_wf : Learning.table_wf (Learning.new_agent ∅).
Proof. intros s row H. simpl in H. by rewrite lookup_empty in H. Qed.

Lemma learning_control_keeps_wf_witness :
  match LearningGame.learning_control (reset_game (Learning.new_agent ∅)) (Q2Qc (1 # 2)) 1 with
  | Some (g', _) => learning_game_wf g'
  | None => False
  end.
Proof.
  pose proof (learning_control_keeps_wf (reset_game (Learning.new_agent ∅)) (Q2Qc (1 # 2)) 1
                (reset_game_wf _ new_agent_wf eq_refl)) as H.
  destruct (LearningGame.learning_control (reset_game (Learning.new_agent ∅))
              (Q2Qc (1 # 2)) 1) as [[g' c]|] eqn:E.
  - exact (proj1 H).
  - vm_compute in E. discriminate E.
Defined.

Lemma learning_control_credits_previous_witness :
  exists g',
    LearningGame.learning_control (reset_game (Learning.new_agent ∅)) (Q2Qc (1 # 2)) 1
      = Some (g', false) /\
    LearningGame.agent g' = Learning.new_agent ∅.
Proof.
  destruct (LearningGame.learning_control (reset_game (Learning.new_agent ∅))
              (Q2Qc (1 # 2)) 1) as [[g' crashed]|] eqn:E;
    [|vm_compute in E; discriminate E].
  destruct (learning_control_credits_previous (reset_game (Learning.new_agent ∅))
              (Q2Qc (1 # 2)) 1 g' crashed (reset_game_wf _ new_agent_wf eq_refl) E)
    as (-> & Hag).
  exists g'. split; [reflexivity|exact Hag].
Defined.

Lemma learning_run_raises_only_collisions_witness :
  exists g' crashed,
    run_ticks (reset_game (Learning.new_agent ∅))
      [(Q2Qc (1 # 2), 1%nat); (Q2Qc (1 # 10), 3%nat); (Q2Qc (1 # 2), 0%nat)]
    = Some (g', crashed) /\
    learning_game_wf g'.
Proof.
  exact (proj2 (learning_run_raises_only_collisions (Learning.new_agent ∅)
                  [(Q2Qc (1 # 2), 1%nat); (Q2Qc (1 # 10), 3%nat); (Q2Qc (1 # 2), 0%nat)]
                  new_agent_wf eq_refl)).
Defined.

Lemma learning_table_stays_small_witness :
  exists g' crashed,
    run_ticks (reset_game (Learning.new_agent ∅))
      [(Q2Qc (1 # 2), 1%nat); (Q2Qc (1 # 10), 3%nat); (Q2Qc (1 # 2), 0%nat)]
    = Some (g', crashed) /\
    (size (dom (Learning.q_table (LearningGame.agent g'))) <= 36)%nat.
Proof.
  destruct (run_ticks (reset_game (Learning.new_agent ∅))
              [(Q2Qc (1 # 2), 1%nat); (Q2Qc (1 # 10), 3%nat); (Q2Qc (1 # 2), 0%nat)])
    as [[g' crashed]|] eqn:E; [|vm_compute in E; discriminate E].
  exists g', crashed. split; [reflexivity|].
  refine (proj2 (learning_table_stays_small (Learning.new_agent ∅) _ g' crashed
                   new_agent_wf eq_refl _ E)).
  intros s Hs. exfalso.
  change (Learning.q_table (Learning.new_agent ∅))
    with (∅ : gmap Learning.State (list Qc)) in Hs.
  rewrite dom_empty_L in Hs. exact (not_elem_of_empty s Hs).
Defined.

(* ===================================================================== *)
(** * Where the apple lands, and the range of the sub-scores *)
(* ===================================================================== *)

Section PlacementFacts.
Import Utilitybased.

Lemma valid_positions_spec (a : Apple) (pos : list Cell) (p : Cell) :
  p ∈ valid_positions a pos <->
  p.1 ∈ range_SIZE (screen_width a - SIZE) /\
  p.2 ∈ range_SIZE (screen_height a - SIZE) /\
  p ∉ pos.
Proof.
  unfold valid_positions. rewrite list_elem_of_bind. split.
  - intros (px & H & Hx). apply list_elem_of_bind in H as (py & H & Hy).
    destruct (bool_decide ((px, py) ∈ pos)) eqn:E; [by apply elem_of_nil in H|].
    apply list_elem_of_singleton in H as ->.
    apply bool_decide_eq_false in E. done.
  - intros (Hx & Hy & Hp). exists p.1. split; [|exact Hx].
    apply list_elem_of_bind. exists p.2. split; [|exact Hy].
    destruct p as [px py]. cbn [fst snd].
    rewrite bool_decide_eq_false_2 by exact Hp. by apply list_elem_of_singleton.
Qed.

(** X25: while a candidate cell is free, [Apple.move] puts the apple on an
    aligned cell that the snake does not occupy and that lies neither in
    the last column nor in the last row of the surface: the two [range]
    calls stop one block short of the width and the height. The sizes the
    apple remembers do not change. *)
Theorem apple_move_keeps_off_snake_and_border
    (a : Apple) (pos : list Cell) (d1 d2 : nat) :
  valid_positions a pos <> [] ->
  exists a',
    move a pos d1 d2 = Some a' /\
    ((apple_x a', apple_y a') ∉ pos) /\
    0 <= apple_x a' < screen_width a - SIZE /\
    0 <= apple_y a' < screen_height a - SIZE /\
    apple_x a' mod SIZE = 0 /\ apple_y a' mod SIZE = 0 /\
    screen_width a' = screen_width a /\ screen_height a' = screen_height a /\
    grid_width a' = grid_width a /\ grid_height a' = grid_height a.
Proof.
  intros Hv. unfold move.
  destruct (valid_positions a pos) as [|c l] eqn:E; [done|].
  destruct (random_choice_elem d1 (c :: l)) as (p & Hp & Hin); [done|].
  rewrite Hp. cbn [mbind option_bind]. eexists. split; [reflexivity|].
  rewrite <- E in Hin. apply valid_positions_spec in Hin as (Hx & Hy & Hfree).
  apply range_SIZE_elem in Hx as (Hx & Hxm). apply range_SIZE_elem in Hy as (Hy & Hym).
  cbn [place apple_x apple_y screen_width screen_height grid_width grid_height].
  split; [by destruct p|]. done.
Qed.

Lemma Qc_of_Z_mult (a b : Z) : Qc_of_Z (a * b) = (Qc_of_Z a * Qc_of_Z b)%Qc.
Proof.
  unfold Qc_of_Z, Qcmult. apply Q2Qc_eq_iff. cbn [this Q2Qc].
  rewrite !Qred_correct, inject_Z_mult. reflexivity.
Qed.

Lemma scaled_range (m k : Z) :
  0 < m -> 0 <= k <= m ->
  (Q2Qc 0 <= Qc_of_Z k / Qc_of_Z m * Qc_of_Z 100)%Qc /\
  (Qc_of_Z k / Qc_of_Z m * Qc_of_Z 100 <= Qc_of_Z 100)%Qc.
Proof.
  intros Hm (H0 & H1). split.
  - rewrite <- (scaled_zero m).
    destruct (decide (k = 0)) as [->|Hne]; [apply Qcle_refl|].
    apply Qclt_le_weak, scaled_lt; lia.
  - rewrite <- (scaled_full m Hm) at 2.
    destruct (decide (k = m)) as [->|Hne]; [apply Qcle_refl|].
    apply Qclt_le_weak, scaled_lt; lia.
Qed.

(** X26: the safety and the mobility sub-score never raise and stay
    between 0 and 100. The safety score is the share of the 24 cells around
    the candidate that do not collide, and the mobility score is 25 for
    each of the four neighbours that does not collide. *)
Theorem sub_scores_in_range (g : Game) (cx cy : Z) :
  let safe := List.length (List.filter
                (fun d : Cell => negb (would_collide g (cx + d.1) (cy + d.2)))
                window_cells) in
  let free := List.length (List.filter
                (fun d : Cell => negb (would_collide g (cx + d.1) (cy + d.2)))
                deltas) in
  exists s m : Qc,
    calculate_safety_score g cx cy = Some s /\
    calculate_mobility_score g cx cy = Some m /\
    s = (Qc_of_Z (Z.of_nat safe) / Qc_of_Z 24 * Qc_of_Z 100)%Qc /\
    m = Qc_of_Z (25 * Z.of_nat free) /\
    (safe <= 24)%nat /\ (free <= 4)%nat /\
    (Q2Qc 0 <= s)%Qc /\ (s <= Qc_of_Z 100)%Qc /\
    (Q2Qc 0 <= m)%Qc /\ (m <= Qc_of_Z 100)%Qc.
Proof.
  intros safe free.
  assert (Hsafe : (safe <= 24)%nat).
  { unfold safe. etransitivity; [apply List.filter_length_le|]. done. }
  assert (Hfree : (free <= 4)%nat).
  { unfold free. etransitivity; [apply List.filter_length_le|]. done. }
  assert (Hm : (Qc_of_Z (Z.of_nat free) / Qc_of_Z 4 * Qc_of_Z 100)%Qc
               = Qc_of_Z (25 * Z.of_nat free)).
  { rewrite Qc_of_Z_mult. change (Qc_of_Z 100) with (Qc_of_Z (25 * 4)).
    rewrite Qc_of_Z_mult. field. apply Qc_of_Z_neq0. done. }
  exists (Qc_of_Z (Z.of_nat safe) / Qc_of_Z 24 * Qc_of_Z 100)%Qc,
         (Qc_of_Z (25 * Z.of_nat free)).
  split; [|split; [|split; [done|split; [done|split; [done|split; [done|]]]]]].
  - unfold calculate_safety_score.
    change (Z.of_nat (List.length window_cells)) with 24.
    change (0 <? 24) with true. cbv iota.
    rewrite (bind_Some _ _ _ (truediv_Some _ (Qc_of_Z 24) (Qc_of_Z_neq0 24 ltac:(done)))).
    reflexivity.
  - unfold calculate_mobility_score.
    rewrite (bind_Some _ _ _ (truediv_Some _ (Qc_of_Z 4) (Qc_of_Z_neq0 4 ltac:(done)))).
    fold free. by rewrite Hm.
  - destruct (scaled_range 24 (Z.of_nat safe)) as (H1 & H2); [lia|lia|].
    destruct (scaled_range 4 (Z.of_nat free)) as (H3 & H4); [lia|lia|].
    rewrite Hm in H3, H4. done.
Qed.

End PlacementFacts.

Lemma apple_move_keeps_off_snake_and_border_witness :
  exists a',
    Utilitybased.move std_apple [(40, 40)] 3 5 = Some a' /\
    ((Utilitybased.apple_x a', Utilitybased.apple_y a') ∉ [(40, 40)]) /\
    Utilitybased.apple_x a' < 960 /\ Utilitybased.apple_y a' < 760.
Proof.
  destruct (apple_move_keeps_off_snake_and_border std_apple [(40, 40)] 3 5)
    as (a' & Hm & Hoff & Hx & Hy & _).
  - intros H. vm_compute in H. discriminate H.
  - exists a'. split; [exact Hm|]. split; [exact Hoff|].
    change (Utilitybased.screen_width std_apple - SIZE) with 960 in Hx.
    change (Utilitybased.screen_height std_apple - SIZE) with 760 in Hy.
    lia.
Defined.

Lemma get_direction_to_position_inverts_step_witness :
  Utilitybased.get_direction_to_position 80 80 40 120 = Some Left /\
  Utilitybased.get_direction_to_position 80 80 80 40 = Some Up.
Proof.
  destruct (get_direction_to_position_inverts_step 80 80 40 120 Left)
    as (_ & _ & Hl & _).
  destruct (get_direction_to_position_inverts_step 80 80 80 40 Up)
    as (_ & _ & _ & _ & Hu & _).
  split; [apply Hl; lia|apply Hu; [reflexivity|lia]].
Defined.

(* ===================================================================== *)
(** * The main loop of the planning and the model-based game *)
(* ===================================================================== *)

Section RunFacts.
Import Utilitybased UtilitybasedGame.

Variable math_sqrt : Qc -> Qc.
Hypothesis math_sqrt_pos : forall q, (Q2Qc 0 < q)%Qc -> (Q2Qc 0 < math_sqrt q)%Qc.

Lemma move_keeps_grid (a : Apple) (pos : list Cell) (d1 d2 : nat) (a' : Apple) :
  move a pos d1 d2 = Some a' ->
  grid_width a' = grid_width a /\ grid_height a' = grid_height a.
Proof.
  unfold move. destruct (valid_positions a pos) as [|c l].
  - destruct (random_randint d1 0 (grid_width a - 1)) as [rx|]; [|discriminate].
    destruct (random_randint d2 0 (grid_height a - 1)) as [ry|]; [|discriminate].
    cbn [mbind option_bind]. by intros [= <-].
  - destruct (random_choice d1 (c :: l)) as [p|]; [|discriminate].
    cbn [mbind option_bind]. by intros [= <-].
Qed.

(** One [play] keeps the frame of the game: surface, grid and speed range. *)
Lemma play_keeps_frame (st st' : PlayState) (d1 d2 : nat) (crash : option Crash) :
  play st d1 d2 = Some (st', crash) ->
  grid_width (apple (game st')) = grid_width (apple (game st)) /\
  grid_height (apple (game st')) = grid_height (apple (game st)) /\
  (game_speed st' <= game_speed st)%Qc /\
  ((Q2Qc (5 # 100) <= game_speed st)%Qc -> (Q2Qc (5 # 100) <= game_speed st')%Qc).
Proof.
  intros Hplay. unfold play in Hplay.
  destruct (walk (snake (game st))) as [s1|]; [|discriminate].
  cbn [mbind option_bind] in Hplay.
  destruct (is_collision _ _ _ _).
  - destruct (increase_length s1) as [s2|]; [|discriminate].
    cbn [mbind option_bind] in Hplay.
    destruct (move _ _ _ _) as [a'|] eqn:Em; [|discriminate].
    cbn [mbind option_bind fst snd] in Hplay.
    destruct (move_keeps_grid _ _ _ _ _ Em) as (Hgw & Hgh).
    destruct (speed_after_apple_bounds (length s2) (game_speed st)) as (H1 & H2).
    destruct (self_collision _); [|destruct (check_wall_collision _)];
      injection Hplay as <- _; cbn [game_speed game apple]; done.
  - cbn [mbind option_bind fst snd] in Hplay.
    destruct (self_collision _); [|destruct (check_wall_collision _)];
      injection Hplay as <- _; cbn [game_speed game apple];
      (split; [done|split; [done|split; [apply Qcle_refl|done]]]).
Qed.

(** One turn of the loop. *)
Lemma run_loop_turn (control : Game -> option Game) (st : PlayState) (d1 d2 : nat) :
  (forall g, snake_wf (snake g) ->
     exists g', control g = Some g' /\ snake_wf (snake g') /\ apple g' = apple g) ->
  play_state_wf st ->
  exists g1 st' crash,
    control (game st) = Some g1 /\
    play {| game := g1; game_speed := game_speed st |} d1 d2 = Some (st', crash) /\
    truediv (Q2Qc 1) (game_speed st') = Some (Q2Qc 1 / game_speed st')%Qc /\
    play_state_wf st'.
Proof.
  intros Hcontrol (Hwf & Hgw & Hgh & Hlo & Hhi).
  destruct (Hcontrol (game st) Hwf) as (g1 & Hc & Hwf1 & Ha1).
  destruct (play_steps {| game := g1; game_speed := game_speed st |} d1 d2)
    as (s1 & s' & a' & speed' & _ & Hplay & Hwf' & _).
  { exact Hwf1. }
  { cbn [game]. by rewrite Ha1. }
  { cbn [game]. by rewrite Ha1. }
  cbv zeta in Hplay.
  destruct (play_keeps_frame _ _ _ _ _ Hplay) as (Hgw' & Hgh' & Hle & Hge).
  cbn [game game_speed apple] in Hgw', Hgh', Hle, Hge. rewrite Ha1 in Hgw', Hgh'.
  specialize (Hge Hlo).
  eexists g1, _, _. split; [exact Hc|]. split; [exact Hplay|].
  assert (Hinv : play_state_wf
            {| game := {| surface_width := surface_width g1;
                          surface_height := surface_height g1;
                          snake := s'; apple := a' |};
               game_speed := speed' |}).
  { unfold play_state_wf. cbn [game game_speed snake apple].
    split; [exact Hwf'|]. split; [by rewrite Hgw'|]. split; [by rewrite Hgh'|].
    split; [exact Hge|]. by eapply Qcle_trans. }
  split; [|exact Hinv].
  cbn [game_speed]. apply truediv_Some.
  intros E. rewrite E in Hge. by apply Qcle_not_lt in Hge.
Qed.

Lemma run_loop_safe (control : Game -> option Game) (draws : list (nat * nat)) :
  (forall g, snake_wf (snake g) ->
     exists g', control g = Some g' /\ snake_wf (snake g') /\ apple g' = apple g) ->
  forall st, play_state_wf st ->
    exists st' crash, run_loop control st draws = Some (st', crash) /\ play_state_wf st'.
Proof.
  intros Hcontrol. induction draws as [|d rest IH]; intros st Hst.
  - exists st, None. by split.
  - destruct (run_loop_turn control st d.1 d.2 Hcontrol Hst)
      as (g1 & st1 & crash & Hc & Hplay & Hdiv & Hst1).
    cbn [run_loop]. rewrite (bind_Some _ _ _ Hc), (bind_Some _ _ _ Hplay).
    cbn [fst snd]. rewrite (bind_Some _ _ _ Hdiv).
    destruct crash as [c|].
    + exists st1, (Some c). by split.
    + by apply IH.
Qed.

Lemma utility_control_keeps (g : Game) :
  snake_wf (snake g) ->
  exists g', utility_control math_sqrt g = Some g' /\
             snake_wf (snake g') /\ apple g' = apple g.
Proof.
  intros Hwf. destruct (auto_control_cases math_sqrt math_sqrt_pos g) as (d & Hrun & _).
  destruct (execute_move_body g d Hwf) as (Hwf' & _ & _ & Ha).
  exists (execute_move g d). unfold utility_control.
  rewrite (bind_Some _ _ _ Hrun). by split.
Qed.

Lemma model_control_keeps (g : Game) :
  snake_wf (snake g) ->
  exists g', model_control math_sqrt g = Some g' /\
             snake_wf (snake g') /\ apple g' = apple g.
Proof.
  intros Hwf. unfold model_control, Modelbased.auto_control.
  destruct (Modelbased.safe_moves math_sqrt g) as [|m l].
  - exists g. by split.
  - destruct (execute_move_body g (Modelbased.min_from m l).1 Hwf) as (Hwf' & _ & _ & Ha).
    eexists. split; [reflexivity|]. by split.
Qed.

Lemma start_state_wf : play_state_wf start_state.
Proof.
  unfold play_state_wf, start_state. cbn [game game_speed].
  split; [apply init_snake_wf|]. split; [by vm_compute|]. split; [by vm_compute|].
  split; [by vm_compute|apply Qcle_refl].
Qed.

(** X27: the main loop of Utilitybased.py and of Modelbased.py dies of no
    exception. From the state after [__init__] or [reset], for every number
    of ticks and every sequence of random draws, [auto_control] returns,
    [play] returns or raises one of its two crashes and nothing else, and
    [1 / self.game_speed] is defined, so nothing is raised outside the
    [try] of [run] and what the [except] takes for a game over is a
    collision. The snake stays well formed and the speed between 0.05 and
    0.15. *)
Theorem run_loop_raises_only_crashes (draws : list (nat * nat)) :
  (exists st' crash,
     run_loop (utility_control math_sqrt) start_state draws = Some (st', crash) /\
     play_state_wf st') /\
  (exists st' crash,
     run_loop (model_control math_sqrt) start_state draws = Some (st', crash) /\
     play_state_wf st').
Proof.
  split.
  - apply run_loop_safe; [exact utility_control_keeps|exact start_state_wf].
  - apply run_loop_safe; [exact model_control_keeps|exact start_state_wf].
Qed.

End RunFacts.

Lemma run_loop_raises_only_crashes_witness :
  exists st' crash,
    run_loop (utility_control coarse_sqrt) start_state [(3%nat, 5%nat); (0%nat, 0%nat)]
    = Some (st', crash) /\
    play_state_wf st'.
Proof.
  exact (proj1 (run_loop_raises_only_crashes coarse_sqrt coarse_sqrt_pos
                  [(3%nat, 5%nat); (0%nat, 0%nat)])).
Defined.
